(** * ModelSafe metadata registry (metadata.ts, association.ts)

    A shallow embedding of the declaration store that ModelSafe keeps on model
    prototypes through [reflect-metadata], and of the readers that resolve it.

    JavaScript objects live in a heap of mutable cells addressed by location,
    so that the sharing created by [{ ... x }] (a shallow copy) and by
    lodash's [_.merge] (which updates nested objects in place) is visible.
    Metadata targets (prototype objects) carry their prototype chain, because
    [Reflect.getMetadata] and [Reflect.hasMetadata] walk it.

    Scope of the model: property keys are strings (symbol keys are left out);
    numbers are integers; of the members an object inherits only the names
    are represented (those of [Object.prototype] and, for an array, of
    [Array.prototype]), which is what [key in object] asks for; the order of
    [Object.keys] is the order of the finite map; [_.merge] is that of
    lodash 4.17.21, applied to a source written as a literal; the
    TypeScript compiler emits ES5. *)

From Stdlib Require Import ZArith String Ascii.
From stdpp Require Import gmap strings list fin_maps pretty.

Local Open Scope string_scope.

(** ** Values and heap objects *)

Definition loc := nat.

(** A JavaScript value: the primitives, a function (known by its identity
    only; this module never calls one) and a reference to a heap object. *)
Inductive value :=
| VUndefined
| VNull
| VBool (b : bool)
| VNum (n : Z)
| VStr (s : string)
| VFun (f : nat)
| VRef (l : loc).

#[global] Instance value_eq_dec : EqDecision value.
Proof. solve_decision. Defined.

(** What lodash's [isPlainObject] and [isArray] tell apart; an instance
    remembers the class that built it. *)
Inductive okind :=
| KPlain
| KArray
| KInstance (cls : string).

#[global] Instance okind_eq_dec : EqDecision okind.
Proof. solve_decision. Defined.

(** A heap object: its own enumerable properties, and for an array its
    [length]. The elements of an array are the properties named by the
    decimal indices. *)
Record object := Obj {
  kind : okind;
  fields : gmap string value;
  alen : nat
}.

Definition plain (fs : gmap string value) : object := Obj KPlain fs 0.

(** A metadata target: an object identity with its prototype chain. *)
#[warnings="-register-all"]
Inductive objref :=
| ObjRef (oid : nat) (proto : option objref).

Definition oid_of (o : objref) : nat := match o with ObjRef i _ => i end.
Definition proto_of (o : objref) : option objref := match o with ObjRef _ p => p end.

(** A function value handed to the registry as a model constructor: its
    [name], its source text ([toString()]) and its [prototype], [None] when
    that is not an object (an arrow function, a method, a bound function). *)
Record ctor := Ctor {
  fn_name : string;
  fn_source : string;
  prototype : option objref
}.

(** reflect-metadata's [[Metadata]] table: target, property key (or none),
    metadata key. *)
Record state := State {
  heap : gmap loc object;
  metadata : gmap (nat * option string * string) value
}.

Definition empty_state : state := State ∅ ∅.

(** ** Computations that read and write the state and may throw *)

Inductive exn := TypeError.

Inductive outcome (A : Type) :=
| Return (a : A) (s : state)
| Throw (e : exn) (s : state).
Arguments Return {A} a s.
Arguments Throw {A} e s.

Definition M (A : Type) := state → outcome A.

Definition ret {A} (a : A) : M A := λ s, Return a s.
Definition throw {A} (e : exn) : M A := λ s, Throw e s.
Definition bind {A B} (m : M A) (k : A → M B) : M B :=
  λ s, match m s with
       | Return a s' => k a s'
       | Throw e s' => Throw e s'
       end.
(** [try { m } catch (err) { h }] *)
Definition try_catch {A} (m : M A) (h : M A) : M A :=
  λ s, match m s with
       | Return a s' => Return a s'
       | Throw _ s' => h s'
       end.

Declare Scope js_scope.
Delimit Scope js_scope with js.
Notation "'let*' x ':=' m 'in' k" := (bind m (λ x, k))
  (at level 10, x name, m at level 100, k at level 200) : js_scope.
Notation "'run' m 'in' k" := (bind m (λ _, k))
  (at level 10, m at level 100, k at level 200) : js_scope.
Local Open Scope js_scope.

Definition final_state {A} (r : outcome A) : state :=
  match r with Return _ s => s | Throw _ s => s end.

(** ** Heap primitives *)

Definition alloc_in (o : object) (h : gmap loc object) : loc * gmap loc object :=
  let l := fresh (dom h) in (l, <[l := o]> h).

Definition alloc (o : object) : M loc :=
  λ s, let '(l, h) := alloc_in o (heap s) in Return l (State h (metadata s)).

(** The canonical array index a property name denotes, if any. *)
Definition digit_of (a : ascii) : option nat :=
  let n := nat_of_ascii a in
  if (48 <=? n)%nat && (n <=? 57)%nat then Some (n - 48)%nat else None.

Fixpoint parse_digits (s : string) (acc : nat) : option nat :=
  match s with
  | EmptyString => Some acc
  | String a r =>
      match digit_of a with
      | Some d => parse_digits r (10 * acc + d)%nat
      | None => None
      end
  end.

Definition array_index (k : string) : option nat :=
  match k with
  | EmptyString => None
  | String "0" EmptyString => Some 0%nat
  | String "0" _ => None
  | _ => parse_digits k 0
  end.

(** [o[k]] on a heap object (own properties only). *)
Definition obj_get (o : object) (k : string) : value :=
  default VUndefined (fields o !! k).

(** [o[k] = v]; on an array an index at or past the end extends it. *)
Definition obj_set (k : string) (v : value) (o : object) : object :=
  Obj (kind o) (<[k := v]> (fields o))
      (match kind o, array_index k with
       | KArray, Some i => Nat.max (alen o) (S i)
       | _, _ => alen o
       end).

Definition heap_get (h : gmap loc object) (l : loc) (k : string) : value :=
  match h !! l with
  | Some o => obj_get o k
  | None => VUndefined
  end.

Definition heap_set (l : loc) (k : string) (v : value) (h : gmap loc object)
  : gmap loc object :=
  alter (obj_set k v) l h.

(** The property names every object inherits from [Object.prototype]
    (ECMAScript 5.1, 15.2.4 and B.2), and the ones an array has besides:
    [length] and the names of [Array.prototype] (15.4.4). *)
Definition Object_prototype_names : list string :=
  ["constructor"; "toString"; "toLocaleString"; "valueOf"; "hasOwnProperty";
   "isPrototypeOf"; "propertyIsEnumerable"; "__proto__"; "__defineGetter__";
   "__defineSetter__"; "__lookupGetter__"; "__lookupSetter__"].

Definition Array_prototype_names : list string :=
  ["length"; "join"; "pop"; "push"; "concat"; "reverse"; "shift"; "unshift";
   "slice"; "splice"; "sort"; "filter"; "forEach"; "some"; "every"; "map";
   "indexOf"; "lastIndexOf"; "reduce"; "reduceRight"].

(** [k in o]: an own property of the object or one it inherits. Of a
    class instance only what [Object.prototype] gives it is known here: the
    members of its class are not represented. *)
Definition obj_in (o : object) (k : string) : bool :=
  bool_decide (is_Some (fields o !! k))
  || bool_decide (k ∈ Object_prototype_names)
  || match kind o with
     | KArray => bool_decide (k ∈ Array_prototype_names)
     | _ => false
     end.

Definition heap_in (h : gmap loc object) (l : loc) (k : string) : bool :=
  match h !! l with
  | Some o => obj_in o k
  | None => false
  end.

(** [v.k]: reading a property of [undefined] or [null] throws; the
    properties of the other primitives and of functions are not
    represented and read as [undefined] (the registry reads [type] and
    [name] only). *)
Definition get_prop (v : value) (k : string) : M value :=
  λ s, match v with
       | VUndefined | VNull => Throw TypeError s
       | VRef l => Return (heap_get (heap s) l k) s
       | _ => Return VUndefined s
       end.

(** [o[k] = v] for a heap object. *)
Definition set_prop (l : loc) (k : string) (v : value) : M unit :=
  λ s, Return tt (State (heap_set l k v (heap s)) (metadata s)).

(** The own enumerable properties that [{ ... v }] copies: none for
    [undefined], [null] and the other primitives, the characters for a
    string. *)
Fixpoint chars (s : string) : list value :=
  match s with
  | EmptyString => []
  | String a r => VStr (String a EmptyString) :: chars r
  end.

Definition index_fields (vs : list value) : gmap string value :=
  list_to_map (imap (λ i v, (pretty i, v)) vs).

Definition spread_fields (h : gmap loc object) (v : value) : gmap string value :=
  match v with
  | VRef l => match h !! l with Some o => fields o | None => ∅ end
  | VStr s => index_fields (chars s)
  | _ => ∅
  end.

(** The elements of an array object. *)
Definition array_elems (o : object) : list value :=
  map (λ i, obj_get o (pretty i)) (seq 0 (alen o)).

Definition array_of (vs : list value) : object :=
  Obj KArray (index_fields vs) (length vs).

(** The elements that [[ ... v ]] iterates: an array or a string is
    iterable, [undefined] and the rest are not. *)
Definition spread_elems (h : gmap loc object) (v : value) : option (list value) :=
  match v with
  | VRef l =>
      match h !! l with
      | Some o => match kind o with KArray => Some (array_elems o) | _ => None end
      | None => None
      end
  | VStr s => Some (chars s)
  | _ => None
  end.

(** [{ ... v }] and the object literal [{ k1: v1, ... }]. *)
Definition spread_object (v : value) : M (gmap string value) :=
  λ s, Return (spread_fields (heap s) v) s.

Definition new_object (fs : gmap string value) : M loc := alloc (plain fs).

(** [[ ... v ]]; a value that is not iterable raises a TypeError. *)
Definition spread_array (v : value) : M (list value) :=
  λ s, match spread_elems (heap s) v with
       | Some vs => Return vs s
       | None => Throw TypeError s
       end.

Definition new_array (vs : list value) : M loc := alloc (array_of vs).

(** [Object.keys(o)] *)
Definition Object_keys (l : loc) : M (list string) :=
  λ s, Return (match heap s !! l with
               | Some o => (map_to_list (fields o)).*1
               | None => []
               end) s.

(** ** reflect-metadata *)

Module Reflect.

(** [OrdinaryGetMetadata]: the target's own entry, else its prototype's. *)
Fixpoint OrdinaryGetMetadata (mk : string) (o : objref) (pk : option string)
    (md : gmap (nat * option string * string) value) : value :=
  match o with
  | ObjRef i parent =>
      match md !! (i, pk, mk) with
      | Some v => v
      | None =>
          match parent with
          | Some p => OrdinaryGetMetadata mk p pk md
          | None => VUndefined
          end
      end
  end.

Fixpoint OrdinaryHasMetadata (mk : string) (o : objref) (pk : option string)
    (md : gmap (nat * option string * string) value) : bool :=
  match o with
  | ObjRef i parent =>
      match md !! (i, pk, mk) with
      | Some _ => true
      | None =>
          match parent with
          | Some p => OrdinaryHasMetadata mk p pk md
          | None => false
          end
      end
  end.

(** Each entry point throws a TypeError when the target is not an object. *)
Definition getMetadata (mk : string) (target : option objref)
    (pk : option string) : M value :=
  λ s, match target with
       | Some o => Return (OrdinaryGetMetadata mk o pk (metadata s)) s
       | None => Throw TypeError s
       end.

Definition hasMetadata (mk : string) (target : option objref)
    (pk : option string) : M bool :=
  λ s, match target with
       | Some o => Return (OrdinaryHasMetadata mk o pk (metadata s)) s
       | None => Throw TypeError s
       end.

Definition defineMetadata (mk : string) (v : value) (target : option objref)
    (pk : option string) : M unit :=
  λ s, match target with
       | Some o =>
           Return tt (State (heap s) (<[(oid_of o, pk, mk) := v]> (metadata s)))
       | None => Throw TypeError s
       end.

End Reflect.

(** ** lodash: [_.merge] *)

Module Lodash.

(** The source of a merge, as the object literal the caller writes: an atom
    is a primitive, a function or a reference to an existing object that is
    neither a plain object nor an array (all of which [_.merge] assigns as
    they are); the properties of [LObj] have distinct names. *)
#[warnings="-register-all"]
Inductive lit :=
| LAtom (v : value)
| LObj (fs : list (string * lit))
| LArr (es : list lit).

Definition is_array (h : gmap loc object) (l : loc) : bool :=
  match h !! l with
  | Some o => bool_decide (kind o = KArray)
  | None => false
  end.

(** [assignMergeValue(object, key, value)]: a defined value that differs
    from the current one is assigned; [undefined] is assigned only where
    [key in object] is false, so never under an inherited name. *)
Definition assignMergeValue (l : loc) (k : string) (v : value)
    (h : gmap loc object) : gmap loc object :=
  if decide (v = VUndefined)
  then (if heap_in h l k then h else heap_set l k v h)
  else (if decide (heap_get h l k = v) then h else heap_set l k v h).

(** [baseMergeDeep]: the value that ends up under the key whose current
    value is [objValue], and the heap after merging [src] into it. A plain
    source merges into an existing object in place and otherwise into a
    fresh [{}]; an array source merges into an existing array in place and
    otherwise into a fresh [[]] (array-like objects that are not arrays,
    buffers and typed arrays are left out). An atom is assigned as it is,
    which is what [_.merge] does with a primitive, a function and an object
    that is neither plain nor an array; a reference to a plain object or to
    an array, which [_.merge] would merge property by property, is not a
    source of this model (see [lit] and, for the sources the properties
    below are stated for, [literal]). *)
Fixpoint baseMergeDeep (src : lit) (objValue : value) (h : gmap loc object)
    {struct src} : value * gmap loc object :=
  match src with
  | LAtom v => (v, h)
  | LObj fs =>
      let '(l, h1) :=
        match objValue with
        | VRef l' => (l', h)
        | _ => alloc_in (plain ∅) h
        end in
      (VRef l,
       (fix each (fs : list (string * lit)) (h : gmap loc object) :=
          match fs with
          | [] => h
          | (k, s) :: r =>
              let '(nv, h') := baseMergeDeep s (heap_get h l k) h in
              each r (assignMergeValue l k nv h')
          end) fs h1)
  | LArr es =>
      let '(l, h1) :=
        match objValue with
        | VRef l' => if is_array h l' then (l', h) else alloc_in (array_of []) h
        | _ => alloc_in (array_of []) h
        end in
      (VRef l,
       (fix each (i : nat) (es : list lit) (h : gmap loc object) :=
          match es with
          | [] => h
          | e :: r =>
              let '(nv, h') := baseMergeDeep e (heap_get h l (pretty i)) h in
              each (S i) r (assignMergeValue l (pretty i) nv h')
          end) 0%nat es h1)
  end.

(** [baseMerge(object, source)] over the properties of a plain source. *)
Fixpoint baseMerge (l : loc) (fs : list (string * lit)) (h : gmap loc object)
    : gmap loc object :=
  match fs with
  | [] => h
  | (k, s) :: r =>
      let '(nv, h') := baseMergeDeep s (heap_get h l k) h in
      baseMerge l r (assignMergeValue l k nv h')
  end.

Fixpoint baseMergeElems (l : loc) (i : nat) (es : list lit)
    (h : gmap loc object) : gmap loc object :=
  match es with
  | [] => h
  | e :: r =>
      let '(nv, h') := baseMergeDeep e (heap_get h l (pretty i)) h in
      baseMergeElems l (S i) r (assignMergeValue l (pretty i) nv h')
  end.

(** [_.merge(object, { k1: s1, ... })]; returns [object]. *)
Definition merge (l : loc) (fs : list (string * lit)) : M loc :=
  λ s, Return l (State (baseMerge l fs (heap s)) (metadata s)).

(** The object literal [{ ... fs, k: v }]: [k] keeps its place when [fs]
    has it already and goes last otherwise. *)
Fixpoint lit_set (k : string) (v : lit) (fs : list (string * lit))
    : list (string * lit) :=
  match fs with
  | [] => [(k, v)]
  | (k', v') :: r =>
      if decide (k' = k) then (k, v) :: r else (k', v') :: lit_set k v r
  end.

End Lodash.

(** ** association.ts *)

Inductive AssociationType :=
| HAS_ONE
| HAS_MANY
| BELONGS_TO
| BELONGS_TO_MANY.

(** The number a TypeScript [enum] member stands for. *)
Definition AssociationType_value (t : AssociationType) : value :=
  VNum (match t with
        | HAS_ONE => 0
        | HAS_MANY => 1
        | BELONGS_TO => 2
        | BELONGS_TO_MANY => 3
        end).

Definition Association_class : string := "Association".
Definition Attribute_class : string := "Attribute".

(** [new Association(type, name)] *)
Definition new_Association (type : value) (name : string) : M loc :=
  alloc (Obj (KInstance Association_class)
             (<["name" := VStr name]> (<["type" := type]> ∅)) 0).

(** Modelled from the spec: the [Attribute] class of attribute.ts is not
    among the sources. "Attribute: constructed from (type: AttributeType,
    name: string). Exposes name via a stable stringification." *)
Definition new_Attribute (type : value) (name : string) : M loc :=
  alloc (Obj (KInstance Attribute_class)
             (<["name" := VStr name]> (<["type" := type]> ∅)) 0).




(** ** metadata.ts *)

Import Lodash.

Definition MODEL_OPTIONS_META_KEY : string := "modelsafe:options".
Definition MODEL_ATTRS_META_KEY : string := "modelsafe:attrs".
Definition MODEL_ASSOCS_META_KEY : string := "modelsafe:assocs".
Definition ATTR_VALIDATIONS_META_KEY : string := "modelsafe:attrs:validations".

Section Metadata.

(** lodash's [_.camelCase], which [guessModelName] ends with. *)
Variable camelCase : string → string.

(** [str.substr(start)], [str.substr(0, len)] with a possibly negative
    [len], and [str.indexOf(c)]. *)
Definition substr_from (start : nat) (s : string) : string :=
  substring start (String.length s - start) s.

Definition substr_to (len : Z) (s : string) : string :=
  substring 0 (Z.to_nat len) s.

Definition indexOf (c : string) (s : string) : Z :=
  match index 0 c s with
  | Some i => Z.of_nat i
  | None => -1
  end.

Definition guessModelName (c : ctor) : string :=
  let name :=
    if decide (fn_name c = "")
    then
      let str := fn_source c in
      let str := substr_from (String.length "function ") str in
      let str := substr_to (indexOf "(" str) str in
      str
    else fn_name c in
  camelCase name.

Definition hasModelOptions (c : ctor) : M bool :=
  try_catch
    (Reflect.hasMetadata MODEL_OPTIONS_META_KEY (prototype c) None)
    (ret false).

(** [options] are the own properties of the options object. *)
Definition defineModelOptions (c : ctor) (options : gmap string value) : M unit :=
  let* old := Reflect.getMetadata MODEL_OPTIONS_META_KEY (prototype c) None in
  let* inherited := spread_object old in
  let* options' := new_object (options ∪ inherited) in
  Reflect.defineMetadata MODEL_OPTIONS_META_KEY (VRef options') (prototype c) None.

(** The properties that [_.merge] reads from the object literal
    [{ [key]: options }]. The es5 output builds the literal as
    [_a = {}, _a[key] = options]; for the key [__proto__] that assignment
    sets the prototype of the literal instead of a property (a primitive is
    ignored), and [_.merge] ([keysIn]) then reads the enumerable properties
    of [options] as those of the literal. *)
Definition computed_property (key : string) (options : lit)
  : M (list (string * lit)) :=
  λ s, Return
         (if decide (key = "__proto__")
          then match options with
               | LObj fs => fs
               | LArr es => imap (λ i e, (pretty i, e)) es
               | LAtom (VRef l) =>
                   match heap s !! l with
                   | Some o => (λ kv, (kv.1, LAtom kv.2)) <$> map_to_list (fields o)
                   | None => []
                   end
               | LAtom _ => []
               end
          else [(key, options)]) s.

Definition defineAssociation (target : objref) (key : string) (options : lit)
    : M unit :=
  let* old := Reflect.getMetadata MODEL_ASSOCS_META_KEY (Some target) None in
  let* copy := spread_object old in
  let* object := new_object copy in
  let* source := computed_property key options in
  let* assocs := merge object source in
  Reflect.defineMetadata MODEL_ASSOCS_META_KEY (VRef assocs) (Some target) None.

Definition defineAttribute (target : objref) (key : string) (options : lit)
    : M unit :=
  let* old := Reflect.getMetadata MODEL_ATTRS_META_KEY (Some target) None in
  let* copy := spread_object old in
  let* object := new_object copy in
  let* source := computed_property key options in
  let* attrs := merge object source in
  Reflect.defineMetadata MODEL_ATTRS_META_KEY (VRef attrs) (Some target) None.

Definition defineAttributeValidation (target : objref) (key : string)
    (validation : value) : M unit :=
  let* old := Reflect.getMetadata ATTR_VALIDATIONS_META_KEY (Some target) (Some key) in
  let* elems := spread_array old in
  let* validations := new_array (elems ++ [validation]) in
  Reflect.defineMetadata ATTR_VALIDATIONS_META_KEY (VRef validations)
    (Some target) (Some key).

Definition getModelOptions (c : ctor) : M loc :=
  let* m := Reflect.getMetadata MODEL_OPTIONS_META_KEY (prototype c) None in
  let* fs := spread_object m in
  new_object fs.

Definition getAssociations (c : ctor) : M loc :=
  let* m := Reflect.getMetadata MODEL_ASSOCS_META_KEY (prototype c) None in
  let* fs := spread_object m in
  new_object fs.

Definition getAttributes (c : ctor) : M loc :=
  let* m := Reflect.getMetadata MODEL_ATTRS_META_KEY (prototype c) None in
  let* fs := spread_object m in
  new_object fs.

Definition getAttributeValidations (c : ctor) (key : string) : M loc :=
  let* m := Reflect.getMetadata ATTR_VALIDATIONS_META_KEY (prototype c) (Some key) in
  let* elems := spread_array m in
  new_array elems.

(** One of the two loops of [getProperties]:
    [for (let key of keys) { let options = from[key];
       props[key] = new C(options.type, key); }] *)
Fixpoint resolve_each (new_C : value → string → M loc) (props from : loc)
    (keys : list string) : M unit :=
  match keys with
  | [] => ret tt
  | key :: rest =>
      let* options := get_prop (VRef from) key in
      let* type := get_prop options "type" in
      let* p := new_C type key in
      run set_prop props key (VRef p) in
      resolve_each new_C props from rest
  end.

Definition getProperties (c : ctor) : M loc :=
  let* props := new_object ∅ in
  let* attrs := getAttributes c in
  let* assocs := getAssociations c in
  let* attr_keys := Object_keys attrs in
  run resolve_each new_Attribute props attrs attr_keys in
  let* assoc_keys := Object_keys assocs in
  run resolve_each new_Association props assocs assoc_keys in
  ret props.

(** [@model(options)]; [None] is the omitted argument. *)
Definition model (options : option (gmap string value)) (c : ctor) : M unit :=
  defineModelOptions c
    (default ∅ options ∪ {["name" := VStr (guessModelName c)]}).

(** [@attr(type, options)]: [{ ... options, type }]. *)
Definition attr (type : lit) (options : option (list (string * lit)))
    (target : objref) (key : string) : M unit :=
  defineAttribute target key (LObj (lit_set "type" type (default [] options))).

(** [@assoc(type, target, options)]: [{ ... options, type, target }]; an
    omitted target is [undefined]. *)
Definition assoc (type : AssociationType) (target : value)
    (options : option (list (string * lit))) (c : objref) (key : string)
    : M unit :=
  defineAssociation c key
    (LObj (lit_set "target" (LAtom target)
             (lit_set "type" (LAtom (AssociationType_value type))
                (default [] options)))).

(** [@validate(validation, options)]: [{ cb: validation, options }]. *)
Definition validate (validation : value) (options : value)
    (target : objref) (key : string) : M unit :=
  let* entry := new_object (<["options" := options]> (<["cb" := validation]> ∅)) in
  defineAttributeValidation target key (VRef entry).

Definition defaultValue (v : lit) (target : objref) (key : string) : M unit :=
  defineAttribute target key (LObj [("defaultValue", v)]).

Definition readOnly (target : objref) (key : string) : M unit :=
  defineAttribute target key (LObj [("readOnly", LAtom (VBool true))]).

Definition required (target : objref) (key : string) : M unit :=
  defineAttribute target key (LObj [("optional", LAtom (VBool false))]).

Definition optional (target : objref) (key : string) : M unit :=
  defineAttribute target key (LObj [("optional", LAtom (VBool true))]).

Definition primary (target : objref) (key : string) : M unit :=
  defineAttribute target key (LObj [("primary", LAtom (VBool true))]).

Definition unique (target : objref) (key : string) : M unit :=
  defineAttribute target key (LObj [("unique", LAtom (VBool true))]).

End Metadata.

(** * Vocabulary of the properties *)

(** ** Reading the store *)

(** The identities on the prototype chain of [o], nearest first. *)
Fixpoint chain (o : objref) : list nat :=
  match o with
  | ObjRef i parent =>
      i :: match parent with Some p => chain p | None => [] end
  end.

(** What a model's prototype resolves to under a metadata key, and the
    properties a reader copies out of it. *)
Definition meta_value (s : state) (mk : string) (o : objref) : value :=
  Reflect.OrdinaryGetMetadata mk o None (metadata s).

Definition meta_fields (s : state) (mk : string) (o : objref) : gmap string value :=
  spread_fields (heap s) (meta_value s mk o).

(** The object that [new Attribute(type, name)] and
    [new Association(type, name)] build. *)
Definition instance (cls : string) (type : value) (name : string) : object :=
  Obj (KInstance cls) (<["name" := VStr name]> (<["type" := type]> ∅)) 0.

(** [undefined] and [null]: the values whose properties cannot be read. *)
Definition nullish (v : value) : bool :=
  match v with VUndefined | VNull => true | _ => false end.

(** What [options.type] evaluates to when [options] is not nullish. *)
Definition type_of (h : gmap loc object) (options : value) : value :=
  match options with
  | VRef l => heap_get h l "type"
  | _ => VUndefined
  end.

(** A value that, if it is a reference, refers to an object of [d]. *)
Definition value_closed (d : gset loc) (v : value) : Prop :=
  match v with VRef l => l ∈ d | _ => True end.

#[global] Instance value_closed_dec d v : Decision (value_closed d v).
Proof. destruct v; simpl; apply _. Defined.

(** Every record that [getProperties] will read for the prototype [o] is
    there: the two metadata values and the values stored under each key
    refer to objects in the heap, and no stored value is [undefined] or
    [null] (reading [options.type] would throw). *)
Definition resolvable (s : state) (o : objref) : Prop :=
  value_closed (dom (heap s)) (meta_value s MODEL_ATTRS_META_KEY o)
  ∧ value_closed (dom (heap s)) (meta_value s MODEL_ASSOCS_META_KEY o)
  ∧ map_Forall (λ _ v, nullish v = false ∧ value_closed (dom (heap s)) v)
      (meta_fields s MODEL_ATTRS_META_KEY o)
  ∧ map_Forall (λ _ v, nullish v = false ∧ value_closed (dom (heap s)) v)
      (meta_fields s MODEL_ASSOCS_META_KEY o).

#[global] Instance resolvable_dec s o : Decision (resolvable s o).
Proof. unfold resolvable. apply _. Defined.

(** Every reference held by the store points to an object of the heap. *)
Definition closed (s : state) : Prop :=
  map_Forall (λ _ v, value_closed (dom (heap s)) v) (metadata s)
  ∧ map_Forall (λ _ o, map_Forall (λ _ v, value_closed (dom (heap s)) v) (fields o))
      (heap s).

#[global] Instance closed_dec s : Decision (closed s).
Proof. unfold closed. apply _. Defined.

(** The objects a computation creates. *)
Definition new_objects {A} (m : M A) (s : state) : gset loc :=
  dom (heap (final_state (m s))) ∖ dom (heap s).

(** The value found by following a path of property names. *)
Fixpoint read_path (h : gmap loc object) (v : value) (path : list string) : value :=
  match path with
  | [] => v
  | k :: rest =>
      match v with
      | VRef l => read_path h (heap_get h l k) rest
      | _ => VUndefined
      end
  end.

(** ** Undeclared types *)

(** No declaration was made on the type itself. *)
Definition never_declared (s : state) (c : ctor) : Prop :=
  match prototype c with
  | Some o => ∀ pk mk, metadata s !! (oid_of o, pk, mk) = None
  | None => True
  end.

(** No declaration was made on the type's prototype nor on any object of
    its prototype chain. *)
Definition nothing_inherited (s : state) (c : ctor) : Prop :=
  ∀ o, prototype c = Some o →
       ∀ i pk mk, i ∈ chain o → metadata s !! (i, pk, mk) = None.

Definition getProperties_empty (c : ctor) (s : state) : Prop :=
  ∃ p s', getProperties c s = Return p s' ∧ heap s' !! p = Some (plain ∅).

Definition getModelOptions_empty (c : ctor) (s : state) : Prop :=
  ∃ l s', getModelOptions c s = Return l s' ∧ heap s' !! l = Some (plain ∅).

(** ** Sequences of registry operations *)

Inductive op :=
| OpDefineModelOptions (c : ctor) (options : gmap string value)
| OpDefineAssociation (t : objref) (key : string) (options : lit)
| OpDefineAttribute (t : objref) (key : string) (options : lit)
| OpDefineAttributeValidation (t : objref) (key : string) (validation : value)
| OpHasModelOptions (c : ctor)
| OpGetModelOptions (c : ctor)
| OpGetAssociations (c : ctor)
| OpGetAttributes (c : ctor)
| OpGetAttributeValidations (c : ctor) (key : string)
| OpGetProperties (c : ctor).

(** The state an operation leaves behind, whether it returns or throws. *)
Definition step (o : op) (s : state) : state :=
  match o with
  | OpDefineModelOptions c options => final_state (defineModelOptions c options s)
  | OpDefineAssociation t key options => final_state (defineAssociation t key options s)
  | OpDefineAttribute t key options => final_state (defineAttribute t key options s)
  | OpDefineAttributeValidation t key v =>
      final_state (defineAttributeValidation t key v s)
  | OpHasModelOptions c => final_state (hasModelOptions c s)
  | OpGetModelOptions c => final_state (getModelOptions c s)
  | OpGetAssociations c => final_state (getAssociations c s)
  | OpGetAttributes c => final_state (getAttributes c s)
  | OpGetAttributeValidations c key => final_state (getAttributeValidations c key s)
  | OpGetProperties c => final_state (getProperties c s)
  end.

Definition exec (ops : list op) (s : state) : state :=
  foldl (λ s o, step o s) s ops.

(** The registry never removes a metadata entry. *)
Definition metadata_grows : relation state :=
  λ s s', ∀ k, is_Some (metadata s !! k) → is_Some (metadata s' !! k).

(** ** Flat partials *)

(** A partial whose properties are all atoms, as the decorators pass. *)
Definition atoms (fs : list (string * value)) : list (string * lit) :=
  map (λ kv, (kv.1, LAtom kv.2)) fs.

(** What [assignMergeValue] does to the object it writes to. *)
Definition assign_obj (k : string) (v : value) (o : object) : object :=
  if decide (v = VUndefined)
  then (if obj_in o k then o else obj_set k v o)
  else (if decide (obj_get o k = v) then o else obj_set k v o).

(** A flat partial merged into an object, property by property. *)
Definition assign_all (o : object) (fs : list (string * value)) : object :=
  foldl (λ o kv, assign_obj kv.1 kv.2 o) o fs.

(** The attribute record stored for [(t, key)] once [m] has run on an
    empty registry. *)
Definition record_after (m : M unit) (t : objref) (key : string)
  : option (gmap string value) :=
  match m empty_state with
  | Return _ s =>
      match meta_fields s MODEL_ATTRS_META_KEY t !! key with
      | Some (VRef r) => fields <$> heap s !! r
      | _ => None
      end
  | Throw _ _ => None
  end.

(** ** Stores that differ in association targets *)

Definition erase_target (o : object) : object :=
  Obj (kind o) (delete "target" (fields o)) (alen o).

(** The heap with the [target] of every object in [R] erased. *)
Definition mask (R : gset loc) (h : gmap loc object) : gmap loc object :=
  map_imap (λ l o, Some (if decide (l ∈ R) then erase_target o else o)) h.

(** Two stores that are identical except for the [target] values of the
    objects in [R]. *)
Definition targets_differ (R : gset loc) (s1 s2 : state) : Prop :=
  metadata s1 = metadata s2 ∧ mask R (heap s1) = mask R (heap s2).

#[global] Instance object_eq_dec : EqDecision object.
Proof. solve_decision. Defined.

#[global] Instance targets_differ_dec R s1 s2 : Decision (targets_differ R s1 s2).
Proof. unfold targets_differ. apply _. Defined.

(** The same, location by location. *)
Definition heap_rel (R : gset loc) (h1 h2 : gmap loc object) : Prop :=
  ∀ l, if decide (l ∈ R)
       then erase_target <$> h1 !! l = erase_target <$> h2 !! l
       else h1 !! l = h2 !! l.

(** No object in [R] is itself registered as a metadata value. *)
Definition roots_outside (R : gset loc) (s : state) : Prop :=
  map_Forall (λ _ v, match v with VRef l => l ∉ R | _ => True end) (metadata s).

#[global] Instance roots_outside_dec R s : Decision (roots_outside R s).
Proof.
  unfold roots_outside. apply map_Forall_dec. intros _ v. destruct v; apply _.
Defined.

(** The relation kept along two runs: the stores differ in the targets of
    [R] only, and [R] consists of existing objects none of which is a
    metadata value. *)
Definition st_rel (R : gset loc) (s1 s2 : state) : Prop :=
  targets_differ R s1 s2 ∧ R ⊆ dom (heap s1) ∧ roots_outside R s1.

Definition outcome_rel {A} (R : gset loc) (r1 r2 : outcome A) : Prop :=
  match r1, r2 with
  | Return a1 s1, Return a2 s2 => a1 = a2 ∧ st_rel R s1 s2
  | Throw e1 s1, Throw e2 s2 => e1 = e2 ∧ st_rel R s1 s2
  | _, _ => False
  end.

(** ** Objects that nothing else refers to *)

(** The heap locations a source literal mentions. *)
Fixpoint lit_refs (src : lit) : list loc :=
  match src with
  | LAtom (VRef l) => [l]
  | LAtom _ => []
  | LObj fs => concat (map (λ kv, match kv with (_, s) => lit_refs s end) fs)
  | LArr es => concat (map lit_refs es)
  end.

Definition value_outside (N : gset loc) (v : value) : Prop :=
  match v with VRef l => l ∉ N | _ => True end.

#[global] Instance value_outside_dec N v : Decision (value_outside N v).
Proof. destruct v; simpl; apply _. Defined.

Definition lit_outside (N : gset loc) (src : lit) : Prop :=
  Forall (λ l, l ∉ N) (lit_refs src).

Definition fields_outside (N : gset loc) (fs : gmap string value) : Prop :=
  map_Forall (λ _ v, value_outside N v) fs.

(** The objects of [N] exist, and nothing else refers to them: no object
    outside [N] and no metadata entry. *)
Definition heap_sealed (N : gset loc) (h : gmap loc object) : Prop :=
  N ⊆ dom h
  ∧ map_Forall (λ l o, l ∉ N → fields_outside N (fields o)) h.

Definition sealed (N : gset loc) (s : state) : Prop :=
  heap_sealed N (heap s) ∧ roots_outside N s.

(** The objects of [N] are what they were. *)
Definition frame (N : gset loc) (h h' : gmap loc object) : Prop :=
  ∀ l, l ∈ N → h' !! l = h !! l.

(** What a merge step guarantees about the sealed set. *)
Definition merge_keeps (N : gset loc) (src : lit) : Prop :=
  ∀ ov h,
    heap_sealed N h → lit_outside N src → value_outside N ov →
    heap_sealed N (baseMergeDeep src ov h).2
    ∧ value_outside N (baseMergeDeep src ov h).1
    ∧ frame N h (baseMergeDeep src ov h).2.

(** A computation that, from a store in which [N] is sealed, leaves [N]
    sealed and its objects as they were, and whose result satisfies
    [post]. *)
Definition safe (N : gset loc) {A} (m : M A) (post : A → Prop) : Prop :=
  ∀ s, sealed N s →
       match m s with
       | Return a s' => sealed N s' ∧ frame N (heap s) (heap s') ∧ post a
       | Throw _ s' => sealed N s' ∧ frame N (heap s) (heap s')
       end.

Definition op_outside (N : gset loc) (o : op) : Prop :=
  match o with
  | OpDefineModelOptions _ options => fields_outside N options
  | OpDefineAssociation _ _ options => lit_outside N options
  | OpDefineAttribute _ _ options => lit_outside N options
  | OpDefineAttributeValidation _ _ v => value_outside N v
  | _ => True
  end.

#[global] Instance op_outside_dec N o : Decision (op_outside N o).
Proof. destruct o; simpl; unfold lit_outside, fields_outside; apply _. Defined.

(** C9 as stated: whatever is read through a resolved property mapping is
    the same after a later [defineAttribute] for that type (whose options
    mention no existing object). *)
Definition later_declaration_invisible : Prop :=
  ∀ c t s p s1 key options path,
    prototype c = Some t →
    closed s →
    getProperties c s = Return p s1 →
    lit_refs options = [] →
    read_path (heap (step (OpDefineAttribute t key options) s1)) (VRef p) path
    = read_path (heap s1) (VRef p) path.

(** ** Example models *)

Definition User_prototype : objref := ObjRef 1 None.
Definition User : ctor := Ctor "User" "class User { }" (Some User_prototype).

(** Two validation entries [{ cb, options }] held by the caller. *)
Definition two_entries : state :=
  State (<[1%nat := plain (<["options" := VUndefined]> (<["cb" := VFun 2]> ∅))]>
          (<[0%nat := plain (<["options" := VUndefined]> (<["cb" := VFun 1]> ∅))]> ∅))
        ∅.

(** An arrow function: it has no [prototype]. *)
Definition arrow : ctor := Ctor "f" "() => 1" None.

(** A class that extends a decorated model and declares nothing itself. *)
Definition Base_prototype : objref := ObjRef 1 None.
Definition Base : ctor := Ctor "Base" "class Base { }" (Some Base_prototype).
Definition Derived : ctor :=
  Ctor "Derived" "class Derived extends Base { }"
       (Some (ObjRef 2 (Some Base_prototype))).

Definition Base_declared : state :=
  final_state (defineModelOptions Base {["name" := VStr "base"]} empty_state).

(** A model with an attribute and an association under the same key. *)
Definition collided : state :=
  final_state
    ((run attr (LAtom (VStr "STRING")) None User_prototype "owner" in
      run attr (LAtom (VStr "INTEGER")) None User_prototype "id" in
      assoc BELONGS_TO (VFun 7) None User_prototype "owner") empty_state).

(** The model of [collided] with another target for the association: a
    deferred one. *)
Definition collided_deferred : state :=
  final_state
    ((run attr (LAtom (VStr "STRING")) None User_prototype "owner" in
      run attr (LAtom (VStr "INTEGER")) None User_prototype "id" in
      assoc BELONGS_TO (VFun 8) None User_prototype "owner") empty_state).

(** A stand-in for [_.camelCase] on an identifier written in PascalCase:
    the first letter in lower case. *)
Definition lower_first (s : string) : string :=
  match s with
  | EmptyString => EmptyString
  | String a r =>
      let n := nat_of_ascii a in
      String (if (65 <=? n)%nat && (n <=? 90)%nat then ascii_of_nat (n + 32) else a) r
  end.

Definition UserAccount : ctor :=
  Ctor "UserAccount" "class UserAccount { }" (Some (ObjRef 3 None)).

(** [@attr(STRING)] on [email]. *)
Definition email_declared : state :=
  final_state (attr (LAtom (VStr "STRING")) None User_prototype "email" empty_state).

(** [@attr(T)] on [id], with an attribute type that is a plain object. *)
Definition typed_id : state :=
  final_state
    (attr (LObj [("type", LAtom (VNum 0))]) None User_prototype "id" empty_state).

(** ** Declarations through the shared merge path *)

(** The body that [defineAttribute] and [defineAssociation] share, for the
    metadata key [mk]. *)
Definition define_merge (mk : string) (t : objref) (key : string) (options : lit)
  : M unit :=
  let* old := Reflect.getMetadata mk (Some t) None in
  let* copy := spread_object old in
  let* object := new_object copy in
  let* source := computed_property key options in
  let* merged := merge object source in
  Reflect.defineMetadata mk (VRef merged) (Some t) None.

(** The flat object literal [{ ... fs, k: v }]. *)
Fixpoint pair_set (k : string) (v : value) (fs : list (string * value))
  : list (string * value) :=
  match fs with
  | [] => [(k, v)]
  | (k', v') :: r =>
      if decide (k' = k) then (k, v) :: r else (k', v') :: pair_set k v r
  end.

(** The operations that only read the registry. *)
Definition is_reader (o : op) : bool :=
  match o with
  | OpHasModelOptions _ | OpGetModelOptions _ | OpGetAssociations _
  | OpGetAttributes _ | OpGetAttributeValidations _ _ | OpGetProperties _ => true
  | _ => false
  end.

(** A computation that writes no metadata and leaves the objects of [D]
    as they are, whether it returns or throws; [post] holds of what it
    returns. *)
Definition reads_only (D : gset loc) {A} (m : M A) (post : A → Prop) : Prop :=
  ∀ s, D ⊆ dom (heap s) →
       D ⊆ dom (heap (final_state (m s)))
       ∧ metadata (final_state (m s)) = metadata s
       ∧ (∀ l, l ∈ D → heap (final_state (m s)) !! l = heap s !! l)
       ∧ match m s with Return a _ => post a | Throw _ _ => True end.

(** What a property of a flat partial leaves under its name in the object
    [o]: a defined value itself; for [undefined] what the object had, and
    [undefined] only where the name is not in the object. *)
Definition assigned (o : object) (k : string) (v : value) : option value :=
  if decide (v = VUndefined)
  then (if obj_in o k then fields o !! k else Some VUndefined)
  else Some v.

(** The decorators that set one flag of an attribute. *)
Inductive flag := ReadOnly | Required | Optional | Primary | Unique.

Definition flag_decorator (f : flag) : objref → string → M unit :=
  match f with
  | ReadOnly => readOnly
  | Required => required
  | Optional => optional
  | Primary => primary
  | Unique => unique
  end.

Definition flag_field (f : flag) : string :=
  match f with
  | ReadOnly => "readOnly"
  | Required | Optional => "optional"
  | Primary => "primary"
  | Unique => "unique"
  end.

Definition flag_value (f : flag) : bool :=
  match f with Required => false | _ => true end.

(** The record a type has under a key for the metadata key [mk]: its
    location and the object there. *)
Definition record_of (s : state) (mk : string) (t : objref) (key : string)
  : option (loc * object) :=
  match meta_fields s mk t !! key with
  | Some (VRef r) => (λ o, (r, o)) <$> heap s !! r
  | _ => None
  end.

(** The key is free, or it has a record: what a declaration finds when
    the registry was filled through the decorators. *)
Definition declarable (s : state) (mk : string) (t : objref) (key : string) : Prop :=
  meta_fields s mk t !! key = None ∨ is_Some (record_of s mk t key).

#[global] Instance declarable_dec s mk t key : Decision (declarable s mk t key).
Proof. unfold declarable. apply _. Defined.

(** The object a flat declaration merges into, and where it is (for a free
    key: the second object the declaration creates). *)
Definition prior_record (s : state) (mk : string) (t : objref) (key : string)
  : object :=
  match record_of s mk t key with
  | Some (_, o) => o
  | None => plain ∅
  end.

Definition record_loc (s : state) (mk : string) (t : objref) (key : string) : loc :=
  match record_of s mk t key with
  | Some (r, _) => r
  | None =>
      fresh (dom (<[fresh (dom (heap s)) := plain (meta_fields s mk t)]> (heap s)))
  end.


(** No validation list is stored, for any object and any property. *)
Definition no_validations (s : state) : Prop :=
  ∀ i pk, metadata s !! (i, pk, ATTR_VALIDATIONS_META_KEY) = None.

(** ** Option trees *)

(** A reference to a heap object, as opposed to a primitive or a
    function. *)
Definition is_ref (v : value) : bool :=
  match v with VRef _ => true | _ => false end.

(** A property name that no object inherits from [Object.prototype]. *)
Definition ordinary (k : string) : Prop := k ∉ Object_prototype_names.

#[global] Instance ordinary_dec k : Decision (ordinary k).
Proof. unfold ordinary. apply _. Defined.

(** An object literal of plain data, as the callers of the decorators
    write it: primitives, functions and nested object literals; the
    property names of each level are distinct and none is the name of a
    member of [Object.prototype]; there is no array and no reference to an
    object that exists already. *)
Fixpoint literal (src : lit) : bool :=
  match src with
  | LAtom v => negb (is_ref v)
  | LObj fs =>
      forallb (λ kv, literal kv.2) fs
      && bool_decide (NoDup fs.*1)
      && bool_decide (Forall ordinary fs.*1)
  | LArr _ => false
  end.

(** The property [k] of the properties [fs]. *)
Fixpoint field (k : string) (fs : list (string * lit)) : option lit :=
  match fs with
  | [] => None
  | (k', t) :: r => if decide (k' = k) then Some t else field k r
  end.

(** [assignMergeValue] read on the properties of a tree: [undefined] is
    written only where there is no property yet. *)
Definition assign_field (k : string) (nv : lit) (os : list (string * lit))
  : list (string * lit) :=
  match nv with
  | LAtom VUndefined =>
      match field k os with Some _ => os | None => lit_set k nv os end
  | _ => lit_set k nv os
  end.

(** The properties of the tree that is there, none when there is no tree
    or a value that is not an object. *)
Definition fields_of (old : option lit) : list (string * lit) :=
  match old with Some (LObj os) => os | _ => [] end.

(** [baseMergeDeep] read on trees: what is there after the literal [src]
    has been merged into [old] ([None]: into nothing). An atom replaces
    what was there; an object literal is merged property by property into
    the object that was there, or into a new one. *)
Fixpoint merged (src : lit) (old : option lit) : lit :=
  match src with
  | LObj fs =>
      LObj ((fix each (fs os : list (string * lit)) :=
               match fs with
               | [] => os
               | (k, s) :: r => each r (assign_field k (merged s (field k os)) os)
               end) fs (fields_of old))
  | _ => src
  end.

(** [baseMerge] read on trees: the loop of [merged]. *)
Fixpoint merge_fields (fs os : list (string * lit)) : list (string * lit) :=
  match fs with
  | [] => os
  | (k, s) :: r => merge_fields r (assign_field k (merged s (field k os)) os)
  end.

(** One property after a merge, from what the partial gives for it ([p])
    and what was there ([o]): an absent property is kept, [undefined] keeps
    what was there, anything else is merged in and wins. *)
Definition merged_field (p o : option lit) : option lit :=
  match p with
  | None => o
  | Some (LAtom VUndefined) => Some (default (LAtom VUndefined) o)
  | Some s => Some (merged s o)
  end.

(** The value [v] is the tree [t] in the heap [h], held by the objects
    [F]: an atom is itself; an object of the tree is a plain object whose
    own properties are exactly those of the tree, and no object is reached
    twice. *)
Inductive repr (h : gmap loc object) : value → lit → gset loc → Prop :=
| repr_atom v : is_ref v = false → repr h v (LAtom v) ∅
| repr_obj l o ts F F' :
    h !! l = Some o → kind o = KPlain →
    repr_fields h (fields o) ts F → l ∉ F → F' = {[l]} ∪ F →
    repr h (VRef l) (LObj ts) F'
with repr_fields (h : gmap loc object)
  : gmap string value → list (string * lit) → gset loc → Prop :=
| repr_nil m : m = ∅ → repr_fields h m [] ∅
| repr_cons m k v t ts F1 F2 F :
    m !! k = Some v → repr h v t F1 → repr_fields h (delete k m) ts F2 →
    F1 ## F2 → F = F1 ∪ F2 →
    repr_fields h m ((k, t) :: ts) F.

Scheme repr_min := Minimality for repr Sort Prop
  with repr_fields_min := Minimality for repr_fields Sort Prop.
Combined Scheme repr_mutind from repr_min, repr_fields_min.

(** What [baseMergeDeep] finds under a property: nothing ([undefined]), or
    a value that is a tree. *)
Definition old_repr (h : gmap loc object) (ov : value) (told : option lit)
    (F : gset loc) : Prop :=
  match told with
  | None => ov = VUndefined ∧ F = ∅
  | Some t => repr h ov t F
  end.

(** [baseMergeDeep] on a literal follows [merged]: the value it returns is
    the merged tree, held by objects of the earlier tree and new ones, and
    the objects outside the earlier tree are as they were. *)
Definition merge_spec (src : lit) : Prop :=
  ∀ h ov told F,
    literal src = true → old_repr h ov told F →
    ∃ F',
      repr (baseMergeDeep src ov h).2 (baseMergeDeep src ov h).1 (merged src told) F'
      ∧ (∀ l, l ∈ F' → l ∈ F ∨ l ∉ dom h)
      ∧ (∀ l, l ∈ dom h → l ∉ F → (baseMergeDeep src ov h).2 !! l = h !! l)
      ∧ dom h ⊆ dom (baseMergeDeep src ov h).2.

(** What a type has under a key: nothing ([None]), or a record that is the
    tree [T], held by the objects [F]. *)
Definition declared (s : state) (mk : string) (t : objref) (key : string)
    (old : option lit) (F : gset loc) : Prop :=
  match old with
  | None => meta_fields s mk t !! key = None ∧ F = ∅
  | Some T =>
      ∃ r, meta_fields s mk t !! key = Some (VRef r) ∧ repr (heap s) (VRef r) T F
  end.

(** * Properties *)

(** ** Heap and array facts *)

Lemma alloc_in_fresh (o : object) (h : gmap loc object) :
  (alloc_in o h).1 ∉ dom h.
Proof. apply is_fresh. Qed.

Lemma alloc_in_lookup_new (o : object) (h : gmap loc object) :
  (alloc_in o h).2 !! (alloc_in o h).1 = Some o.
Proof. apply lookup_insert_eq. Qed.

Lemma alloc_in_lookup_old (o : object) (h : gmap loc object) (l : loc) :
  l ∈ dom h → (alloc_in o h).2 !! l = h !! l.
Proof.
  intros Hl. unfold alloc_in; simpl. apply lookup_insert_ne.
  intros <-. by apply (is_fresh (dom h)).
Qed.

Lemma index_fields_lookup_from (f : nat → string) (vs : list value) (i : nat) :
  Inj (=) (=) f →
  (list_to_map (imap (λ j v, (f j, v)) vs) : gmap string value) !! f i = vs !! i.
Proof.
  intros Hf. revert f Hf i. induction vs as [|v vs IH]; intros f Hf i.
  - done.
  - simpl. destruct i as [|i].
    + by rewrite lookup_insert_eq.
    + rewrite lookup_insert_ne by (intros E; by apply Hf in E).
      apply (IH (f ∘ S)). intros x y E. apply Hf in E. congruence.
Qed.

Lemma index_fields_lookup (vs : list value) (i : nat) :
  index_fields vs !! pretty i = vs !! i.
Proof. apply (index_fields_lookup_from pretty), _. Qed.

(** Reading back the elements of an array literal gives the list it was
    built from. *)
Lemma array_elems_array_of (vs : list value) : array_elems (array_of vs) = vs.
Proof.
  unfold array_elems, array_of, obj_get; simpl.
  apply list_eq; intros i. rewrite list_lookup_fmap.
  destruct (decide (i < length vs)) as [Hi|Hi].
  - rewrite lookup_seq_lt by done. simpl. rewrite index_fields_lookup.
    destruct (lookup_lt_is_Some_2 vs i Hi) as [v Hv]. by rewrite Hv.
  - rewrite lookup_seq_ge by lia. simpl. symmetry. apply lookup_ge_None. lia.
Qed.

(** ** Validations: [getAttributeValidations], [defineAttributeValidation] *)

(** Where the validation list of [(target, key)] exists as an array,
    [getAttributeValidations] copies it in order. *)
Lemma getAttributeValidations_declared (c : ctor) (o : objref) (key : string)
    (s : state) (l : loc) (a : object) :
  prototype c = Some o →
  Reflect.OrdinaryGetMetadata ATTR_VALIDATIONS_META_KEY o (Some key) (metadata s)
    = VRef l →
  heap s !! l = Some a →
  kind a = KArray →
  ∃ r s', getAttributeValidations c key s = Return r s'
          ∧ metadata s' = metadata s
          ∧ heap s' !! r = Some (array_of (array_elems a))
          ∧ r ∉ dom (heap s).
Proof.
  intros Hp Hm Hl Hk.
  unfold getAttributeValidations, bind, Reflect.getMetadata, spread_array,
    new_array, alloc.
  rewrite Hp, Hm. simpl. rewrite Hl, Hk. simpl.
  eexists _, _. split; [reflexivity|]. simpl.
  split; [done|]. split; [apply lookup_insert_eq | apply is_fresh].
Qed.

(** Where the list exists, [defineAttributeValidation] stores a new array
    with the entry after all earlier ones. *)
Lemma defineAttributeValidation_appends (t : objref) (key : string)
    (v : value) (s : state) (l : loc) (a : object) :
  Reflect.OrdinaryGetMetadata ATTR_VALIDATIONS_META_KEY t (Some key) (metadata s)
    = VRef l →
  heap s !! l = Some a →
  kind a = KArray →
  ∃ r s', defineAttributeValidation t key v s = Return tt s'
          ∧ metadata s' !! (oid_of t, Some key, ATTR_VALIDATIONS_META_KEY)
              = Some (VRef r)
          ∧ heap s' !! r = Some (array_of (array_elems a ++ [v])).
Proof.
  intros Hm Hl Hk.
  unfold defineAttributeValidation, bind, Reflect.getMetadata, spread_array,
    new_array, alloc, Reflect.defineMetadata.
  rewrite Hm. simpl. rewrite Hl, Hk. simpl.
  eexists _, _. split; [reflexivity|]. simpl.
  split; apply lookup_insert_eq.
Qed.

(** Without a stored list [Reflect.getMetadata] gives [undefined], and
    spreading [undefined] into an array literal throws. *)
Lemma getAttributeValidations_undeclared (c : ctor) (o : objref)
    (key : string) (s : state) :
  prototype c = Some o →
  Reflect.OrdinaryGetMetadata ATTR_VALIDATIONS_META_KEY o (Some key) (metadata s)
    = VUndefined →
  getAttributeValidations c key s = Throw TypeError s.
Proof.
  intros Hp Hm.
  unfold getAttributeValidations, bind, Reflect.getMetadata, spread_array.
  by rewrite Hp, Hm.
Qed.

Lemma defineAttributeValidation_undeclared (t : objref) (key : string)
    (v : value) (s : state) :
  Reflect.OrdinaryGetMetadata ATTR_VALIDATIONS_META_KEY t (Some key) (metadata s)
    = VUndefined →
  defineAttributeValidation t key v s = Throw TypeError s.
Proof.
  intros Hm.
  unfold defineAttributeValidation, bind, Reflect.getMetadata, spread_array.
  by rewrite Hm.
Qed.

(** C1 (the code departs from the claim): on a model for which no
    validation was declared under ["email"], [getAttributeValidations]
    raises a TypeError instead of returning an empty list. *)
Theorem getAttributeValidations_empty_throws :
  getAttributeValidations User "email" empty_state = Throw TypeError empty_state.
Proof. reflexivity. Qed.

(** C2 (the code departs from the claim): the very first
    [defineAttributeValidation] for a (type, key) raises a TypeError and
    stores nothing, so declaring V1 and then V2 never builds [V1, V2]. *)
Theorem defineAttributeValidation_first_throws :
  let V1 := VRef 0 in
  let V2 := VRef 1 in
  defineAttributeValidation User_prototype "email" V1 two_entries
    = Throw TypeError two_entries
  ∧ (run defineAttributeValidation User_prototype "email" V1 in
     defineAttributeValidation User_prototype "email" V2) two_entries
    = Throw TypeError two_entries
  ∧ (run try_catch (defineAttributeValidation User_prototype "email" V1) (ret tt) in
     defineAttributeValidation User_prototype "email" V2) two_entries
    = Throw TypeError two_entries.
Proof. repeat split; reflexivity. Qed.

(** ** The prototype chain *)

Lemma objref_chain_ind (P : objref → Prop) :
  (∀ i, P (ObjRef i None)) →
  (∀ i o, P o → P (ObjRef i (Some o))) →
  ∀ o, P o.
Proof.
  intros H0 H1. fix IH 1. intros [i [o|]].
  - apply H1, IH.
  - apply H0.
Qed.

Lemma OrdinaryGetMetadata_own mk o pk md v :
  md !! (oid_of o, pk, mk) = Some v →
  Reflect.OrdinaryGetMetadata mk o pk md = v.
Proof. destruct o as [i p]; simpl. by intros ->. Qed.

Lemma OrdinaryHasMetadata_own mk o pk md :
  is_Some (md !! (oid_of o, pk, mk)) →
  Reflect.OrdinaryHasMetadata mk o pk md = true.
Proof. destruct o as [i p]; simpl. by intros [v ->]. Qed.

Lemma OrdinaryGetMetadata_absent mk o pk md :
  (∀ i, i ∈ chain o → md !! (i, pk, mk) = None) →
  Reflect.OrdinaryGetMetadata mk o pk md = VUndefined.
Proof.
  induction o as [i|i o IH] using objref_chain_ind; simpl; intros H.
  - by rewrite H by set_solver.
  - rewrite H by set_solver. apply IH. intros j Hj. apply H. set_solver.
Qed.

Lemma OrdinaryHasMetadata_absent mk o pk md :
  (∀ i, i ∈ chain o → md !! (i, pk, mk) = None) →
  Reflect.OrdinaryHasMetadata mk o pk md = false.
Proof.
  induction o as [i|i o IH] using objref_chain_ind; simpl; intros H.
  - by rewrite H by set_solver.
  - rewrite H by set_solver. apply IH. intros j Hj. apply H. set_solver.
Qed.

(** A metadata entry, once present on the chain, stays visible when the
    table only gains or replaces entries. *)
Lemma OrdinaryHasMetadata_mono mk o pk md md' :
  (∀ k, is_Some (md !! k) → is_Some (md' !! k)) →
  Reflect.OrdinaryHasMetadata mk o pk md = true →
  Reflect.OrdinaryHasMetadata mk o pk md' = true.
Proof.
  intros Hsub.
  induction o as [i|i o IH] using objref_chain_ind; simpl.
  - destruct (md !! (i, pk, mk)) eqn:E; [|done].
    destruct (Hsub (i, pk, mk)) as [v' ->]; by eauto.
  - destruct (md !! (i, pk, mk)) eqn:E.
    + destruct (Hsub (i, pk, mk)) as [v' ->]; by eauto.
    + intros H. destruct (md' !! (i, pk, mk)); [done|]. by apply IH.
Qed.

Lemma fresh_ne (h : gmap loc object) (l : loc) :
  l ∈ dom h → fresh (dom h) ≠ l.
Proof. intros Hl <-. by apply (is_fresh (dom h)). Qed.

Lemma dom_insert_old (h : gmap loc object) (l x : loc) (o : object) :
  x ∈ dom h → x ∈ dom (<[l := o]> h).
Proof. rewrite dom_insert_L. set_solver. Qed.

Lemma dom_insert_new (h : gmap loc object) (l : loc) (o : object) :
  l ∈ dom (<[l := o]> h).
Proof. rewrite dom_insert_L. set_solver. Qed.

Lemma fresh_ne' (h : gmap loc object) (l : loc) :
  l ∈ dom h → l ≠ fresh (dom h).
Proof. intros Hl ->. by apply (is_fresh (dom h)). Qed.

(** ** The resolver loops *)

Lemma get_prop_type (options : value) (s : state) :
  nullish options = false →
  get_prop options "type" s = Return (type_of (heap s) options) s.
Proof. by destruct options. Qed.

Lemma type_of_frame (h h' : gmap loc object) (v : value) :
  (∀ l, v = VRef l → h' !! l = h !! l) →
  type_of h' v = type_of h v.
Proof.
  destruct v; simpl; try done. intros H. unfold heap_get. by rewrite H.
Qed.

Section ResolveEach.

Variable cls : string.
Variable new_C : value → string → M loc.
Hypothesis new_C_alloc : ∀ ty k, new_C ty k = alloc (instance cls ty k).

Variables props from : loc.
Variable ofrom : object.
Hypothesis props_from : props ≠ from.

Lemma resolve_each_spec (keys : list string) :
  ∀ (s : state) (oprops : object),
    heap s !! from = Some ofrom →
    heap s !! props = Some oprops →
    (∀ k l, fields ofrom !! k = Some (VRef l) → l ∈ dom (heap s) ∧ l ≠ props) →
    (∀ k, k ∈ keys → nullish (obj_get ofrom k) = false) →
    ∃ s' oprops',
      resolve_each new_C props from keys s = Return tt s'
      ∧ metadata s' = metadata s
      ∧ (∀ l, l ∈ dom (heap s) → l ≠ props → heap s' !! l = heap s !! l)
      ∧ heap s' !! props = Some oprops'
      ∧ kind oprops' = kind oprops
      ∧ (kind oprops ≠ KArray → alen oprops' = alen oprops)
      ∧ (∀ k, k ∉ keys → fields oprops' !! k = fields oprops !! k)
      ∧ (∀ k, k ∈ keys →
           ∃ q, fields oprops' !! k = Some (VRef q)
                ∧ (q ∉ dom (heap s))
                ∧ heap s' !! q
                  = Some (instance cls (type_of (heap s) (obj_get ofrom k)) k)).
Proof.
  induction keys as [|key rest IH]; intros s oprops Hfrom Hprops Hrefs Hnn.
  - exists s, oprops. repeat split; try done. intros k Hk. by apply elem_of_nil in Hk.
  - simpl. unfold bind at 1. unfold get_prop at 1. unfold heap_get. rewrite Hfrom.
    unfold bind at 1. rewrite get_prop_type by (apply Hnn, elem_of_cons; by left).
    unfold bind at 1. rewrite new_C_alloc. unfold alloc, alloc_in. simpl.
    unfold bind at 1. unfold set_prop at 1. simpl.
    set (ty := type_of (heap s) (obj_get ofrom key)).
    set (q := fresh (dom (heap s))).
    set (h1 := <[q := instance cls ty key]> (heap s)).
    set (s2 := State (heap_set props key (VRef q) h1) (metadata s)).
    assert (Hq : q ∉ dom (heap s)) by apply is_fresh.
    assert (Hqp : q ≠ props).
    { intros ->. apply Hq. apply elem_of_dom. eauto. }
    assert (Hqf : q ≠ from).
    { intros ->. apply Hq. apply elem_of_dom. eauto. }
    assert (Hold : ∀ l, l ≠ props → l ≠ q → heap s2 !! l = heap s !! l).
    { intros l H1 H2. simpl. unfold heap_set, h1.
      rewrite lookup_alter_ne by done. by rewrite lookup_insert_ne. }
    assert (Hq2 : heap s2 !! q = Some (instance cls ty key)).
    { simpl. unfold heap_set, h1.
      rewrite lookup_alter_ne by done. by rewrite lookup_insert_eq. }
    assert (Hp2 : heap s2 !! props = Some (obj_set key (VRef q) oprops)).
    { simpl. unfold heap_set, h1. rewrite lookup_alter_eq.
      rewrite lookup_insert_ne by done. by rewrite Hprops. }
    assert (Hdom : ∀ l, l ∈ dom (heap s) → l ∈ dom (heap s2)).
    { intros l Hl. destruct (decide (l = props)) as [->|Hn].
      - apply elem_of_dom. eauto.
      - apply elem_of_dom. rewrite Hold; [by apply elem_of_dom|done|].
        intros ->. done. }
    destruct (IH s2 (obj_set key (VRef q) oprops)) as
      (s' & oprops' & Hrun & Hmd & Hframe & Hp' & Hkind & Hlen & Hkeep & Hnew).
    { rewrite Hold; done. }
    { done. }
    { intros k l Hk. destruct (Hrefs k l Hk) as [H1 H2]. split; [|done].
      by apply Hdom. }
    { intros k Hk. apply Hnn, elem_of_cons. by right. }
    exists s', oprops'. split; [exact Hrun|].
    split; [by rewrite Hmd|].
    split.
    { intros l Hl Hn. rewrite Hframe; [|by apply Hdom|done].
      apply Hold; [done|]. intros ->. done. }
    split; [done|]. split; [by rewrite Hkind|]. split.
    { intros Hk. rewrite Hlen by done. simpl.
      destruct (kind oprops); try done. }
    split.
    { intros k Hk. apply not_elem_of_cons in Hk as [Hk1 Hk2].
      rewrite Hkeep by done. simpl. by apply lookup_insert_ne. }
    intros k Hk. destruct (decide (k ∈ rest)) as [Hin|Hnin].
    + destruct (Hnew k Hin) as (q' & Hf & Hq' & Hobj).
      exists q'. split; [done|]. split.
      { intros Hc. apply Hq'. by apply Hdom. }
      rewrite Hobj. f_equal. f_equal. apply type_of_frame.
      intros l Hl. unfold obj_get in Hl.
      destruct (fields ofrom !! k) as [v|] eqn:E; simpl in Hl; [|done].
      subst v. destruct (Hrefs k l E) as [H1 H2].
      apply Hold; [done|]. intros ->. done.
    + apply elem_of_cons in Hk as [->|Hk]; [|done].
      exists q. split.
      { rewrite Hkeep by done. simpl. apply lookup_insert_eq. }
      split; [done|].
      rewrite Hframe; [done| |done]. apply elem_of_dom. eauto.
Qed.

End ResolveEach.

(** ** [getProperties] *)

Lemma spread_fields_frame (h h' : gmap loc object) (v : value) :
  (∀ l, v = VRef l → h' !! l = h !! l) →
  spread_fields h' v = spread_fields h v.
Proof. destruct v; simpl; try done. intros H. by rewrite H. Qed.

Lemma elem_of_keys (m : gmap string value) (k : string) :
  k ∈ (map_to_list m).*1 ↔ is_Some (m !! k).
Proof.
  rewrite list_elem_of_fmap. split.
  - intros [[k' v] [-> H]]. apply elem_of_map_to_list in H. eauto.
  - intros [v H]. exists (k, v). split; [done|]. by apply elem_of_map_to_list.
Qed.

Section GetProperties.

Variables (c : ctor) (o : objref) (s : state).
Hypothesis Hproto : prototype c = Some o.

Let A := meta_fields s MODEL_ATTRS_META_KEY o.
Let B := meta_fields s MODEL_ASSOCS_META_KEY o.

Hypothesis Hma : value_closed (dom (heap s)) (meta_value s MODEL_ATTRS_META_KEY o).
Hypothesis Hmb : value_closed (dom (heap s)) (meta_value s MODEL_ASSOCS_META_KEY o).
Hypothesis HA : ∀ k v, A !! k = Some v →
                       nullish v = false ∧ value_closed (dom (heap s)) v.
Hypothesis HB : ∀ k v, B !! k = Some v →
                       nullish v = false ∧ value_closed (dom (heap s)) v.

Lemma getProperties_spec :
  ∃ p s' op,
    getProperties c s = Return p s'
    ∧ metadata s' = metadata s
    ∧ (p ∉ dom (heap s))
    ∧ (∀ l, l ∈ dom (heap s) → heap s' !! l = heap s !! l)
    ∧ heap s' !! p = Some op
    ∧ kind op = KPlain ∧ alen op = 0%nat
    ∧ (∀ k, A !! k = None → B !! k = None → fields op !! k = None)
    ∧ (∀ k v, B !! k = Some v →
         ∃ q, fields op !! k = Some (VRef q)
              ∧ (q ∉ dom (heap s))
              ∧ heap s' !! q
                = Some (instance Association_class (type_of (heap s) v) k))
    ∧ (∀ k v, A !! k = Some v → B !! k = None →
         ∃ q, fields op !! k = Some (VRef q)
              ∧ (q ∉ dom (heap s))
              ∧ heap s' !! q
                = Some (instance Attribute_class (type_of (heap s) v) k)).
Proof.
  unfold getProperties, new_object, alloc, alloc_in.
  unfold bind at 1. simpl.
  set (p := fresh (dom (heap s))).
  set (h1 := <[p := plain ∅]> (heap s)).
  assert (Hp : p ∉ dom (heap s)) by apply is_fresh.
  unfold bind at 1. unfold getAttributes at 1, Reflect.getMetadata, spread_object,
    new_object, alloc, alloc_in.
  unfold bind at 1 2. rewrite Hproto. simpl.
  fold (meta_value s MODEL_ATTRS_META_KEY o).
  assert (EA : spread_fields h1 (meta_value s MODEL_ATTRS_META_KEY o) = A).
  { apply spread_fields_frame. intros l Hl. unfold h1.
    apply lookup_insert_ne. intros <-. rewrite Hl in Hma. by apply Hp. }
  rewrite EA.
  set (la := fresh (dom h1)).
  set (h2 := <[la := plain A]> h1).
  assert (Hla : la ∉ dom h1) by apply is_fresh.
  assert (Hd1 : ∀ l, l ∈ dom (heap s) → l ∈ dom h1).
  { intros l Hl. by apply dom_insert_old. }
  assert (Hp1 : p ∈ dom h1) by apply dom_insert_new.
  unfold bind at 1. unfold getAssociations at 1, Reflect.getMetadata,
    spread_object, new_object, alloc, alloc_in.
  unfold bind at 1 2. rewrite Hproto. simpl.
  fold (meta_value s MODEL_ASSOCS_META_KEY o).
  assert (EB : spread_fields h2 (meta_value s MODEL_ASSOCS_META_KEY o) = B).
  { apply spread_fields_frame. intros l Hl. rewrite Hl in Hmb. simpl in Hmb.
    unfold h2, h1.
    rewrite lookup_insert_ne by (intros <-; by apply Hla, Hd1).
    apply lookup_insert_ne. intros <-. by apply Hp. }
  rewrite EB.
  set (lb := fresh (dom h2)).
  set (h3 := <[lb := plain B]> h2).
  assert (Hlb : lb ∉ dom h2) by apply is_fresh.
  assert (Hd2 : ∀ l, l ∈ dom h1 → l ∈ dom h2).
  { intros l Hl. by apply dom_insert_old. }
  assert (Hla2 : la ∈ dom h2) by apply dom_insert_new.
  assert (Hd3 : ∀ l, l ∈ dom h2 → l ∈ dom h3).
  { intros l Hl. by apply dom_insert_old. }
  assert (Hpla : p ≠ la) by (intros E; apply Hla; by rewrite <- E).
  assert (Hplb : p ≠ lb) by (intros E; apply Hlb; rewrite <- E; by apply Hd2).
  assert (Hlalb : la ≠ lb) by (intros E; apply Hlb; by rewrite <- E).
  assert (H3la : h3 !! la = Some (plain A)).
  { unfold h3, h2. rewrite lookup_insert_ne by done. apply lookup_insert_eq. }
  assert (H3lb : h3 !! lb = Some (plain B)) by apply lookup_insert_eq.
  assert (H3p : h3 !! p = Some (plain ∅)).
  { unfold h3, h2, h1. rewrite !lookup_insert_ne by done. apply lookup_insert_eq. }
  assert (H3old : ∀ l, l ∈ dom (heap s) → h3 !! l = heap s !! l).
  { intros l Hl. unfold h3, h2, h1.
    rewrite lookup_insert_ne by (intros <-; by apply Hlb, Hd2, Hd1).
    rewrite lookup_insert_ne by (intros <-; by apply Hla, Hd1).
    apply lookup_insert_ne. intros <-. by apply Hp. }
  unfold bind at 1. unfold Object_keys at 1. simpl. rewrite H3la. simpl.
  unfold bind at 1.
  destruct (resolve_each_spec Attribute_class new_Attribute
              (λ _ _, eq_refl) p la (plain A) Hpla (map_to_list A).*1
              (State h3 (metadata s)) (plain ∅))
    as (s4 & op4 & Hrun4 & Hmd4 & Hfr4 & Hp4 & Hk4 & Hl4 & Hkeep4 & Hnew4);
    [done|done| | |].
  { intros k l Hk. simpl in Hk. destruct (HA k _ Hk) as [_ Hc]. simpl in Hc.
    split; [by apply Hd3, Hd2, Hd1|]. intros ->. by apply Hp. }
  { intros k Hk. apply elem_of_keys in Hk as [v Hv].
    unfold obj_get. simpl. rewrite Hv. simpl. by apply (HA k). }
  rewrite Hrun4.
  assert (H4lb : heap s4 !! lb = Some (plain B)).
  { rewrite Hfr4; [done| |by apply not_eq_sym].
    apply elem_of_dom. simpl. rewrite H3lb. eauto. }
  assert (Hd4 : ∀ l, l ∈ dom h3 → l ∈ dom (heap s4)).
  { intros l Hl. destruct (decide (l = p)) as [->|Hn].
    - apply elem_of_dom. eauto.
    - apply elem_of_dom. rewrite Hfr4 by done. by apply elem_of_dom. }
  unfold bind at 1. unfold Object_keys at 1. rewrite H4lb. simpl.
  unfold bind at 1.
  destruct (resolve_each_spec Association_class new_Association
              (λ _ _, eq_refl) p lb (plain B) Hplb (map_to_list B).*1
              s4 op4)
    as (s5 & op5 & Hrun5 & Hmd5 & Hfr5 & Hp5 & Hk5 & Hl5 & Hkeep5 & Hnew5);
    [done|done| | |].
  { intros k l Hk. simpl in Hk. destruct (HB k _ Hk) as [_ Hc]. simpl in Hc.
    split; [by apply Hd4, Hd3, Hd2, Hd1|]. intros ->. by apply Hp. }
  { intros k Hk. apply elem_of_keys in Hk as [v Hv].
    unfold obj_get. simpl. rewrite Hv. simpl. by apply (HB k). }
  rewrite Hrun5. unfold ret.
  assert (Hold : ∀ l, l ∈ dom (heap s) → heap s5 !! l = heap s !! l).
  { intros l Hl.
    assert (l ≠ p) by (intros ->; by apply Hp).
    rewrite Hfr5 by (try done; by apply Hd4, Hd3, Hd2, Hd1).
    rewrite Hfr4 by (try done; by apply Hd3, Hd2, Hd1).
    by apply H3old. }
  assert (Hty : ∀ (m : gmap string value) k v,
             (∀ k v, m !! k = Some v → nullish v = false ∧ value_closed (dom (heap s)) v) →
             m !! k = Some v →
             ∀ h', (∀ l, l ∈ dom (heap s) → h' !! l = heap s !! l) →
             type_of h' (obj_get (plain m) k) = type_of (heap s) v).
  { intros m k v Hm Hv h' Hh'. unfold obj_get. simpl. rewrite Hv. simpl.
    apply type_of_frame. intros l ->. apply Hh'.
    destruct (Hm k _ Hv) as [_ Hc]. exact Hc. }
  exists p, s5, op5. split; [reflexivity|].
  split; [by rewrite Hmd5, Hmd4|]. split; [done|]. split; [done|].
  split; [done|]. split; [by rewrite Hk5, Hk4|].
  split.
  { rewrite Hl5, Hl4; [done|done|]. by rewrite Hk4. }
  split.
  { intros k HAk HBk.
    rewrite Hkeep5 by (rewrite elem_of_keys, HBk; by intros [? ?]).
    rewrite Hkeep4 by (rewrite elem_of_keys, HAk; by intros [? ?]).
    done. }
  split.
  { intros k v Hv.
    destruct (Hnew5 k) as (q & Hq1 & Hq2 & Hq3); [apply elem_of_keys; eauto|].
    exists q. split; [done|]. split.
    { intros Hc. by apply Hq2, Hd4, Hd3, Hd2, Hd1. }
    rewrite Hq3. f_equal. f_equal. apply (Hty B); [done|done|].
    intros l Hl. assert (l ≠ p) by (intros ->; by apply Hp).
    rewrite Hfr4 by (try done; by apply Hd3, Hd2, Hd1). by apply H3old. }
  intros k v Hv HBk.
  destruct (Hnew4 k) as (q & Hq1 & Hq2 & Hq3); [apply elem_of_keys; eauto|].
  exists q. split.
  { rewrite Hkeep5 by (rewrite elem_of_keys, HBk; by intros [? ?]). done. }
  split.
  { intros Hc. by apply Hq2, Hd3, Hd2, Hd1. }
  rewrite Hfr5.
  - rewrite Hq3. f_equal. f_equal. by apply (Hty A).
  - apply elem_of_dom. eauto.
  - intros ->. apply Hq2. apply elem_of_dom. eauto.
Qed.

End GetProperties.

Lemma getProperties_resolvable (c : ctor) (o : objref) (s : state) :
  prototype c = Some o →
  resolvable s o →
  ∃ p s' op,
    getProperties c s = Return p s'
    ∧ metadata s' = metadata s
    ∧ (p ∉ dom (heap s))
    ∧ (∀ l, l ∈ dom (heap s) → heap s' !! l = heap s !! l)
    ∧ heap s' !! p = Some op
    ∧ kind op = KPlain ∧ alen op = 0%nat
    ∧ (∀ k, meta_fields s MODEL_ATTRS_META_KEY o !! k = None →
            meta_fields s MODEL_ASSOCS_META_KEY o !! k = None →
            fields op !! k = None)
    ∧ (∀ k v, meta_fields s MODEL_ASSOCS_META_KEY o !! k = Some v →
         ∃ q, fields op !! k = Some (VRef q)
              ∧ (q ∉ dom (heap s))
              ∧ heap s' !! q
                = Some (instance Association_class (type_of (heap s) v) k))
    ∧ (∀ k v, meta_fields s MODEL_ATTRS_META_KEY o !! k = Some v →
              meta_fields s MODEL_ASSOCS_META_KEY o !! k = None →
         ∃ q, fields op !! k = Some (VRef q)
              ∧ (q ∉ dom (heap s))
              ∧ heap s' !! q
                = Some (instance Attribute_class (type_of (heap s) v) k)).
Proof.
  intros Hp (Hma & Hmb & HA & HB).
  by apply getProperties_spec.
Qed.

(** ** Reads on an undeclared type *)

(** C3, as stated, fails: on a function without a prototype object, on
    which nothing was ever declared, [getModelOptions] and [getProperties]
    raise the TypeError of [Reflect.getMetadata]; only [hasModelOptions]
    catches it. *)
Lemma undeclared_reads_can_throw :
  ¬ (∀ c s, never_declared s c →
            getProperties_empty c s ∧ getModelOptions_empty c s
            ∧ hasModelOptions c s = Return false s).
Proof.
  intros H. destruct (H arrow empty_state I) as (_ & (l & s' & Hg & _) & _).
  discriminate Hg.
Qed.

(** A second way in which the unrestricted statement fails: declarations
    are inherited along the prototype chain. *)
Lemma undeclared_subclass_inherits :
  never_declared Base_declared Derived
  ∧ hasModelOptions Derived Base_declared = Return true Base_declared.
Proof.
  split; [|reflexivity].
  intros pk mk. change (metadata Base_declared)
    with (<[(1%nat, None, MODEL_OPTIONS_META_KEY) := VRef 0]>
            (∅ : gmap (nat * option string * string) value)).
  rewrite lookup_insert_ne by (intros [=]). apply lookup_empty.
Qed.

(** C3 (amended): when nothing was declared on the prototype of a type nor
    on its prototype chain, [hasModelOptions] returns false, without
    raising even for a type that has no prototype object; for a type that
    has a prototype object, [getProperties] returns an empty mapping and
    [getModelOptions] an empty record. *)
Theorem undeclared_reads_empty (c : ctor) (s : state) :
  nothing_inherited s c →
  hasModelOptions c s = Return false s
  ∧ (is_Some (prototype c) →
     getProperties_empty c s ∧ getModelOptions_empty c s).
Proof.
  intros Hn. split.
  - unfold hasModelOptions, try_catch, Reflect.hasMetadata, ret.
    destruct (prototype c) as [o|] eqn:Hp; [|done].
    rewrite OrdinaryHasMetadata_absent; [done|]. intros i Hi. by apply (Hn o).
  - intros [o Hp].
    assert (Hu : ∀ mk, meta_value s mk o = VUndefined).
    { intros mk. apply OrdinaryGetMetadata_absent. intros i Hi. by apply (Hn o). }
    split.
    + destruct (getProperties_resolvable c o s Hp) as
        (p & s' & op & Hrun & _ & _ & _ & Hop & Hk & Hl & Hnone & _).
      { unfold resolvable, meta_fields. rewrite !Hu. simpl.
        split; [done|]. split; [done|]. split; apply map_Forall_empty. }
      exists p, s'. split; [done|]. rewrite Hop. f_equal.
      destruct op as [kd fs n]. simpl in *. subst. unfold plain. f_equal.
      apply map_eq. intros k. rewrite lookup_empty. apply Hnone.
      all: unfold meta_fields; rewrite Hu; apply lookup_empty.
    + unfold getModelOptions_empty, getModelOptions, bind, Reflect.getMetadata,
        spread_object, new_object, alloc, alloc_in.
      rewrite Hp. fold (meta_value s MODEL_OPTIONS_META_KEY o). rewrite Hu. simpl.
      eexists _, _. split; [reflexivity|]. apply lookup_insert_eq.
Qed.

Lemma undeclared_reads_empty_witness :
  hasModelOptions Derived empty_state = Return false empty_state
  ∧ (is_Some (prototype Derived) →
     getProperties_empty Derived empty_state
     ∧ getModelOptions_empty Derived empty_state).
Proof.
  apply (undeclared_reads_empty Derived empty_state).
  intros o Ho i pk mk Hi. reflexivity.
Defined.

(** ** What [getProperties] stores under a key *)





(** ** Relations kept by every operation *)

(** Relations between the state before and after a computation that hold
    of every primitive compose along [bind]. *)
Section Preserves.

Variable R : relation state.
Context `{!PreOrder R}.

Definition preserves {A} (m : M A) : Prop :=
  ∀ s, R s (final_state (m s)).

Lemma preserves_ret {A} (a : A) : preserves (ret a).
Proof. intros s. reflexivity. Qed.

Lemma preserves_throw {A} (e : exn) : preserves (@throw A e).
Proof. intros s. reflexivity. Qed.

Lemma preserves_bind {A B} (m : M A) (k : A → M B) :
  preserves m → (∀ a, preserves (k a)) → preserves (bind m k).
Proof.
  intros Hm Hk s. unfold bind. specialize (Hm s).
  destruct (m s) as [a s'|e s']; simpl in *; [|done].
  etrans; [exact Hm|]. apply Hk.
Qed.

Lemma preserves_try_catch {A} (m h : M A) :
  preserves m → preserves h → preserves (try_catch m h).
Proof.
  intros Hm Hh s. unfold try_catch. specialize (Hm s).
  destruct (m s) as [a s'|e s']; simpl in *; [done|].
  etrans; [exact Hm|]. apply Hh.
Qed.

(** A computation that leaves the metadata table alone. *)
Hypothesis heap_only : ∀ s h, R s (State h (metadata s)).
Hypothesis define : ∀ s k v, R s (State (heap s) (<[k := v]> (metadata s))).

Lemma preserves_same_metadata {A} (m : M A) :
  (∀ s, metadata (final_state (m s)) = metadata s) → preserves m.
Proof.
  intros H s. specialize (H s). destruct (final_state (m s)) as [h md].
  simpl in H. subst md. apply heap_only.
Qed.

Lemma preserves_get_prop v k : preserves (get_prop v k).
Proof. apply preserves_same_metadata. intros s. by destruct v. Qed.

Lemma preserves_resolve_each new_C props from keys :
  (∀ ty k, preserves (new_C ty k)) →
  preserves (resolve_each new_C props from keys).
Proof.
  intros Hnew. induction keys as [|key rest IH]; simpl.
  - apply preserves_ret.
  - apply preserves_bind; [apply preserves_get_prop|intros ?].
    apply preserves_bind; [apply preserves_get_prop|intros ?].
    apply preserves_bind; [apply Hnew|intros ?].
    apply preserves_bind; [|intros ?]; [|exact IH].
    by apply preserves_same_metadata.
Qed.

Lemma preserves_alloc (ob : object) : preserves (alloc ob).
Proof. by apply preserves_same_metadata. Qed.

Lemma preserves_getMetadata mk t pk : preserves (Reflect.getMetadata mk t pk).
Proof.
  apply preserves_same_metadata. intros s.
  unfold Reflect.getMetadata. by case_match.
Qed.

Lemma preserves_hasMetadata mk t pk : preserves (Reflect.hasMetadata mk t pk).
Proof.
  apply preserves_same_metadata. intros s.
  unfold Reflect.hasMetadata. by case_match.
Qed.

Lemma preserves_defineMetadata mk v t pk :
  preserves (Reflect.defineMetadata mk v t pk).
Proof.
  intros s. unfold Reflect.defineMetadata.
  destruct t; simpl; [apply define|reflexivity].
Qed.

Lemma preserves_spread_object v : preserves (spread_object v).
Proof. by apply preserves_same_metadata. Qed.

Lemma preserves_spread_array v : preserves (spread_array v).
Proof.
  apply preserves_same_metadata. intros s. unfold spread_array. by case_match.
Qed.

Lemma preserves_merge l fs : preserves (merge l fs).
Proof. by apply preserves_same_metadata. Qed.

Lemma preserves_Object_keys l : preserves (Object_keys l).
Proof. by apply preserves_same_metadata. Qed.

Lemma preserves_copy mk t pk :
  preserves (let* m := Reflect.getMetadata mk t pk in
             let* fs := spread_object m in new_object fs).
Proof.
  apply preserves_bind; [apply preserves_getMetadata|intros ?].
  apply preserves_bind; [apply preserves_spread_object|intros ?].
  apply preserves_alloc.
Qed.

Lemma preserves_defineModelOptions c options :
  preserves (defineModelOptions c options).
Proof.
  apply preserves_bind; [apply preserves_getMetadata|intros ?].
  apply preserves_bind; [apply preserves_spread_object|intros ?].
  apply preserves_bind; [apply preserves_alloc|intros ?].
  apply preserves_defineMetadata.
Qed.

Lemma preserves_define_merge mk t key options :
  preserves (let* old := Reflect.getMetadata mk (Some t) None in
             let* copy := spread_object old in
             let* object := new_object copy in
             let* source := computed_property key options in
             let* merged := merge object source in
             Reflect.defineMetadata mk (VRef merged) (Some t) None).
Proof.
  apply preserves_bind; [apply preserves_getMetadata|intros ?].
  apply preserves_bind; [apply preserves_spread_object|intros ?].
  apply preserves_bind; [apply preserves_alloc|intros ?].
  apply preserves_bind; [by apply preserves_same_metadata|intros ?].
  apply preserves_bind; [apply preserves_merge|intros ?].
  apply preserves_defineMetadata.
Qed.

Lemma preserves_defineAttributeValidation t key v :
  preserves (defineAttributeValidation t key v).
Proof.
  apply preserves_bind; [apply preserves_getMetadata|intros ?].
  apply preserves_bind; [apply preserves_spread_array|intros ?].
  apply preserves_bind; [apply preserves_alloc|intros ?].
  apply preserves_defineMetadata.
Qed.

Lemma preserves_getAttributeValidations c key :
  preserves (getAttributeValidations c key).
Proof.
  apply preserves_bind; [apply preserves_getMetadata|intros ?].
  apply preserves_bind; [apply preserves_spread_array|intros ?].
  apply preserves_alloc.
Qed.

Lemma preserves_getProperties c : preserves (getProperties c).
Proof.
  apply preserves_bind; [apply preserves_alloc|intros ?].
  apply preserves_bind; [apply preserves_copy|intros ?].
  apply preserves_bind; [apply preserves_copy|intros ?].
  apply preserves_bind; [apply preserves_Object_keys|intros ?].
  apply preserves_bind;
    [apply preserves_resolve_each; intros; apply preserves_alloc|intros ?].
  apply preserves_bind; [apply preserves_Object_keys|intros ?].
  apply preserves_bind;
    [apply preserves_resolve_each; intros; apply preserves_alloc|intros ?].
  apply preserves_ret.
Qed.

Lemma preserves_step (o : op) (s : state) : R s (step o s).
Proof.
  destruct o; unfold step.
  - apply preserves_defineModelOptions.
  - apply (preserves_define_merge MODEL_ASSOCS_META_KEY).
  - apply (preserves_define_merge MODEL_ATTRS_META_KEY).
  - apply preserves_defineAttributeValidation.
  - apply (preserves_try_catch _ _ (preserves_hasMetadata _ _ _)
             (preserves_ret false)).
  - apply (preserves_copy MODEL_OPTIONS_META_KEY).
  - apply (preserves_copy MODEL_ASSOCS_META_KEY).
  - apply (preserves_copy MODEL_ATTRS_META_KEY).
  - apply preserves_getAttributeValidations.
  - apply preserves_getProperties.
Qed.

Lemma preserves_exec (ops : list op) (s : state) : R s (exec ops s).
Proof.
  revert s. induction ops as [|o ops IH]; intros s; simpl.
  - reflexivity.
  - etrans; [apply (preserves_step o)|apply IH].
Qed.

End Preserves.

(** ** [hasModelOptions] after [defineModelOptions] *)

#[global] Instance metadata_grows_preorder : PreOrder metadata_grows.
Proof.
  split.
  - by intros s k.
  - intros s1 s2 s3 H12 H23 k Hk. by apply H23, H12.
Qed.

Lemma exec_metadata_grows (ops : list op) (s : state) :
  metadata_grows s (exec ops s).
Proof.
  apply (preserves_exec metadata_grows).
  - by intros s0 h k.
  - intros s0 k v k' Hk. simpl. destruct (decide (k = k')) as [->|Hne].
    + rewrite lookup_insert_eq. eauto.
    + by rewrite lookup_insert_ne.
Qed.

Lemma hasModelOptions_own (c : ctor) (o : objref) (s : state) :
  prototype c = Some o →
  is_Some (metadata s !! (oid_of o, None, MODEL_OPTIONS_META_KEY)) →
  hasModelOptions c s = Return true s.
Proof.
  intros Hp Hm. unfold hasModelOptions, try_catch, Reflect.hasMetadata.
  rewrite Hp. by rewrite OrdinaryHasMetadata_own.
Qed.

(** C10: for a constructor with a prototype object and any options record,
    [defineModelOptions] succeeds, [hasModelOptions] is true right after
    it, and stays true after any further sequence of registry
    operations. *)
Theorem hasModelOptions_after_define (c : ctor) (o : objref)
    (options : gmap string value) (s : state) (ops : list op) :
  prototype c = Some o →
  ∃ s1, defineModelOptions c options s = Return tt s1
        ∧ hasModelOptions c s1 = Return true s1
        ∧ hasModelOptions c (exec ops s1) = Return true (exec ops s1).
Proof.
  intros Hp.
  unfold defineModelOptions, bind, Reflect.getMetadata, spread_object,
    new_object, alloc, alloc_in, Reflect.defineMetadata.
  rewrite Hp. simpl. eexists. split; [reflexivity|].
  match goal with |- hasModelOptions c ?s1 = _ ∧ _ =>
    assert (Hs1 : is_Some (metadata s1 !! (oid_of o, None, MODEL_OPTIONS_META_KEY)))
  end.
  { simpl. rewrite lookup_insert_eq. eauto. }
  split.
  - by apply (hasModelOptions_own c o).
  - apply (hasModelOptions_own c o); [done|].
    by apply exec_metadata_grows.
Qed.

Lemma hasModelOptions_after_define_witness :
  ∃ s1, defineModelOptions User ∅ empty_state = Return tt s1
        ∧ hasModelOptions User s1 = Return true s1
        ∧ let ops := [OpDefineAttribute User_prototype "id" (LObj []);
                      OpDefineModelOptions Base {["name" := VStr "x"]};
                      OpGetAttributeValidations User "id";
                      OpGetProperties User] in
          hasModelOptions User (exec ops s1) = Return true (exec ops s1).
Proof.
  apply (hasModelOptions_after_define User User_prototype ∅ empty_state).
  reflexivity.
Defined.

(** ** The default model name *)

Section ModelName.

Variable camelCase : string → string.

Lemma guessModelName_named (c : ctor) :
  fn_name c ≠ "" → guessModelName camelCase c = camelCase (fn_name c).
Proof. intros H. unfold guessModelName. by rewrite decide_False. Qed.

(** C8: after [@model(options)] on a class (a constructor with a
    prototype object and a name), [getModelOptions] gives the name set in
    [options] when there is one and otherwise the camelCase form of the
    class name. *)
Theorem model_default_name (c : ctor) (o : objref)
    (options : option (gmap string value)) (s : state) :
  prototype c = Some o →
  fn_name c ≠ "" →
  ∃ s1 l s2,
    model camelCase options c s = Return tt s1
    ∧ getModelOptions c s1 = Return l s2
    ∧ heap_get (heap s2) l "name"
      = match options ≫= (λ m, m !! "name") with
        | Some explicit => explicit
        | None => VStr (camelCase (fn_name c))
        end.
Proof.
  intros Hp Hn.
  unfold model, defineModelOptions, bind, Reflect.getMetadata, spread_object,
    new_object, alloc, alloc_in, Reflect.defineMetadata.
  rewrite Hp. simpl. eexists _, _, _. split; [reflexivity|].
  split.
  { unfold getModelOptions, bind, Reflect.getMetadata, spread_object,
      new_object, alloc, alloc_in.
    rewrite Hp. simpl.
    erewrite (OrdinaryGetMetadata_own _ o _ (<[_ := _]> _));
      [|apply lookup_insert_eq].
    simpl. rewrite lookup_insert_eq. simpl. reflexivity. }
  simpl. unfold heap_get. rewrite lookup_insert_eq. unfold obj_get. simpl.
  rewrite guessModelName_named by done.
  match goal with |- default _ ((?m1 ∪ ?m2) !! _) = ?r =>
    assert (Hl : m1 !! "name" = Some r);
      [|by rewrite (lookup_union_Some_l m1 m2 _ _ Hl)]
  end.
  destruct options as [m|]; simpl.
  - destruct (m !! "name") as [v|] eqn:E.
    + by apply lookup_union_Some_l.
    + rewrite lookup_union_r by done. apply lookup_insert_eq.
  - rewrite lookup_union_r by apply lookup_empty. apply lookup_insert_eq.
Qed.

End ModelName.

Lemma model_default_name_witness :
  ∃ s1 l s2,
    model lower_first (Some {["tableName" := VStr "accounts"]}) UserAccount
      empty_state = Return tt s1
    ∧ getModelOptions UserAccount s1 = Return l s2
    ∧ heap_get (heap s2) l "name" = VStr "userAccount".
Proof.
  destruct (model_default_name lower_first UserAccount (ObjRef 3 None)
              (Some {["tableName" := VStr "accounts"]}) empty_state)
    as (s1 & l & s2 & H1 & H2 & H3).
  - reflexivity.
  - discriminate.
  - exists s1, l, s2. split; [exact H1|]. split; [exact H2|].
    rewrite H3. vm_compute. reflexivity.
Defined.

(** Where [Function.name] is missing, the name is cut out of the source
    text of the constructor. *)
Example guessModelName_polyfill :
  guessModelName lower_first
    (Ctor "" "function UserAccount() { }" (Some (ObjRef 3 None)))
  = "userAccount".
Proof. reflexivity. Qed.

(** ** Merging attribute options *)

(** [baseMergeDeep] on a plain source is [baseMerge] into the object it
    picked. *)
Lemma baseMergeDeep_obj (fs : list (string * lit)) (ov : value)
    (h : gmap loc object) :
  baseMergeDeep (LObj fs) ov h
  = let '(l, h1) := match ov with
                    | VRef l' => (l', h)
                    | _ => alloc_in (plain ∅) h
                    end in
    (VRef l, baseMerge l fs h1).
Proof.
  simpl.
  assert (H : ∀ l fs h,
    (fix each (fs : list (string * lit)) (h : gmap loc object) :=
       match fs with
       | [] => h
       | (k, s) :: r =>
           let '(nv, h') := baseMergeDeep s (heap_get h l k) h in
           each r (assignMergeValue l k nv h')
       end) fs h = baseMerge l fs h).
  { clear. intros l fs. induction fs as [|[k s] r IH]; intros h; simpl; [done|].
    destruct (baseMergeDeep s (heap_get h l k) h) as [nv h']. apply IH. }
  destruct ov; simpl; by rewrite H.
Qed.

Lemma assignMergeValue_lookup (l : loc) (k : string) (v : value)
    (h : gmap loc object) (o : object) :
  h !! l = Some o →
  assignMergeValue l k v h = <[l := assign_obj k v o]> h.
Proof.
  intros Hl. unfold assignMergeValue, assign_obj, heap_in, heap_get, heap_set.
  rewrite Hl.
  repeat case_match; try (by rewrite insert_id);
    apply map_eq; intros l'; destruct (decide (l = l')) as [<-|Hne];
    by rewrite ?lookup_alter_eq, ?lookup_alter_ne, ?lookup_insert_eq,
         ?lookup_insert_ne, ?Hl by done.
Qed.

Lemma assignMergeValue_other (l l' : loc) (k : string) (v : value)
    (h : gmap loc object) :
  l' ≠ l → assignMergeValue l k v h !! l' = h !! l'.
Proof.
  intros Hne. unfold assignMergeValue, heap_set.
  repeat case_match; by rewrite ?lookup_alter_ne by done.
Qed.

Lemma assignMergeValue_dom (l : loc) (k : string) (v : value)
    (h : gmap loc object) :
  dom (assignMergeValue l k v h) = dom h.
Proof.
  unfold assignMergeValue, heap_set.
  repeat case_match; try done; apply dom_alter_L.
Qed.

Lemma baseMerge_atoms (l : loc) (fs : list (string * value))
    (h : gmap loc object) (o : object) :
  h !! l = Some o →
  baseMerge l (atoms fs) h
  = <[l := assign_all o fs]> h.
Proof.
  unfold assign_all.
  revert h o. induction fs as [|[k v] r IH]; intros h o Hl; simpl.
  - by rewrite insert_id.
  - rewrite (assignMergeValue_lookup l k v h o Hl).
    rewrite (IH _ (assign_obj k v o)) by apply lookup_insert_eq.
    by rewrite insert_insert_eq.
Qed.

Lemma assign_obj_kind k v o : kind (assign_obj k v o) = kind o.
Proof. unfold assign_obj. by repeat case_match. Qed.

Lemma assign_obj_other k v o f :
  f ≠ k → fields (assign_obj k v o) !! f = fields o !! f.
Proof.
  intros Hne. unfold assign_obj.
  repeat case_match; simpl; by rewrite ?lookup_insert_ne by done.
Qed.

Lemma assign_obj_defined k v o :
  v ≠ VUndefined → fields (assign_obj k v o) !! k = Some v.
Proof.
  intros Hv. unfold assign_obj. rewrite decide_False by done.
  case_decide as E; simpl; [|apply lookup_insert_eq].
  unfold obj_get in E. destruct (fields o !! k); simpl in E; congruence.
Qed.

Lemma obj_in_own o k : is_Some (fields o !! k) → obj_in o k = true.
Proof. intros H. unfold obj_in. by rewrite bool_decide_eq_true_2. Qed.

Lemma assign_obj_undefined k o x :
  fields o !! k = Some x → fields (assign_obj k VUndefined o) !! k = Some x.
Proof.
  intros Hx. unfold assign_obj. rewrite decide_True by done.
  rewrite obj_in_own by eauto. done.
Qed.

Lemma assign_all_kind fs : ∀ o, kind (assign_all o fs) = kind o.
Proof.
  induction fs as [|[k v] r IH]; intros o'; simpl; [done|].
  unfold assign_all in IH. rewrite IH. apply assign_obj_kind.
Qed.

Lemma assign_all_absent fs f :
  ∀ o, f ∉ fs.*1 → fields (assign_all o fs) !! f = fields o !! f.
Proof.
  induction fs as [|[k v] r IH]; intros o' Hf; simpl; [done|].
  simpl in Hf. apply not_elem_of_cons in Hf as [H1 H2].
  unfold assign_all in IH. rewrite IH by done. by apply assign_obj_other.
Qed.

Lemma assign_all_defined fs f v :
  ∀ o, NoDup fs.*1 → (f, v) ∈ fs → v ≠ VUndefined →
       fields (assign_all o fs) !! f = Some v.
Proof.
  induction fs as [|[k w] r IH]; intros o' Hnd Hin Hv; simpl.
  - by apply elem_of_nil in Hin.
  - simpl in Hnd. apply NoDup_cons in Hnd as [Hk Hnd].
    apply elem_of_cons in Hin as [[= <- <-]|Hin].
    + rewrite (assign_all_absent r f) by done. by apply assign_obj_defined.
    + unfold assign_all in IH. by apply IH.
Qed.

Lemma assign_all_undefined fs f x :
  ∀ o, NoDup fs.*1 → (f, VUndefined) ∈ fs → fields o !! f = Some x →
       fields (assign_all o fs) !! f = Some x.
Proof.
  induction fs as [|[k w] r IH]; intros o' Hnd Hin Hx; simpl.
  - by apply elem_of_nil in Hin.
  - simpl in Hnd. apply NoDup_cons in Hnd as [Hk Hnd].
    apply elem_of_cons in Hin as [[= <- <-]|Hin].
    + rewrite (assign_all_absent r f) by done. by apply assign_obj_undefined.
    + unfold assign_all in IH. apply IH; [done|done|].
      rewrite assign_obj_other; [done|].
      intros ->. apply Hk. apply list_elem_of_fmap. by exists (k, VUndefined).
Qed.

Arguments baseMergeDeep : simpl never.

Lemma baseMerge_single (l : loc) (k : string) (src : lit) (h : gmap loc object) :
  baseMerge l [(k, src)] h
  = assignMergeValue l k (baseMergeDeep src (heap_get h l k) h).1
      (baseMergeDeep src (heap_get h l k) h).2.
Proof. simpl. by destruct (baseMergeDeep src (heap_get h l k) h). Qed.

Arguments baseMerge : simpl never.

Lemma assign_obj_same k v o :
  fields o !! k = Some v → assign_obj k v o = o.
Proof.
  intros Hk. unfold assign_obj. destruct (decide (v = VUndefined)).
  - rewrite obj_in_own; [done|]. rewrite Hk. eauto.
  - rewrite decide_True; [done|]. unfold obj_get. by rewrite Hk.
Qed.

(** The two scenarios of the specification, run from an empty registry:
    [{a: 1}] then [{b: 2}] gives [{a: 1, b: 2}], and [{a: 1}] then [{a: 2}]
    gives [{a: 2}]. *)
Example merge_disjoint_fields :
  record_after
    (run defineAttribute User_prototype "email" (LObj [("a", LAtom (VNum 1))]) in
     defineAttribute User_prototype "email" (LObj [("b", LAtom (VNum 2))]))
    User_prototype "email"
  = Some (<["a" := VNum 1]> (<["b" := VNum 2]> ∅)).
Proof. vm_compute. reflexivity. Qed.

Example merge_same_field :
  record_after
    (run defineAttribute User_prototype "email" (LObj [("a", LAtom (VNum 1))]) in
     defineAttribute User_prototype "email" (LObj [("a", LAtom (VNum 2))]))
    User_prototype "email"
  = Some (<["a" := VNum 2]> ∅).
Proof. vm_compute. reflexivity. Qed.

(** Nested plain objects merge field by field as well, and a property given
    as [undefined] leaves the earlier value in place. *)
Example merge_nested_and_undefined :
  record_after
    (run defineAttribute User_prototype "email"
           (LObj [("a", LAtom (VNum 1)); ("o", LObj [("x", LAtom (VNum 1))])]) in
     defineAttribute User_prototype "email"
           (LObj [("a", LAtom VUndefined); ("o", LObj [("y", LAtom (VNum 2))])]))
    User_prototype "email"
  = Some (<["a" := VNum 1]> (<["o" := VRef 2]> ∅))
  ∧ (fields <$> heap (final_state
       ((run defineAttribute User_prototype "email"
           (LObj [("a", LAtom (VNum 1)); ("o", LObj [("x", LAtom (VNum 1))])]) in
         defineAttribute User_prototype "email"
           (LObj [("a", LAtom VUndefined); ("o", LObj [("y", LAtom (VNum 2))])]))
        empty_state)) !! 2%nat)
    = Some (<["x" := VNum 1]> (<["y" := VNum 2]> ∅)).
Proof. split; vm_compute; reflexivity. Qed.

(** ** [getProperties] does not depend on association targets *)

Lemma mask_eq_heap_rel (R : gset loc) (h1 h2 : gmap loc object) :
  mask R h1 = mask R h2 ↔ heap_rel R h1 h2.
Proof.
  unfold mask, heap_rel. split.
  - intros H l. apply (f_equal (λ m, m !! l)) in H.
    rewrite !map_lookup_imap in H.
    destruct (decide (l ∈ R)); destruct (h1 !! l), (h2 !! l); simpl in *; congruence.
  - intros H. apply map_eq. intros l. specialize (H l).
    rewrite !map_lookup_imap.
    destruct (decide (l ∈ R)); destruct (h1 !! l), (h2 !! l); simpl in *; congruence.
Qed.

Lemma heap_rel_lookup R h1 h2 l :
  heap_rel R h1 h2 → l ∉ R → h1 !! l = h2 !! l.
Proof. intros H Hl. specialize (H l). by rewrite decide_False in H. Qed.

Lemma heap_rel_dom R h1 h2 : heap_rel R h1 h2 → dom h1 = dom h2.
Proof.
  intros H. apply set_eq. intros l. rewrite !elem_of_dom. specialize (H l).
  destruct (decide (l ∈ R)).
  - by rewrite <- (fmap_is_Some erase_target (h1 !! l)),
               <- (fmap_is_Some erase_target (h2 !! l)), H.
  - by rewrite H.
Qed.

Lemma heap_rel_insert R h1 h2 l o :
  heap_rel R h1 h2 → heap_rel R (<[l := o]> h1) (<[l := o]> h2).
Proof.
  intros H l'. specialize (H l'). destruct (decide (l = l')) as [<-|Hne].
  - rewrite !lookup_insert_eq. by case_decide.
  - by rewrite !lookup_insert_ne.
Qed.

Lemma erase_target_obj_set k v o1 o2 :
  erase_target o1 = erase_target o2 →
  erase_target (obj_set k v o1) = erase_target (obj_set k v o2).
Proof.
  unfold erase_target, obj_set. destruct o1 as [k1 f1 n1], o2 as [k2 f2 n2].
  simpl. intros [= -> Hf ->]. f_equal.
  destruct (decide (k = "target")) as [->|Hne].
  - by rewrite !delete_insert_eq.
  - rewrite !(delete_insert_ne _ "target" k) by done. by rewrite Hf.
Qed.

Lemma heap_rel_heap_set R h1 h2 l k v :
  heap_rel R h1 h2 → heap_rel R (heap_set l k v h1) (heap_set l k v h2).
Proof.
  intros H l'. specialize (H l'). unfold heap_set.
  destruct (decide (l = l')) as [<-|Hne].
  - rewrite !lookup_alter_eq.
    destruct (decide (l ∈ R)); destruct (h1 !! l) as [o1|], (h2 !! l) as [o2|];
      try done.
    + apply (inj Some) in H.
      change (Some (erase_target (obj_set k v o1))
              = Some (erase_target (obj_set k v o2))).
      by rewrite (erase_target_obj_set k v o1 o2 H).
    + by apply (inj Some) in H as ->.
  - by rewrite !lookup_alter_ne.
Qed.

Lemma heap_rel_heap_get R h1 h2 l k :
  heap_rel R h1 h2 → k ≠ "target" → heap_get h1 l k = heap_get h2 l k.
Proof.
  intros H Hk. specialize (H l). unfold heap_get, obj_get.
  destruct (decide (l ∈ R)); destruct (h1 !! l) as [o1|], (h2 !! l) as [o2|];
    try done.
  - apply (inj Some) in H. unfold erase_target in H. injection H as _ Hf _.
    apply (f_equal (λ m, m !! k)) in Hf. rewrite !lookup_delete_ne in Hf by done.
    by rewrite Hf.
  - by apply (inj Some) in H as ->.
Qed.

Lemma outcome_rel_bind {A B} R (m1 m2 : M A) (k1 k2 : A → M B) s1 s2 :
  outcome_rel R (m1 s1) (m2 s2) →
  (∀ a s1' s2', st_rel R s1' s2' →
                m1 s1 = Return a s1' → outcome_rel R (k1 a s1') (k2 a s2')) →
  outcome_rel R (bind m1 k1 s1) (bind m2 k2 s2).
Proof.
  unfold bind, outcome_rel. intros Hm Hk.
  destruct (m1 s1) as [a1 t1|e1 t1], (m2 s2) as [a2 t2|e2 t2]; try done.
  destruct Hm as [-> Ht]. by apply Hk.
Qed.

Lemma st_rel_heap R s1 s2 : st_rel R s1 s2 → heap_rel R (heap s1) (heap s2).
Proof. intros [[_ H] _]. by apply mask_eq_heap_rel. Qed.

Lemma st_rel_metadata R s1 s2 : st_rel R s1 s2 → metadata s1 = metadata s2.
Proof. by intros [[H _] _]. Qed.

Lemma st_rel_update R s1 s2 h1 h2 :
  st_rel R s1 s2 →
  heap_rel R h1 h2 →
  dom (heap s1) ⊆ dom h1 →
  st_rel R (State h1 (metadata s1)) (State h2 (metadata s2)).
Proof.
  intros [[Hmd _] [Hsub Hroots]] Hrel Hdom. split; [split|split]; simpl.
  - done.
  - by apply mask_eq_heap_rel.
  - set_solver.
  - done.
Qed.

Lemma rel_alloc R (o : object) s1 s2 :
  st_rel R s1 s2 → outcome_rel R (alloc o s1) (alloc o s2).
Proof.
  intros H. pose proof (st_rel_heap _ _ _ H) as Hh.
  unfold alloc, alloc_in, outcome_rel. rewrite (heap_rel_dom _ _ _ Hh).
  split; [done|]. apply st_rel_update; [done| |].
  - rewrite <- (heap_rel_dom _ _ _ Hh). by apply heap_rel_insert.
  - rewrite dom_insert_L. set_solver.
Qed.

Lemma alloc_returns_fresh (o : object) s l s' :
  alloc o s = Return l s' → l ∉ dom (heap s).
Proof. unfold alloc, alloc_in. intros [= <- _]. apply is_fresh. Qed.

Lemma rel_get_prop R v k s1 s2 :
  st_rel R s1 s2 →
  k ≠ "target" ∨ (∀ l, v = VRef l → l ∉ R) →
  outcome_rel R (get_prop v k s1) (get_prop v k s2).
Proof.
  intros H Hk. pose proof (st_rel_heap _ _ _ H) as Hh.
  destruct v; simpl; try done.
  split; [|done]. destruct Hk as [Hk|Hl].
  - by apply (heap_rel_heap_get R).
  - unfold heap_get. by rewrite (heap_rel_lookup R _ _ l Hh) by by apply Hl.
Qed.

Lemma get_prop_state v k s a s' : get_prop v k s = Return a s' → s' = s.
Proof. destruct v; simpl; congruence. Qed.

Lemma rel_set_prop R l k v s1 s2 :
  st_rel R s1 s2 → outcome_rel R (set_prop l k v s1) (set_prop l k v s2).
Proof.
  intros H. pose proof (st_rel_heap _ _ _ H) as Hh.
  unfold set_prop. split; [done|]. apply st_rel_update; [done| |].
  - by apply heap_rel_heap_set.
  - unfold heap_set. by rewrite dom_alter_L.
Qed.

Lemma rel_Object_keys R l s1 s2 :
  st_rel R s1 s2 → l ∉ R → outcome_rel R (Object_keys l s1) (Object_keys l s2).
Proof.
  intros H Hl. pose proof (st_rel_heap _ _ _ H) as Hh.
  unfold Object_keys. by rewrite (heap_rel_lookup R _ _ l Hh Hl).
Qed.

Lemma OrdinaryGetMetadata_stored mk o pk md :
  Reflect.OrdinaryGetMetadata mk o pk md = VUndefined
  ∨ ∃ k, md !! k = Some (Reflect.OrdinaryGetMetadata mk o pk md).
Proof.
  induction o as [i|i o IH] using objref_chain_ind; simpl.
  - destruct (md !! (i, pk, mk)) eqn:E; eauto.
  - destruct (md !! (i, pk, mk)) eqn:E; eauto.
Qed.

(** The three readers share this body: the metadata value is spread into a
    fresh object. *)
Lemma rel_copy R mk t pk s1 s2 :
  st_rel R s1 s2 →
  outcome_rel R
    ((let* m := Reflect.getMetadata mk t pk in
      let* fs := spread_object m in new_object fs) s1)
    ((let* m := Reflect.getMetadata mk t pk in
      let* fs := spread_object m in new_object fs) s2).
Proof.
  intros H. pose proof (st_rel_heap _ _ _ H) as Hh.
  pose proof (st_rel_metadata _ _ _ H) as Hmd.
  unfold bind, Reflect.getMetadata, spread_object, new_object.
  destruct t as [o|]; [|done]. rewrite <- Hmd.
  set (m := Reflect.OrdinaryGetMetadata mk o pk (metadata s1)).
  assert (Hs : spread_fields (heap s1) m = spread_fields (heap s2) m).
  { destruct (OrdinaryGetMetadata_stored mk o pk (metadata s1)) as [E|[k E]];
      fold m in E.
    - by rewrite E.
    - destruct m as [| | | | | |l] eqn:Em; try done. simpl.
      destruct H as (_ & _ & Hroots). specialize (Hroots k _ E). simpl in Hroots.
      by rewrite (heap_rel_lookup R _ _ l Hh Hroots). }
  rewrite Hs. by apply rel_alloc.
Qed.

Lemma copy_returns_fresh mk t pk s l s' :
  (let* m := Reflect.getMetadata mk t pk in
   let* fs := spread_object m in new_object fs) s = Return l s' →
  l ∉ dom (heap s).
Proof.
  unfold bind, Reflect.getMetadata, spread_object, new_object.
  destruct t; [|done]. apply alloc_returns_fresh.
Qed.

Lemma rel_resolve_each R cls (new_C : value → string → M loc) props from keys :
  (∀ ty k, new_C ty k = alloc (instance cls ty k)) →
  from ∉ R →
  ∀ s1 s2, st_rel R s1 s2 →
           outcome_rel R (resolve_each new_C props from keys s1)
                         (resolve_each new_C props from keys s2).
Proof.
  intros Hnew Hfrom. induction keys as [|key rest IH]; intros s1 s2 H; simpl.
  - done.
  - apply outcome_rel_bind.
    { apply rel_get_prop; [done|]. right. by intros l [= <-]. }
    intros options t1 t2 Ht _. apply outcome_rel_bind.
    { apply rel_get_prop; [done|]. by left. }
    intros ty u1 u2 Hu _. apply outcome_rel_bind.
    { rewrite Hnew. by apply rel_alloc. }
    intros p v1 v2 Hv _. apply outcome_rel_bind.
    { by apply rel_set_prop. }
    intros _ w1 w2 Hw _. by apply IH.
Qed.

Lemma getProperties_outcome_rel (R : gset loc) (c : ctor) (s1 s2 : state) :
  st_rel R s1 s2 →
  outcome_rel R (getProperties c s1) (getProperties c s2).
Proof.
  intros H. unfold getProperties.
  apply outcome_rel_bind; [by apply rel_alloc|].
  intros props t1 t2 Ht _.
  apply outcome_rel_bind; [by apply rel_copy|].
  intros attrs u1 u2 Hu Hattrs. apply copy_returns_fresh in Hattrs.
  assert (Ha : attrs ∉ R).
  { destruct Ht as (_ & Hsub & _). set_solver. }
  apply outcome_rel_bind; [by apply rel_copy|].
  intros assocs v1 v2 Hv Hassocs. apply copy_returns_fresh in Hassocs.
  assert (Hb : assocs ∉ R).
  { destruct Hu as (_ & Hsub & _). set_solver. }
  apply outcome_rel_bind; [by apply rel_Object_keys|].
  intros ks w1 w2 Hw _.
  apply outcome_rel_bind.
  { by apply (rel_resolve_each R Attribute_class). }
  intros _ x1 x2 Hx _.
  apply outcome_rel_bind; [by apply rel_Object_keys|].
  intros ks' y1 y2 Hy _.
  apply outcome_rel_bind.
  { by apply (rel_resolve_each R Association_class). }
  intros _ z1 z2 Hz _. done.
Qed.

Lemma bind_returns {A B} (m : M A) (k : A → M B) s b s' :
  bind m k s = Return b s' → ∃ a s1, m s = Return a s1 ∧ k a s1 = Return b s'.
Proof. unfold bind. destruct (m s) as [a s1|e s1]; [eauto|done]. Qed.

(** [getProperties] returns the object it creates first. *)
Lemma getProperties_returns_fresh (c : ctor) (s : state) (p : loc) (s' : state) :
  getProperties c s = Return p s' → p ∉ dom (heap s).
Proof.
  unfold getProperties. intros H.
  apply bind_returns in H as (props & s1 & Hprops & H).
  apply alloc_returns_fresh in Hprops.
  do 6 (apply bind_returns in H as (? & ? & _ & H)).
  injection H as <- _. done.
Qed.

(** C7: two stores that are identical except for the [target] values of a
    set [R] of existing records (none of which is itself a metadata value)
    give the same result of [getProperties]: the same returned object, the
    same objects created, the same exception if any; the stores it leaves
    still differ in those targets only. No target is read, so a deferred
    target (a function) is never called. *)
Theorem getProperties_ignores_targets (R : gset loc) (c : ctor) (s1 s2 : state) :
  targets_differ R s1 s2 →
  R ⊆ dom (heap s1) →
  roots_outside R s1 →
  match getProperties c s1, getProperties c s2 with
  | Return p1 s1', Return p2 s2' =>
      p1 = p2
      ∧ (p1 ∉ R)
      ∧ targets_differ R s1' s2'
      ∧ (∀ l, l ∉ R → heap s1' !! l = heap s2' !! l)
  | Throw e1 s1', Throw e2 s2' => e1 = e2 ∧ targets_differ R s1' s2'
  | _, _ => False
  end.
Proof.
  intros Hd Hsub Hroots.
  pose proof (getProperties_outcome_rel R c s1 s2 (conj Hd (conj Hsub Hroots))) as H.
  unfold outcome_rel in H.
  destruct (getProperties c s1) as [p1 t1|e1 t1] eqn:E1,
           (getProperties c s2) as [p2 t2|e2 t2]; try done.
  - destruct H as [-> Ht]. split; [done|]. split.
    { apply getProperties_returns_fresh in E1. intros Hc. by apply E1, Hsub. }
    split; [apply Ht|].
    intros l Hl. apply (heap_rel_lookup R); [|done]. by apply st_rel_heap.
  - destruct H as [-> Ht]. split; [done|]. apply Ht.
Qed.

Lemma getProperties_ignores_targets_witness :
  match getProperties User collided, getProperties User collided_deferred with
  | Return p1 s1', Return p2 s2' =>
      p1 = p2
      ∧ (p1 ∉ ({[5%nat]} : gset loc))
      ∧ targets_differ {[5%nat]} s1' s2'
      ∧ (∀ l, l ∉ ({[5%nat]} : gset loc) → heap s1' !! l = heap s2' !! l)
  | Throw e1 s1', Throw e2 s2' => e1 = e2 ∧ targets_differ {[5%nat]} s1' s2'
  | _, _ => False
  end.
Proof.
  apply (getProperties_ignores_targets {[5%nat]} User collided collided_deferred).
  - apply (bool_decide_unpack _). vm_compute. exact I.
  - apply (bool_decide_unpack _). vm_compute. exact I.
  - apply (bool_decide_unpack _). vm_compute. exact I.
Defined.

(** ** Resolved descriptors and later declarations *)

Lemma lit_nested_ind (P : lit → Prop) :
  (∀ v, P (LAtom v)) →
  (∀ fs, Forall (λ kv, P kv.2) fs → P (LObj fs)) →
  (∀ es, Forall P es → P (LArr es)) →
  ∀ src, P src.
Proof.
  intros Ha Ho Hr. fix IH 1. intros [v|fs|es].
  - apply Ha.
  - apply Ho. induction fs as [|[k s] r IHr]; constructor; [apply IH|apply IHr].
  - apply Hr. induction es as [|e r IHr]; constructor; [apply IH|apply IHr].
Qed.

Lemma heap_get_outside N h l k :
  heap_sealed N h → l ∉ N → value_outside N (heap_get h l k).
Proof.
  intros [_ Hs] Hl. unfold heap_get, obj_get.
  destruct (h !! l) as [o|] eqn:E; [|done].
  destruct (fields o !! k) as [v|] eqn:Ek; [|done]. simpl.
  by apply (Hs l o E Hl k v).
Qed.

Lemma heap_sealed_insert N h l o :
  heap_sealed N h → l ∉ N → fields_outside N (fields o) →
  heap_sealed N (<[l := o]> h).
Proof.
  intros [Hsub Hs] Hl Ho. split.
  - rewrite dom_insert_L. set_solver.
  - apply map_Forall_insert_2; [by intros _|done].
Qed.

Lemma frame_insert N h l o : l ∉ N → frame N h (<[l := o]> h).
Proof. intros Hl l' Hl'. apply lookup_insert_ne. by intros ->. Qed.

Lemma frame_trans N h1 h2 h3 : frame N h1 h2 → frame N h2 h3 → frame N h1 h3.
Proof. intros H12 H23 l Hl. by rewrite H23, H12. Qed.

Lemma fields_outside_obj_set N k v o :
  fields_outside N (fields o) → value_outside N v →
  fields_outside N (fields (obj_set k v o)).
Proof. intros Ho Hv. simpl. by apply map_Forall_insert_2. Qed.

Lemma heap_sealed_heap_set N h l k v :
  heap_sealed N h → l ∉ N → value_outside N v →
  heap_sealed N (heap_set l k v h).
Proof.
  intros [Hsub Hs] Hl Hv. unfold heap_set. split.
  - by rewrite dom_alter_L.
  - intros l' o'. destruct (decide (l = l')) as [<-|Hne].
    + rewrite lookup_alter_eq. destruct (h !! l) as [o|] eqn:E; [|done].
      simpl. intros [= <-] _. apply fields_outside_obj_set; [|done].
      by apply (Hs l o E).
    + rewrite lookup_alter_ne by done. apply Hs.
Qed.

Lemma frame_heap_set N h l k v : l ∉ N → frame N h (heap_set l k v h).
Proof.
  intros Hl l' Hl'. unfold heap_set. apply lookup_alter_ne. by intros ->.
Qed.

Lemma heap_sealed_assign N h l k v :
  heap_sealed N h → l ∉ N → value_outside N v →
  heap_sealed N (assignMergeValue l k v h).
Proof.
  intros Hs Hl Hv. unfold assignMergeValue.
  repeat case_match; try done; by apply heap_sealed_heap_set.
Qed.

Lemma frame_assign N h l k v : l ∉ N → frame N h (assignMergeValue l k v h).
Proof.
  intros Hl. unfold assignMergeValue.
  repeat case_match; try (by intros ? ?); by apply frame_heap_set.
Qed.

Lemma baseMergeDeep_atom v ov h : baseMergeDeep (LAtom v) ov h = (v, h).
Proof. reflexivity. Qed.

Lemma baseMergeDeep_arr (es : list lit) (ov : value) (h : gmap loc object) :
  baseMergeDeep (LArr es) ov h
  = let '(l, h1) := match ov with
                    | VRef l' =>
                        if is_array h l' then (l', h) else alloc_in (array_of []) h
                    | _ => alloc_in (array_of []) h
                    end in
    (VRef l, baseMergeElems l 0 es h1).
Proof.
  assert (H : ∀ l es i h,
    (fix each (i : nat) (es : list lit) (h : gmap loc object) :=
       match es with
       | [] => h
       | e :: r =>
           let '(nv, h') := baseMergeDeep e (heap_get h l (pretty i)) h in
           each (S i) r (assignMergeValue l (pretty i) nv h')
       end) i es h = baseMergeElems l i es h).
  { clear. intros l es. induction es as [|e r IH]; intros i h; [done|].
    change (baseMergeElems l i (e :: r) h)
      with (let '(nv, h') := baseMergeDeep e (heap_get h l (pretty i)) h in
            baseMergeElems l (S i) r (assignMergeValue l (pretty i) nv h')).
    destruct (baseMergeDeep e (heap_get h l (pretty i)) h) as [nv h']. apply IH. }
  change (baseMergeDeep (LArr es) ov h)
    with (let '(l, h1) := match ov with
                          | VRef l' =>
                              if is_array h l' then (l', h)
                              else alloc_in (array_of []) h
                          | _ => alloc_in (array_of []) h
                          end in
          (VRef l,
           (fix each (i : nat) (es : list lit) (h : gmap loc object) :=
              match es with
              | [] => h
              | e :: r =>
                  let '(nv, h') := baseMergeDeep e (heap_get h l (pretty i)) h in
                  each (S i) r (assignMergeValue l (pretty i) nv h')
              end) 0%nat es h1)).
  destruct ov; try (destruct (is_array h l)); simpl; by rewrite H.
Qed.

Lemma baseMerge_cons l k s r h :
  baseMerge l ((k, s) :: r) h
  = baseMerge l r (assignMergeValue l k (baseMergeDeep s (heap_get h l k) h).1
                     (baseMergeDeep s (heap_get h l k) h).2).
Proof.
  change (baseMerge l ((k, s) :: r) h)
    with (let '(nv, h') := baseMergeDeep s (heap_get h l k) h in
          baseMerge l r (assignMergeValue l k nv h')).
  by destruct (baseMergeDeep s (heap_get h l k) h).
Qed.

Lemma baseMergeElems_cons l i e r h :
  baseMergeElems l i (e :: r) h
  = baseMergeElems l (S i) r
      (assignMergeValue l (pretty i)
         (baseMergeDeep e (heap_get h l (pretty i)) h).1
         (baseMergeDeep e (heap_get h l (pretty i)) h).2).
Proof.
  change (baseMergeElems l i (e :: r) h)
    with (let '(nv, h') := baseMergeDeep e (heap_get h l (pretty i)) h in
          baseMergeElems l (S i) r (assignMergeValue l (pretty i) nv h')).
  by destruct (baseMergeDeep e (heap_get h l (pretty i)) h).
Qed.

Lemma lit_outside_obj_cons N k s r :
  lit_outside N (LObj ((k, s) :: r)) → lit_outside N s ∧ lit_outside N (LObj r).
Proof. unfold lit_outside. simpl. by rewrite Forall_app. Qed.

Lemma lit_outside_arr_cons N e r :
  lit_outside N (LArr (e :: r)) → lit_outside N e ∧ lit_outside N (LArr r).
Proof. unfold lit_outside. simpl. by rewrite Forall_app. Qed.

Lemma baseMerge_keeps N l fs :
  l ∉ N →
  Forall (λ kv, merge_keeps N kv.2) fs →
  ∀ h, heap_sealed N h → lit_outside N (LObj fs) →
       heap_sealed N (baseMerge l fs h) ∧ frame N h (baseMerge l fs h).
Proof.
  intros Hl. induction 1 as [|[k s] r Hs _ IH]; intros h Hh Hout.
  - split; [done|by intros ? ?].
  - rewrite baseMerge_cons. apply lit_outside_obj_cons in Hout as [Ho1 Ho2].
    destruct (Hs (heap_get h l k) h Hh Ho1) as (H1 & H2 & H3).
    { by apply heap_get_outside. }
    destruct (IH (assignMergeValue l k (baseMergeDeep s (heap_get h l k) h).1
                    (baseMergeDeep s (heap_get h l k) h).2)) as [H4 H5].
    { by apply heap_sealed_assign. }
    { done. }
    split; [done|].
    eapply frame_trans; [exact H3|]. eapply frame_trans; [|exact H5].
    by apply frame_assign.
Qed.

Lemma baseMergeElems_keeps N l es :
  l ∉ N →
  Forall (merge_keeps N) es →
  ∀ i h, heap_sealed N h → lit_outside N (LArr es) →
         heap_sealed N (baseMergeElems l i es h)
         ∧ frame N h (baseMergeElems l i es h).
Proof.
  intros Hl. induction 1 as [|e r Hs _ IH]; intros i h Hh Hout.
  - split; [done|by intros ? ?].
  - rewrite baseMergeElems_cons. apply lit_outside_arr_cons in Hout as [Ho1 Ho2].
    destruct (Hs (heap_get h l (pretty i)) h Hh Ho1) as (H1 & H2 & H3).
    { by apply heap_get_outside. }
    destruct (IH (S i)
                (assignMergeValue l (pretty i)
                   (baseMergeDeep e (heap_get h l (pretty i)) h).1
                   (baseMergeDeep e (heap_get h l (pretty i)) h).2)) as [H4 H5].
    { by apply heap_sealed_assign. }
    { done. }
    split; [done|].
    eapply frame_trans; [exact H3|]. eapply frame_trans; [|exact H5].
    by apply frame_assign.
Qed.

Lemma alloc_in_keeps N o h :
  heap_sealed N h → fields_outside N (fields o) →
  ((alloc_in o h).1 ∉ N)
  ∧ heap_sealed N (alloc_in o h).2
  ∧ frame N h (alloc_in o h).2.
Proof.
  intros Hh Ho. unfold alloc_in. simpl.
  assert (Hf : fresh (dom h) ∉ N).
  { intros Hc. apply (is_fresh (dom h)). destruct Hh as [Hsub _]. set_solver. }
  split; [done|]. split; [by apply heap_sealed_insert|by apply frame_insert].
Qed.

Lemma index_fields_outside N vs :
  Forall (value_outside N) vs → fields_outside N (index_fields vs).
Proof.
  intros H k v Hk. unfold index_fields in Hk.
  apply elem_of_list_to_map_2 in Hk.
  apply elem_of_lookup_imap_1 in Hk as (i & x & [= -> ->] & Hx).
  rewrite Forall_forall in H. apply H. by apply list_elem_of_lookup_2 in Hx.
Qed.

Lemma baseMergeDeep_keeps N src : merge_keeps N src.
Proof.
  induction src as [v|fs IH|es IH] using lit_nested_ind; intros ov h Hh Hout Hov.
  - rewrite baseMergeDeep_atom. simpl. split; [done|]. split; [|by intros ? ?].
    unfold lit_outside in Hout. destruct v; simpl in *; try done.
    by inversion Hout.
  - rewrite baseMergeDeep_obj.
    assert (∃ l h1, match ov with
                    | VRef l' => (l', h)
                    | _ => alloc_in (plain ∅) h
                    end = (l, h1)
                    ∧ (l ∉ N) ∧ heap_sealed N h1 ∧ frame N h h1)
      as (l & h1 & -> & Hl & Hh1 & Hf1).
    { destruct (alloc_in_keeps N (plain ∅) h Hh) as (A1 & A2 & A3).
      { apply map_Forall_empty. }
      destruct ov; by eexists _, _; split; [apply surjective_pairing|]. }
    destruct (baseMerge_keeps N l fs Hl IH h1 Hh1 Hout) as [H1 H2].
    simpl. split; [done|]. split; [done|]. by eapply frame_trans.
  - rewrite baseMergeDeep_arr.
    assert (∃ l h1, match ov with
                    | VRef l' =>
                        if is_array h l' then (l', h) else alloc_in (array_of []) h
                    | _ => alloc_in (array_of []) h
                    end = (l, h1)
                    ∧ (l ∉ N) ∧ heap_sealed N h1 ∧ frame N h h1)
      as (l & h1 & -> & Hl & Hh1 & Hf1).
    { destruct (alloc_in_keeps N (array_of []) h Hh) as (A1 & A2 & A3).
      { apply map_Forall_empty. }
      destruct ov; try (by eexists _, _; split; [apply surjective_pairing|]).
      destruct (is_array h l);
        by eexists _, _; split; [apply surjective_pairing|]. }
    destruct (baseMergeElems_keeps N l es Hl IH 0%nat h1 Hh1 Hout) as [H1 H2].
    simpl. split; [done|]. split; [done|]. by eapply frame_trans.
Qed.

Section Safe.

Variable N : gset loc.

Lemma frame_refl h : frame N h h.
Proof. by intros ? ?. Qed.

Lemma safe_ret {A} (a : A) (post : A → Prop) : post a → safe N (ret a) post.
Proof. intros Ha s Hs. simpl. split; [done|]. split; [apply frame_refl|done]. Qed.

Lemma safe_bind {A B} (m : M A) (k : A → M B) (P : A → Prop) (Q : B → Prop) :
  safe N m P → (∀ a, P a → safe N (k a) Q) → safe N (bind m k) Q.
Proof.
  intros Hm Hk s Hs. unfold bind. specialize (Hm s Hs).
  destruct (m s) as [a s'|e s']; [|done].
  destruct Hm as (Hs' & Hf & Ha). specialize (Hk a Ha s' Hs').
  destruct (k a s') as [b s''|e s''].
  - destruct Hk as (H1 & H2 & H3). split; [done|]. split; [|done].
    by eapply frame_trans.
  - destruct Hk as (H1 & H2). split; [done|]. by eapply frame_trans.
Qed.

Lemma safe_try_catch {A} (m h : M A) (P : A → Prop) :
  safe N m P → safe N h P → safe N (try_catch m h) P.
Proof.
  intros Hm Hh s Hs. unfold try_catch. specialize (Hm s Hs).
  destruct (m s) as [a s'|e s']; [done|].
  destruct Hm as (Hs' & Hf). specialize (Hh s' Hs').
  destruct (h s') as [b s''|e' s''].
  - destruct Hh as (H1 & H2 & H3). split; [done|]. split; [|done].
    by eapply frame_trans.
  - destruct Hh as (H1 & H2). split; [done|]. by eapply frame_trans.
Qed.

Lemma safe_weaken {A} (m : M A) (P Q : A → Prop) :
  safe N m P → (∀ a, P a → Q a) → safe N m Q.
Proof.
  intros Hm HPQ s Hs. specialize (Hm s Hs). destruct (m s); [|done].
  destruct Hm as (H1 & H2 & H3). auto.
Qed.

Lemma safe_alloc (o : object) :
  fields_outside N (fields o) → safe N (alloc o) (λ l, l ∉ N).
Proof.
  intros Ho s [Hh Hr]. unfold alloc.
  destruct (alloc_in_keeps N o (heap s) Hh Ho) as (H1 & H2 & H3).
  destruct (alloc_in o (heap s)) as [l h']. simpl in *. done.
Qed.

Lemma OrdinaryGetMetadata_outside mk o pk (s : state) :
  roots_outside N s →
  value_outside N (Reflect.OrdinaryGetMetadata mk o pk (metadata s)).
Proof.
  intros Hr. destruct (OrdinaryGetMetadata_stored mk o pk (metadata s)) as [->|[k E]].
  - done.
  - specialize (Hr k _ E).
    by destruct (Reflect.OrdinaryGetMetadata mk o pk (metadata s)).
Qed.

Lemma safe_getMetadata mk t pk :
  safe N (Reflect.getMetadata mk t pk) (value_outside N).
Proof.
  intros s Hs. unfold Reflect.getMetadata. destruct t as [o|].
  - split; [done|]. split; [apply frame_refl|].
    apply OrdinaryGetMetadata_outside, Hs.
  - split; [done|apply frame_refl].
Qed.

Lemma safe_hasMetadata mk t pk :
  safe N (Reflect.hasMetadata mk t pk) (λ _, True).
Proof.
  intros s Hs. unfold Reflect.hasMetadata. destruct t as [o|].
  - split; [done|]. split; [apply frame_refl|done].
  - split; [done|apply frame_refl].
Qed.

Lemma safe_defineMetadata mk v t pk :
  value_outside N v → safe N (Reflect.defineMetadata mk v t pk) (λ _, True).
Proof.
  intros Hv s [Hh Hr]. unfold Reflect.defineMetadata. destruct t as [o|].
  - split; [|split; [apply frame_refl|done]]. split; [done|].
    unfold roots_outside. simpl. apply map_Forall_insert_2; [|done].
    by destruct v.
  - split; [done|apply frame_refl].
Qed.

Lemma chars_outside s : Forall (value_outside N) (chars s).
Proof. induction s; simpl; by constructor. Qed.

Lemma spread_fields_outside h v :
  heap_sealed N h → value_outside N v → fields_outside N (spread_fields h v).
Proof.
  intros [_ Hh] Hv. unfold fields_outside.
  destruct v as [| | | |str| |l]; simpl.
  1-4, 6: apply map_Forall_empty.
  - apply index_fields_outside, chars_outside.
  - destruct (h !! l) as [o|] eqn:E; [|apply map_Forall_empty].
    by apply (Hh l o E).
Qed.

Lemma safe_spread_object v :
  value_outside N v → safe N (spread_object v) (fields_outside N).
Proof.
  intros Hv s Hs. unfold spread_object. split; [done|].
  split; [apply frame_refl|]. apply spread_fields_outside; [apply Hs|done].
Qed.

Lemma spread_elems_outside h v vs :
  heap_sealed N h → value_outside N v → spread_elems h v = Some vs →
  Forall (value_outside N) vs.
Proof.
  intros [_ Hh] Hv. destruct v; simpl; try done.
  - intros [= <-]. apply chars_outside.
  - destruct (h !! l) as [o|] eqn:E; [|done].
    destruct (kind o); try done. intros [= <-].
    unfold array_elems. apply Forall_fmap, Forall_forall. intros i _. simpl.
    unfold obj_get. destruct (fields o !! pretty i) as [x|] eqn:Ex; [|done].
    by apply (Hh l o E Hv (pretty i) x).
Qed.

Lemma safe_spread_array v :
  value_outside N v → safe N (spread_array v) (Forall (value_outside N)).
Proof.
  intros Hv s Hs. unfold spread_array.
  destruct (spread_elems (heap s) v) as [vs|] eqn:E.
  - split; [done|]. split; [apply frame_refl|].
    eapply spread_elems_outside; [apply Hs|done|done].
  - split; [done|apply frame_refl].
Qed.

Lemma safe_merge l fs :
  l ∉ N → lit_outside N (LObj fs) → safe N (merge l fs) (λ l', l' ∉ N).
Proof.
  intros Hl Hfs s [Hh Hr]. unfold merge.
  destruct (baseMerge_keeps N l fs Hl) with (h := heap s) as [H1 H2]; try done.
  apply Forall_forall. intros kv _. apply baseMergeDeep_keeps.
Qed.

Lemma safe_get_prop v k :
  value_outside N v → safe N (get_prop v k) (value_outside N).
Proof.
  intros Hv s Hs. destruct v; simpl;
    try (split; [done|]; split; [apply frame_refl|done]);
    try (split; [done|apply frame_refl]).
  split; [done|]. split; [apply frame_refl|].
  apply heap_get_outside; [apply Hs|done].
Qed.

Lemma safe_set_prop l k v :
  l ∉ N → value_outside N v → safe N (set_prop l k v) (λ _, True).
Proof.
  intros Hl Hv s [Hh Hr]. unfold set_prop.
  split; [|split; [by apply frame_heap_set|done]].
  split; [by apply heap_sealed_heap_set|done].
Qed.

Lemma safe_Object_keys l : safe N (Object_keys l) (λ _, True).
Proof.
  intros s Hs. unfold Object_keys. split; [done|]. split; [apply frame_refl|done].
Qed.

Lemma instance_outside cls ty k :
  value_outside N ty → fields_outside N (fields (instance cls ty k)).
Proof.
  intros Hty. simpl. apply map_Forall_insert_2; [done|].
  apply map_Forall_insert_2; [done|]. apply map_Forall_empty.
Qed.

Lemma safe_resolve_each cls (new_C : value → string → M loc) props from keys :
  (∀ ty k, new_C ty k = alloc (instance cls ty k)) →
  props ∉ N → from ∉ N →
  safe N (resolve_each new_C props from keys) (λ _, True).
Proof.
  intros Hnew Hp Hf. induction keys as [|key rest IH]; simpl.
  - by apply safe_ret.
  - eapply safe_bind; [by apply safe_get_prop|]. intros options Ho.
    eapply safe_bind; [by apply safe_get_prop|]. intros ty Hty.
    eapply safe_bind; [rewrite Hnew; by apply safe_alloc, instance_outside|].
    intros q Hq.
    eapply safe_bind; [by apply safe_set_prop|]. intros _ _. exact IH.
Qed.

Lemma safe_copy mk t pk :
  safe N (let* m := Reflect.getMetadata mk t pk in
          let* fs := spread_object m in new_object fs) (λ l, l ∉ N).
Proof.
  eapply safe_bind; [apply safe_getMetadata|]. intros m Hm.
  eapply safe_bind; [by apply safe_spread_object|]. intros fs Hfs.
  by apply safe_alloc.
Qed.

Lemma lit_refs_indexed (es : list lit) (f : nat → string) :
  lit_refs (LObj (imap (λ i e, (f i, e)) es)) = lit_refs (LArr es).
Proof.
  simpl. revert f. induction es as [|e r IH]; intros f; simpl; [done|].
  f_equal. apply (IH (f ∘ S)).
Qed.

Lemma lit_refs_fields (kvs : list (string * value)) (l : loc) :
  l ∈ lit_refs (LObj ((λ kv, (kv.1, LAtom kv.2)) <$> kvs)) →
  ∃ k, (k, VRef l) ∈ kvs.
Proof.
  simpl. induction kvs as [|[k v] r IH]; simpl; intros H.
  - by apply elem_of_nil in H.
  - apply elem_of_app in H as [H|H].
    + destruct v; try (by apply elem_of_nil in H).
      apply list_elem_of_singleton in H as ->. exists k. by left.
    + destruct (IH H) as [k' Hk']. exists k'. by right.
Qed.

Lemma safe_computed_property key options :
  lit_outside N options →
  safe N (computed_property key options) (λ src, lit_outside N (LObj src)).
Proof.
  intros Ho s Hs. unfold computed_property. split; [done|].
  split; [apply frame_refl|]. case_decide.
  - destruct options as [v|fs|es].
    + destruct v as [| | | | | |l]; try done.
      destruct (heap s !! l) as [o|] eqn:E; [|by constructor].
      assert (Hl : l ∉ N) by (by inversion Ho).
      destruct Hs as [[_ Hh] _]. specialize (Hh l o E Hl).
      apply Forall_forall. intros l' Hl'.
      apply lit_refs_fields in Hl' as [k Hk].
      apply elem_of_map_to_list in Hk. apply (Hh k (VRef l') Hk).
    + exact Ho.
    + unfold lit_outside. by rewrite lit_refs_indexed.
  - unfold lit_outside in *. simpl. by rewrite app_nil_r.
Qed.

Lemma safe_define_merge mk t key options :
  lit_outside N options →
  safe N (let* old := Reflect.getMetadata mk (Some t) None in
          let* copy := spread_object old in
          let* object := new_object copy in
          let* source := computed_property key options in
          let* merged := merge object source in
          Reflect.defineMetadata mk (VRef merged) (Some t) None) (λ _, True).
Proof.
  intros Ho.
  eapply safe_bind; [apply safe_getMetadata|]. intros m Hm.
  eapply safe_bind; [by apply safe_spread_object|]. intros fs Hfs.
  eapply safe_bind; [by apply safe_alloc|]. intros l Hl.
  eapply safe_bind; [by apply safe_computed_property|]. intros src Hsrc.
  eapply safe_bind; [by apply safe_merge|].
  intros l' Hl'. by apply safe_defineMetadata.
Qed.

Lemma safe_getProperties c : safe N (getProperties c) (λ l, l ∉ N).
Proof.
  unfold getProperties.
  eapply safe_bind; [apply safe_alloc, map_Forall_empty|]. intros props Hp.
  eapply safe_bind; [apply safe_copy|]. intros attrs Ha.
  eapply safe_bind; [apply safe_copy|]. intros assocs Hb.
  eapply safe_bind; [apply safe_Object_keys|]. intros ks _.
  eapply safe_bind; [by apply (safe_resolve_each Attribute_class)|]. intros _ _.
  eapply safe_bind; [apply safe_Object_keys|]. intros ks' _.
  eapply safe_bind; [by apply (safe_resolve_each Association_class)|]. intros _ _.
  by apply safe_ret.
Qed.

Lemma safe_final {A} (m : M A) (P : A → Prop) (s : state) :
  safe N m P → sealed N s →
  sealed N (final_state (m s)) ∧ frame N (heap s) (heap (final_state (m s))).
Proof.
  intros Hm Hs. specialize (Hm s Hs). destruct (m s); simpl; tauto.
Qed.

Lemma step_keeps (o : op) (s : state) :
  sealed N s → op_outside N o →
  sealed N (step o s) ∧ frame N (heap s) (heap (step o s)).
Proof.
  intros Hs Ho. destruct o; simpl in Ho; unfold step.
  - apply (safe_final _ (λ _, True)); [|done]. unfold defineModelOptions.
    eapply safe_bind; [apply safe_getMetadata|]. intros m Hm.
    eapply safe_bind; [by apply safe_spread_object|]. intros fs Hfs.
    eapply safe_bind.
    { apply safe_alloc. simpl. by apply map_Forall_union_2. }
    intros l Hl. by apply safe_defineMetadata.
  - apply (safe_final _ (λ _, True)); [|done].
    by apply (safe_define_merge MODEL_ASSOCS_META_KEY).
  - apply (safe_final _ (λ _, True)); [|done].
    by apply (safe_define_merge MODEL_ATTRS_META_KEY).
  - apply (safe_final _ (λ _, True)); [|done]. unfold defineAttributeValidation.
    eapply safe_bind; [apply safe_getMetadata|]. intros m Hm.
    eapply safe_bind; [by apply safe_spread_array|]. intros vs Hvs.
    eapply safe_bind.
    { apply safe_alloc. simpl. apply index_fields_outside.
      apply Forall_app. split; [done|]. by constructor. }
    intros l Hl. by apply safe_defineMetadata.
  - apply (safe_final _ (λ _, True)); [|done]. unfold hasModelOptions.
    apply safe_try_catch; [apply safe_hasMetadata|by apply safe_ret].
  - apply (safe_final _ (λ l, l ∉ N)); [|done]. apply safe_copy.
  - apply (safe_final _ (λ l, l ∉ N)); [|done]. apply safe_copy.
  - apply (safe_final _ (λ l, l ∉ N)); [|done]. apply safe_copy.
  - apply (safe_final _ (λ l, l ∉ N)); [|done]. unfold getAttributeValidations.
    eapply safe_bind; [apply safe_getMetadata|]. intros m Hm.
    eapply safe_bind; [by apply safe_spread_array|]. intros vs Hvs.
    apply safe_alloc. simpl. by apply index_fields_outside.
  - apply (safe_final _ (λ l, l ∉ N)); [|done]. apply safe_getProperties.
Qed.

Lemma exec_keeps (ops : list op) :
  ∀ s, sealed N s → Forall (op_outside N) ops →
       sealed N (exec ops s) ∧ frame N (heap s) (heap (exec ops s)).
Proof.
  induction ops as [|o ops IH]; intros s Hs Hops; simpl.
  - split; [done|apply frame_refl].
  - apply Forall_cons in Hops as [Ho Hops].
    destruct (step_keeps o s Hs Ho) as [H1 H2].
    destruct (IH (step o s) H1 Hops) as [H3 H4].
    split; [done|]. by eapply frame_trans.
Qed.

End Safe.

(** The objects created from a closed store are sealed in the store that
    results, provided the old objects were left alone. *)
Lemma sealed_new_objects (s s' : state) :
  closed s →
  metadata s' = metadata s →
  (∀ l, l ∈ dom (heap s) → heap s' !! l = heap s !! l) →
  sealed (dom (heap s') ∖ dom (heap s)) s'.
Proof.
  intros [Hcm Hch] Hmd Hold. split; [split|].
  - intros x Hx. by apply elem_of_difference in Hx as [? _].
  - intros l o Hl Hn k v Hk. destruct v as [| | | | | |l']; try done. simpl.
    assert (Hd : l ∈ dom (heap s)).
    { destruct (decide (l ∈ dom (heap s))) as [|Hnd]; [done|].
      exfalso. apply Hn. apply elem_of_difference. split; [|done].
      apply elem_of_dom. eauto. }
    rewrite (Hold l Hd) in Hl. specialize (Hch l o Hl k _ Hk). simpl in Hch.
    intros Hc. by apply elem_of_difference in Hc as [_ Hc].
  - unfold roots_outside. rewrite Hmd. intros k v Hk.
    destruct v as [| | | | | |l']; try done.
    specialize (Hcm k _ Hk). simpl in Hcm.
    intros Hc. by apply elem_of_difference in Hc as [_ Hc].
Qed.

Lemma getModelOptions_returns (c : ctor) (o : objref) (s : state) :
  prototype c = Some o →
  ∃ l s1 ol,
    getModelOptions c s = Return l s1
    ∧ metadata s1 = metadata s
    ∧ (l ∉ dom (heap s))
    ∧ heap s1 !! l = Some ol
    ∧ (∀ x, x ∈ dom (heap s) → heap s1 !! x = heap s !! x).
Proof.
  intros Hp. unfold getModelOptions, bind, Reflect.getMetadata, spread_object,
    new_object, alloc, alloc_in. rewrite Hp. simpl.
  eexists _, _, _. split; [reflexivity|]. simpl. split; [done|].
  split; [apply is_fresh|]. split; [apply lookup_insert_eq|].
  intros x Hx. apply lookup_insert_ne. intros <-. by apply (is_fresh (dom (heap s))).
Qed.

(** C9, as stated, fails: [new Attribute(options.type, key)] keeps a
    reference to the stored type object, and a later declaration of a type
    for the same key is merged into that object in place, so the type read
    through the mapping resolved earlier changes from tag 0 to tag 1. *)
Lemma later_declaration_visible : ¬ later_declaration_invisible.
Proof.
  intros H.
  specialize (H User User_prototype typed_id 3%nat
                (final_state (getProperties User typed_id)) "id"
                (LObj [("type", LObj [("type", LAtom (VNum 1))])])
                ["id"; "type"; "type"] eq_refl).
  assert (Hc : closed typed_id).
  { apply (bool_decide_unpack _). vm_compute. exact I. }
  specialize (H Hc eq_refl eq_refl). vm_compute in H. discriminate H.
Qed.

(** C9 (amended): the record returned by [getModelOptions], the mapping
    returned by [getProperties] and every property instance in it are new
    objects, and no later sequence of registry operations writes to them,
    as long as the arguments of those operations do not hand these very
    objects back to the registry. (Objects they refer to, such as an
    attribute type, stay shared with the store.) *)
Theorem snapshot_is_shallow (c : ctor) (o : objref) (s : state) (ops : list op) :
  prototype c = Some o →
  closed s →
  resolvable s o →
  Forall (op_outside (new_objects (getModelOptions c) s)) ops →
  Forall (op_outside (new_objects (getProperties c) s)) ops →
  (∃ l s1 ol,
     getModelOptions c s = Return l s1
     ∧ heap s1 !! l = Some ol
     ∧ heap (exec ops s1) !! l = Some ol)
  ∧ (∃ p s1 op,
       getProperties c s = Return p s1
       ∧ heap s1 !! p = Some op
       ∧ heap (exec ops s1) !! p = Some op
       ∧ ∀ k q, fields op !! k = Some (VRef q) →
                ∃ oq, heap s1 !! q = Some oq
                      ∧ heap (exec ops s1) !! q = Some oq).
Proof.
  intros Hp Hc Hres Hops1 Hops2. split.
  - destruct (getModelOptions_returns c o s Hp)
      as (l & s1 & ol & Hrun & Hmd & Hl & Hol & Hold).
    exists l, s1, ol. split; [done|]. split; [done|].
    unfold new_objects in Hops1. rewrite Hrun in Hops1. simpl in Hops1.
    destruct (exec_keeps _ ops s1 (sealed_new_objects s s1 Hc Hmd Hold) Hops1)
      as [_ Hf].
    rewrite Hf; [done|]. apply elem_of_difference. split; [|done].
    apply elem_of_dom. eauto.
  - destruct (getProperties_resolvable c o s Hp Hres)
      as (p & s1 & op & Hrun & Hmd & Hpn & Hold & Hop & _ & _ & Hnone & Hassoc
          & Hattr).
    exists p, s1, op. split; [done|]. split; [done|].
    unfold new_objects in Hops2. rewrite Hrun in Hops2. simpl in Hops2.
    destruct (exec_keeps _ ops s1 (sealed_new_objects s s1 Hc Hmd Hold) Hops2)
      as [_ Hf].
    split.
    { rewrite Hf; [done|]. apply elem_of_difference. split; [|done].
      apply elem_of_dom. eauto. }
    intros k q Hk.
    assert (∃ oq, heap s1 !! q = Some oq ∧ q ∉ dom (heap s)) as (oq & Hq & Hqn).
    { destruct (meta_fields s MODEL_ASSOCS_META_KEY o !! k) as [vb|] eqn:Eb.
      - destruct (Hassoc k vb Eb) as (q' & H1 & H2 & H3).
        rewrite H1 in Hk. injection Hk as <-. eauto.
      - destruct (meta_fields s MODEL_ATTRS_META_KEY o !! k) as [va|] eqn:Ea.
        + destruct (Hattr k va Ea Eb) as (q' & H1 & H2 & H3).
          rewrite H1 in Hk. injection Hk as <-. eauto.
        + by rewrite (Hnone k Ea Eb) in Hk. }
    exists oq. split; [done|].
    rewrite Hf; [done|]. apply elem_of_difference. split; [|done].
    apply elem_of_dom. eauto.
Qed.

Lemma snapshot_is_shallow_witness :
  let ops := [OpDefineAttribute User_prototype "id"
                (LObj [("type", LObj [("type", LAtom (VNum 1))])]);
              OpDefineModelOptions User {["name" := VStr "user"]};
              OpDefineAssociation User_prototype "owner"
                (LObj [("type", LAtom (VNum 2)); ("target", LAtom (VFun 7))])] in
  (∃ l s1 ol,
     getModelOptions User typed_id = Return l s1
     ∧ heap s1 !! l = Some ol
     ∧ heap (exec ops s1) !! l = Some ol)
  ∧ (∃ p s1 op,
       getProperties User typed_id = Return p s1
       ∧ heap s1 !! p = Some op
       ∧ heap (exec ops s1) !! p = Some op
       ∧ ∀ k q, fields op !! k = Some (VRef q) →
                ∃ oq, heap s1 !! q = Some oq
                      ∧ heap (exec ops s1) !! q = Some oq).
Proof.
  apply (snapshot_is_shallow User User_prototype typed_id).
  - reflexivity.
  - apply (bool_decide_unpack _). vm_compute. exact I.
  - apply (bool_decide_unpack _). vm_compute. exact I.
  - apply (bool_decide_unpack _). vm_compute. exact I.
  - apply (bool_decide_unpack _). vm_compute. exact I.
Defined.

(** * Further properties of the registry *)

(** ** The metadata table under one more entry *)

Lemma OrdinaryGetMetadata_insert_other (mk mk' : string) (o : objref)
    (pk pk' : option string) (i : nat) (v : value)
    (md : gmap (nat * option string * string) value) :
  (pk', mk') ≠ (pk, mk) →
  Reflect.OrdinaryGetMetadata mk' o pk' (<[(i, pk, mk) := v]> md)
  = Reflect.OrdinaryGetMetadata mk' o pk' md.
Proof.
  intros Hne. induction o as [j|j o IH] using objref_chain_ind; simpl.
  - rewrite lookup_insert_ne by congruence. done.
  - rewrite lookup_insert_ne by congruence. by rewrite IH.
Qed.

Lemma OrdinaryGetMetadata_insert_off_chain (mk mk' : string) (o : objref)
    (pk pk' : option string) (i : nat) (v : value)
    (md : gmap (nat * option string * string) value) :
  i ∉ chain o →
  Reflect.OrdinaryGetMetadata mk' o pk' (<[(i, pk, mk) := v]> md)
  = Reflect.OrdinaryGetMetadata mk' o pk' md.
Proof.
  induction o as [j|j o IH] using objref_chain_ind; simpl; intros Hi.
  - apply not_elem_of_cons in Hi as [Hij _].
    rewrite lookup_insert_ne by congruence. done.
  - apply not_elem_of_cons in Hi as [Hij Hi].
    rewrite lookup_insert_ne by congruence. by rewrite IH.
Qed.

Lemma OrdinaryHasMetadata_spec (mk : string) (o : objref) (pk : option string)
    (md : gmap (nat * option string * string) value) :
  Reflect.OrdinaryHasMetadata mk o pk md = true
  ↔ ∃ i, i ∈ chain o ∧ is_Some (md !! (i, pk, mk)).
Proof.
  induction o as [j|j o IH] using objref_chain_ind; simpl.
  - destruct (md !! (j, pk, mk)) eqn:E.
    + split; [|done]. intros _. exists j. split; [by left|]. rewrite E. eauto.
    + split; [done|]. intros (i & Hi & Hs).
      apply list_elem_of_singleton in Hi as ->. rewrite E in Hs. by destruct Hs.
  - destruct (md !! (j, pk, mk)) eqn:E.
    + split; [|done]. intros _. exists j. split; [by left|]. rewrite E. eauto.
    + rewrite IH. split.
      * intros (i & Hi & Hs). exists i. split; [by right|done].
      * intros (i & Hi & Hs). apply elem_of_cons in Hi as [->|Hi].
        { rewrite E in Hs. by destruct Hs. }
        eauto.
Qed.

(** ** The shared merge path *)

Lemma defineAttribute_define_merge :
  defineAttribute = define_merge MODEL_ATTRS_META_KEY.
Proof. reflexivity. Qed.

Lemma defineAssociation_define_merge :
  defineAssociation = define_merge MODEL_ASSOCS_META_KEY.
Proof. reflexivity. Qed.

(** For a key other than [__proto__] the literal [{ [key]: options }] has
    the one property, and the declaration is a merge of it into a copy of
    the type's key map. *)
Lemma define_merge_ordinary (mk : string) (t : objref) (key : string)
    (options : lit) (s : state) :
  key ≠ "__proto__" →
  define_merge mk t key options s
  = Return tt
      (State (baseMerge (fresh (dom (heap s))) [(key, options)]
                (<[fresh (dom (heap s)) := plain (meta_fields s mk t)]> (heap s)))
             (<[(oid_of t, None, mk) := VRef (fresh (dom (heap s)))]> (metadata s))).
Proof.
  intros H.
  unfold define_merge, bind, Reflect.getMetadata, spread_object, new_object,
    alloc, alloc_in, computed_property, merge, Reflect.defineMetadata.
  by rewrite decide_False.
Qed.


(** A flat declaration for a key that has a record: the record is updated
    in place, the target gets a new top-level map with the same entries,
    and nothing else changes. *)
Lemma define_merge_existing (mk : string) (t : objref) (key : string)
    (P : list (string * value)) (s : state) (la0 : loc) (oa : object)
    (r : loc) (orec : object) :
  key ≠ "__proto__" →
  meta_value s mk t = VRef la0 →
  heap s !! la0 = Some oa →
  fields oa !! key = Some (VRef r) →
  heap s !! r = Some orec →
  ∃ s' la,
    define_merge mk t key (LObj (atoms P)) s = Return tt s'
    ∧ la = fresh (dom (heap s))
    ∧ metadata s' = <[(oid_of t, None, mk) := VRef la]> (metadata s)
    ∧ heap s' !! la = Some (plain (fields oa))
    ∧ heap s' !! r = Some (assign_all orec P)
    ∧ (∀ l, l ≠ la → l ≠ r → heap s' !! l = heap s !! l).
Proof.
  intros Hproto Hm Hla0 Hkey Hr.
  rewrite define_merge_ordinary by done.
  assert (Hmf : meta_fields s mk t = fields oa).
  { unfold meta_fields. rewrite Hm. simpl. by rewrite Hla0. }
  rewrite Hmf.
  set (la := fresh (dom (heap s))).
  assert (Hla : la ∉ dom (heap s)) by apply is_fresh.
  assert (Hlar : la ≠ r).
  { intros ->. apply Hla. apply elem_of_dom. eauto. }
  set (h1 := <[la := plain (fields oa)]> (heap s)).
  assert (Hget : heap_get h1 la key = VRef r).
  { unfold heap_get, h1, obj_get. rewrite lookup_insert_eq. simpl. by rewrite Hkey. }
  rewrite baseMerge_single, Hget, baseMergeDeep_obj. simpl.
  rewrite (baseMerge_atoms r P h1 orec)
    by (unfold h1; by rewrite lookup_insert_ne).
  rewrite (assignMergeValue_lookup la key (VRef r) _ (plain (fields oa)))
    by (rewrite lookup_insert_ne by done; apply lookup_insert_eq).
  rewrite assign_obj_same by done.
  eexists _, la. split; [reflexivity|]. simpl.
  split; [done|]. split; [done|]. split; [apply lookup_insert_eq|]. split.
  { rewrite lookup_insert_ne by done. apply lookup_insert_eq. }
  intros l H1 H2.
  rewrite lookup_insert_ne by done. rewrite lookup_insert_ne by done.
  unfold h1. by apply lookup_insert_ne.
Qed.

(** A flat declaration for a key that has no entry: a new record is
    created and entered in the new top-level map. *)
Lemma define_merge_first (mk : string) (t : objref) (key : string)
    (P : list (string * value)) (s : state) :
  key ≠ "__proto__" →
  meta_fields s mk t !! key = None →
  ∃ s' la r,
    define_merge mk t key (LObj (atoms P)) s = Return tt s'
    ∧ la = fresh (dom (heap s))
    ∧ r = fresh (dom (<[la := plain (meta_fields s mk t)]> (heap s)))
    ∧ (r ∉ dom (heap s)) ∧ r ≠ la
    ∧ metadata s' = <[(oid_of t, None, mk) := VRef la]> (metadata s)
    ∧ heap s' !! la = Some (plain (<[key := VRef r]> (meta_fields s mk t)))
    ∧ heap s' !! r = Some (assign_all (plain ∅) P)
    ∧ (∀ l, l ≠ la → l ≠ r → heap s' !! l = heap s !! l).
Proof.
  intros Hproto Hkey.
  rewrite define_merge_ordinary by done.
  set (A := meta_fields s mk t) in *.
  set (la := fresh (dom (heap s))).
  assert (Hla : la ∉ dom (heap s)) by apply is_fresh.
  set (h1 := <[la := plain A]> (heap s)).
  assert (Hget : heap_get h1 la key = VUndefined).
  { unfold heap_get, h1, obj_get. rewrite lookup_insert_eq. simpl. by rewrite Hkey. }
  rewrite baseMerge_single, Hget, baseMergeDeep_obj. unfold alloc_in. simpl.
  set (r := fresh (dom h1)).
  assert (Hr : r ∉ dom h1) by apply is_fresh.
  assert (Hrla : r ≠ la).
  { intros E. apply Hr. rewrite E. apply dom_insert_new. }
  assert (Hrs : r ∉ dom (heap s)).
  { intros Hc. apply Hr. by apply dom_insert_old. }
  rewrite (baseMerge_atoms r P _ (plain ∅)) by apply lookup_insert_eq.
  rewrite insert_insert_eq.
  rewrite (assignMergeValue_lookup la key (VRef r) _ (plain A))
    by (rewrite lookup_insert_ne by done; apply lookup_insert_eq).
  assert (Ha : assign_obj key (VRef r) (plain A) = plain (<[key := VRef r]> A)).
  { unfold assign_obj. rewrite decide_False by done.
    rewrite decide_False; [done|]. unfold obj_get. simpl. by rewrite Hkey. }
  rewrite Ha.
  eexists _, la, r. split; [reflexivity|]. simpl.
  split; [done|]. split; [done|]. split; [done|]. split; [done|]. split; [done|].
  split; [apply lookup_insert_eq|]. split.
  { rewrite lookup_insert_ne by done. apply lookup_insert_eq. }
  intros l H1 H2.
  rewrite lookup_insert_ne by done. rewrite lookup_insert_ne by done.
  unfold h1. by apply lookup_insert_ne.
Qed.

(** ** Model options *)

(** X1: [hasModelOptions] never raises and never changes the store; it
    answers true exactly when the constructor has a prototype object and
    some object on its prototype chain carries model options. *)
Theorem hasModelOptions_spec (c : ctor) (s : state) :
  ∃ b, hasModelOptions c s = Return b s
       ∧ (b = true ↔
          ∃ o i, prototype c = Some o ∧ i ∈ chain o
                 ∧ is_Some (metadata s !! (i, None, MODEL_OPTIONS_META_KEY))).
Proof.
  unfold hasModelOptions, try_catch, Reflect.hasMetadata, ret.
  destruct (prototype c) as [o|] eqn:Hp.
  - eexists. split; [reflexivity|]. rewrite OrdinaryHasMetadata_spec. split.
    + intros (i & Hi & Hs). by exists o, i.
    + intros (o' & i & [= <-] & Hi & Hs). by exists i.
  - exists false. split; [done|]. split; [done|]. by intros (o & i & Ho & _).
Qed.


Lemma defineModelOptions_writes (c : ctor) (o : objref)
    (options : gmap string value) (s : state) :
  prototype c = Some o →
  defineModelOptions c options s
  = Return tt
      (State (<[fresh (dom (heap s))
                := plain (options ∪ meta_fields s MODEL_OPTIONS_META_KEY o)]> (heap s))
             (<[(oid_of o, None, MODEL_OPTIONS_META_KEY) := VRef (fresh (dom (heap s)))]>
                (metadata s))).
Proof.
  intros Hp. unfold defineModelOptions, bind, Reflect.getMetadata, spread_object,
    new_object, alloc, alloc_in, Reflect.defineMetadata. by rewrite Hp.
Qed.



(** X3: [defineModelOptions] writes one metadata entry, on the prototype
    of its constructor, and keeps every existing object: what any type
    resolves to under another metadata key, and what a type whose chain
    does not pass through that prototype (a base class, an unrelated
    class) resolves to under any key, is unchanged. *)
Theorem defineModelOptions_leaves_others (c : ctor) (o : objref)
    (options : gmap string value) (s : state) (mk : string) (o' : objref) :
  prototype c = Some o →
  mk ≠ MODEL_OPTIONS_META_KEY ∨ oid_of o ∉ chain o' →
  value_closed (dom (heap s)) (meta_value s mk o') →
  meta_fields (final_state (defineModelOptions c options s)) mk o'
  = meta_fields s mk o'.
Proof.
  intros Hp Hor Hcl. rewrite (defineModelOptions_writes c o options s Hp). simpl.
  unfold meta_fields, meta_value. simpl.
  assert (E : Reflect.OrdinaryGetMetadata mk o' None
                (<[(oid_of o, None, MODEL_OPTIONS_META_KEY)
                   := VRef (fresh (dom (heap s)))]> (metadata s))
              = Reflect.OrdinaryGetMetadata mk o' None (metadata s)).
  { destruct Hor as [Hmk|Hch].
    - apply OrdinaryGetMetadata_insert_other. congruence.
    - by apply OrdinaryGetMetadata_insert_off_chain. }
  rewrite E. apply spread_fields_frame. intros l Hl.
  apply lookup_insert_ne. intros <-. unfold meta_value in Hcl. rewrite Hl in Hcl.
  by apply (is_fresh (dom (heap s))).
Qed.

Lemma defineModelOptions_leaves_others_witness :
  meta_fields
    (final_state (defineModelOptions Derived {["name" := VStr "derived"]}
                    Base_declared))
    MODEL_OPTIONS_META_KEY Base_prototype
  = meta_fields Base_declared MODEL_OPTIONS_META_KEY Base_prototype.
Proof.
  apply (defineModelOptions_leaves_others Derived (ObjRef 2 (Some Base_prototype))).
  - reflexivity.
  - right. simpl. intros H. apply list_elem_of_singleton in H. discriminate H.
  - apply (bool_decide_unpack _). vm_compute. exact I.
Defined.


Section ModelInherits.

Variable camelCase : string → string.


End ModelInherits.


(** ** The readers write nothing *)

Section ReadsOnly.

Variable D : gset loc.

Lemma reads_only_ret {A} (a : A) (post : A → Prop) :
  post a → reads_only D (ret a) post.
Proof. intros Ha s Hs. simpl. done. Qed.

Lemma reads_only_bind {A B} (m : M A) (k : A → M B) (P : A → Prop) (Q : B → Prop) :
  reads_only D m P → (∀ a, P a → reads_only D (k a) Q) →
  reads_only D (bind m k) Q.
Proof.
  intros Hm Hk s Hs. unfold bind. destruct (Hm s Hs) as (H1 & H2 & H3 & H4).
  destruct (m s) as [a s'|e s']; simpl in *; [|done].
  destruct (Hk a H4 s' H1) as (K1 & K2 & K3 & K4).
  split; [done|]. split; [by rewrite K2|]. split; [|done].
  intros l Hl. by rewrite K3, H3.
Qed.

Lemma reads_only_try_catch {A} (m h : M A) (P : A → Prop) :
  reads_only D m P → reads_only D h P → reads_only D (try_catch m h) P.
Proof.
  intros Hm Hh s Hs. unfold try_catch. destruct (Hm s Hs) as (H1 & H2 & H3 & H4).
  destruct (m s) as [a s'|e s']; simpl in *; [done|].
  destruct (Hh s' H1) as (K1 & K2 & K3 & K4).
  split; [done|]. split; [by rewrite K2|]. split; [|done].
  intros l Hl. by rewrite K3, H3.
Qed.

Lemma reads_only_pure {A} (m : M A) :
  (∀ s, final_state (m s) = s) → reads_only D m (λ _, True).
Proof.
  intros H s Hs. rewrite H. split; [done|]. split; [done|]. split; [done|].
  by destruct (m s).
Qed.

Lemma reads_only_alloc (o : object) : reads_only D (alloc o) (λ l, l ∉ D).
Proof.
  intros s Hs. unfold alloc, alloc_in. simpl.
  assert (Hf : fresh (dom (heap s)) ∉ D).
  { intros Hc. by apply (is_fresh (dom (heap s))), Hs. }
  split.
  { intros l Hl. by apply dom_insert_old, Hs. }
  split; [done|]. split; [|done].
  intros l Hl. apply lookup_insert_ne. by intros <-.
Qed.

Lemma reads_only_set_prop l k v :
  l ∉ D → reads_only D (set_prop l k v) (λ _, True).
Proof.
  intros Hl s Hs. unfold set_prop. simpl. split.
  { unfold heap_set. by rewrite dom_alter_L. }
  split; [done|]. split; [|done].
  intros l' Hl'. unfold heap_set. apply lookup_alter_ne. by intros <-.
Qed.

Lemma reads_only_get_prop v k : reads_only D (get_prop v k) (λ _, True).
Proof. apply reads_only_pure. intros s. by destruct v. Qed.

Lemma reads_only_getMetadata mk t pk :
  reads_only D (Reflect.getMetadata mk t pk) (λ _, True).
Proof. apply reads_only_pure. intros s. by destruct t. Qed.

Lemma reads_only_hasMetadata mk t pk :
  reads_only D (Reflect.hasMetadata mk t pk) (λ _, True).
Proof. apply reads_only_pure. intros s. by destruct t. Qed.

Lemma reads_only_spread_object v : reads_only D (spread_object v) (λ _, True).
Proof. by apply reads_only_pure. Qed.

Lemma reads_only_spread_array v : reads_only D (spread_array v) (λ _, True).
Proof.
  apply reads_only_pure. intros s. unfold spread_array.
  by destruct (spread_elems (heap s) v).
Qed.

Lemma reads_only_Object_keys l : reads_only D (Object_keys l) (λ _, True).
Proof. by apply reads_only_pure. Qed.

Lemma reads_only_copy mk t pk :
  reads_only D (let* m := Reflect.getMetadata mk t pk in
                let* fs := spread_object m in new_object fs) (λ l, l ∉ D).
Proof.
  eapply reads_only_bind; [apply reads_only_getMetadata|]. intros m _.
  eapply reads_only_bind; [apply reads_only_spread_object|]. intros fs _.
  apply reads_only_alloc.
Qed.

Lemma reads_only_weaken {A} (m : M A) (P Q : A → Prop) :
  reads_only D m P → (∀ a, P a → Q a) → reads_only D m Q.
Proof.
  intros Hm HPQ s Hs. destruct (Hm s Hs) as (H1 & H2 & H3 & H4).
  split; [done|]. split; [done|]. split; [done|].
  destruct (m s); [by apply HPQ|done].
Qed.

Lemma reads_only_resolve_each cls (new_C : value → string → M loc) props from keys :
  (∀ ty k, new_C ty k = alloc (instance cls ty k)) →
  props ∉ D →
  reads_only D (resolve_each new_C props from keys) (λ _, True).
Proof.
  intros Hnew Hp. induction keys as [|key rest IH]; simpl.
  - by apply reads_only_ret.
  - eapply reads_only_bind; [apply reads_only_get_prop|]. intros options _.
    eapply reads_only_bind; [apply reads_only_get_prop|]. intros ty _.
    eapply reads_only_bind; [rewrite Hnew; apply reads_only_alloc|]. intros q _.
    eapply reads_only_bind; [by apply reads_only_set_prop|]. intros _ _. exact IH.
Qed.

Lemma reads_only_getProperties c : reads_only D (getProperties c) (λ _, True).
Proof.
  unfold getProperties.
  eapply reads_only_bind; [apply reads_only_alloc|]. intros props Hp.
  eapply reads_only_bind; [apply reads_only_copy|]. intros attrs _.
  eapply reads_only_bind; [apply reads_only_copy|]. intros assocs _.
  eapply reads_only_bind; [apply reads_only_Object_keys|]. intros ks _.
  eapply reads_only_bind;
    [by apply (reads_only_resolve_each Attribute_class)|]. intros _ _.
  eapply reads_only_bind; [apply reads_only_Object_keys|]. intros ks' _.
  eapply reads_only_bind;
    [by apply (reads_only_resolve_each Association_class)|]. intros _ _.
  by apply reads_only_ret.
Qed.

Lemma reads_only_reader (o : op) (s : state) :
  is_reader o = true →
  D ⊆ dom (heap s) →
  D ⊆ dom (heap (step o s))
  ∧ metadata (step o s) = metadata s
  ∧ (∀ l, l ∈ D → heap (step o s) !! l = heap s !! l).
Proof.
  intros Ho Hs. destruct o; try discriminate Ho; unfold step.
  - destruct (reads_only_try_catch _ _ _ (reads_only_hasMetadata
                MODEL_OPTIONS_META_KEY (prototype c) None)
                (reads_only_ret false _ I) s Hs) as (H1 & H2 & H3 & _). done.
  - destruct (reads_only_copy MODEL_OPTIONS_META_KEY (prototype c) None s Hs)
      as (H1 & H2 & H3 & _). done.
  - destruct (reads_only_copy MODEL_ASSOCS_META_KEY (prototype c) None s Hs)
      as (H1 & H2 & H3 & _). done.
  - destruct (reads_only_copy MODEL_ATTRS_META_KEY (prototype c) None s Hs)
      as (H1 & H2 & H3 & _). done.
  - assert (Hr : reads_only D (getAttributeValidations c key) (λ l, l ∉ D)).
    { unfold getAttributeValidations.
      eapply reads_only_bind; [apply reads_only_getMetadata|]. intros m _.
      eapply reads_only_bind; [apply reads_only_spread_array|]. intros vs _.
      apply reads_only_alloc. }
    destruct (Hr s Hs) as (H1 & H2 & H3 & _). done.
  - destruct (reads_only_getProperties c s Hs) as (H1 & H2 & H3 & _). done.
Qed.

End ReadsOnly.

Lemma readers_frame (D : gset loc) (ops : list op) :
  Forall (λ o, is_reader o = true) ops →
  ∀ s, D ⊆ dom (heap s) →
       D ⊆ dom (heap (exec ops s))
       ∧ metadata (exec ops s) = metadata s
       ∧ (∀ l, l ∈ D → heap (exec ops s) !! l = heap s !! l).
Proof.
  induction 1 as [|o ops Ho _ IH]; intros s Hs; simpl.
  - done.
  - destruct (reads_only_reader D o s Ho Hs) as (H1 & H2 & H3).
    destruct (IH (step o s) H1) as (K1 & K2 & K3).
    split; [done|]. split; [by rewrite K2|].
    intros l Hl. by rewrite K3, H3.
Qed.

(** X5: the readers ([hasModelOptions], [getModelOptions],
    [getAssociations], [getAttributes], [getAttributeValidations],
    [getProperties]), run any number of times in any order, write no
    metadata entry and leave every existing object as it was, also when
    they throw; so every type resolves to the same declarations
    afterwards. *)
Theorem readers_write_nothing (ops : list op) (s : state) :
  Forall (λ o, is_reader o = true) ops →
  metadata (exec ops s) = metadata s
  ∧ (∀ l, l ∈ dom (heap s) → heap (exec ops s) !! l = heap s !! l)
  ∧ (∀ mk o, value_closed (dom (heap s)) (meta_value s mk o) →
             meta_fields (exec ops s) mk o = meta_fields s mk o).
Proof.
  intros Hops.
  destruct (readers_frame (dom (heap s)) ops Hops s) as (H1 & H2 & H3); [done|].
  split; [done|]. split; [done|].
  intros mk o Hcl. unfold meta_fields, meta_value in *. rewrite H2.
  apply spread_fields_frame. intros l Hl. rewrite Hl in Hcl. by apply H3.
Qed.

Lemma readers_write_nothing_witness :
  let ops := [OpGetProperties User; OpGetAttributeValidations User "id";
              OpGetProperties arrow; OpGetAttributes User] in
  metadata (exec ops collided) = metadata collided
  ∧ (∀ l, l ∈ dom (heap collided) → heap (exec ops collided) !! l = heap collided !! l)
  ∧ (∀ mk o, value_closed (dom (heap collided)) (meta_value collided mk o) →
             meta_fields (exec ops collided) mk o = meta_fields collided mk o).
Proof.
  apply (readers_write_nothing _ collided). repeat constructor.
Defined.

(** ** The keys of the resolved mapping *)



(** ** Flat partials, property by property *)

Lemma obj_in_ext o1 o2 k :
  fields o1 !! k = fields o2 !! k → kind o1 = kind o2 →
  obj_in o1 k = obj_in o2 k.
Proof. intros Hf Hk. unfold obj_in. by rewrite Hf, Hk. Qed.

Lemma assigned_ext o1 o2 k v :
  fields o1 !! k = fields o2 !! k → kind o1 = kind o2 →
  assigned o1 k v = assigned o2 k v.
Proof.
  intros Hf Hk. unfold assigned. by rewrite Hf, (obj_in_ext o1 o2 k Hf Hk).
Qed.

Lemma assigned_defined o k v : v ≠ VUndefined → assigned o k v = Some v.
Proof. intros Hv. unfold assigned. by rewrite decide_False. Qed.

Lemma assigned_kept o k x :
  fields o !! k = Some x → assigned o k VUndefined = Some x.
Proof.
  intros Hx. unfold assigned. rewrite decide_True by done.
  by rewrite obj_in_own by eauto.
Qed.

Lemma assign_obj_assigned k v o :
  fields (assign_obj k v o) !! k = assigned o k v.
Proof.
  unfold assigned. destruct (decide (v = VUndefined)) as [->|Hv];
    [|by apply assign_obj_defined].
  unfold assign_obj. rewrite decide_True by done.
  destruct (obj_in o k); [done|]. simpl. apply lookup_insert_eq.
Qed.

Lemma assign_all_present fs f v :
  ∀ o, NoDup fs.*1 → (f, v) ∈ fs →
       fields (assign_all o fs) !! f = assigned o f v.
Proof.
  unfold assign_all.
  induction fs as [|[k w] r IH]; intros o Hnd Hin; simpl.
  - by apply elem_of_nil in Hin.
  - simpl in Hnd. apply NoDup_cons in Hnd as [Hk Hnd].
    apply elem_of_cons in Hin as [[= <- <-]|Hin].
    + pose proof (assign_all_absent r f (assign_obj f v o) Hk) as Ha.
      unfold assign_all in Ha. rewrite Ha. apply assign_obj_assigned.
    + rewrite IH by done. apply assigned_ext; [|apply assign_obj_kind].
      apply assign_obj_other.
      intros ->. apply Hk. apply list_elem_of_fmap. by exists (k, v).
Qed.

Lemma assign_all_nil o : assign_all o [] = o.
Proof. reflexivity. Qed.

Lemma assign_all_cons o k v r :
  assign_all o ((k, v) :: r) = assign_all (assign_obj k v o) r.
Proof. reflexivity. Qed.

Lemma key_of_pair (fs : list (string * value)) (f : string) :
  f ∈ fs.*1 → ∃ v, (f, v) ∈ fs.
Proof.
  intros H. apply list_elem_of_fmap in H as [[k v] [-> H]]. by exists v.
Qed.

(** Two flat partials with no property in common give the same record in
    either order. *)
Lemma assign_all_comm (o : object) (P Q : list (string * value)) :
  NoDup P.*1 → NoDup Q.*1 →
  (∀ f, f ∈ P.*1 → f ∉ Q.*1) →
  fields (assign_all (assign_all o P) Q) = fields (assign_all (assign_all o Q) P)
  ∧ kind (assign_all (assign_all o P) Q) = kind (assign_all (assign_all o Q) P).
Proof.
  intros HP HQ Hdisj. split; [|by rewrite !assign_all_kind].
  apply map_eq. intros f.
  destruct (decide (f ∈ P.*1)) as [Hp|Hp].
  - destruct (key_of_pair P f Hp) as [v Hv].
    rewrite (assign_all_absent Q f) by by apply Hdisj.
    rewrite !(assign_all_present P f v) by done.
    apply assigned_ext; [|by rewrite assign_all_kind].
    by rewrite (assign_all_absent Q f) by by apply Hdisj.
  - rewrite (assign_all_absent P f (assign_all o Q)) by done.
    destruct (decide (f ∈ Q.*1)) as [Hq|Hq].
    + destruct (key_of_pair Q f Hq) as [v Hv].
      rewrite !(assign_all_present Q f v) by done.
      apply assigned_ext; [|by rewrite assign_all_kind].
      by rewrite (assign_all_absent P f) by done.
    + rewrite !(assign_all_absent Q f) by done.
      by rewrite (assign_all_absent P f) by done.
Qed.

Lemma assign_obj_undefined_in k o :
  obj_in o k = true → assign_obj k VUndefined o = o.
Proof.
  intros Hk. unfold assign_obj. rewrite decide_True by done. by rewrite Hk.
Qed.

Lemma assign_all_noop (o : object) (P : list (string * value)) :
  (∀ k v, (k, v) ∈ P → assign_obj k v o = o) → assign_all o P = o.
Proof.
  induction P as [|[k v] r IH]; intros H; [done|].
  rewrite assign_all_cons, (H k v) by by left.
  apply IH. intros k' v' Hin. apply H. by right.
Qed.

(** Merging a flat partial a second time changes nothing. *)
Lemma assign_all_idem (o : object) (P : list (string * value)) :
  NoDup P.*1 → assign_all (assign_all o P) P = assign_all o P.
Proof.
  intros Hnd. apply assign_all_noop. intros k v Hin.
  pose proof (assign_all_present P k v o Hnd Hin) as Hk. unfold assigned in Hk.
  destruct (decide (v = VUndefined)) as [->|Hv].
  - apply assign_obj_undefined_in. destruct (obj_in o k) eqn:E.
    + rewrite <- E. apply obj_in_ext; [|apply assign_all_kind].
      unfold obj_in in E. rewrite Hk.
      destruct (fields o !! k) eqn:Ef; [|done].
      (* the object had the property: it still has it *)
      done.
    + apply obj_in_own. rewrite Hk. eauto.
  - by apply assign_obj_same.
Qed.

Lemma assign_obj_fields_defined k v o :
  v ≠ VUndefined → fields (assign_obj k v o) = <[k := v]> (fields o).
Proof.
  intros Hv. apply map_eq. intros f. destruct (decide (f = k)) as [->|Hne].
  - rewrite lookup_insert_eq. by apply assign_obj_defined.
  - rewrite lookup_insert_ne by done. by apply assign_obj_other.
Qed.

(** Building a flat literal with one more property. *)
Lemma lit_set_atoms k v fs :
  lit_set k (LAtom v) (atoms fs) = atoms (pair_set k v fs).
Proof.
  induction fs as [|[k' v'] r IH]; simpl; [done|].
  destruct (decide (k' = k)); simpl; [done|]. by rewrite IH.
Qed.

Lemma pair_set_keys k v fs f :
  f ∈ (pair_set k v fs).*1 ↔ f = k ∨ f ∈ fs.*1.
Proof.
  induction fs as [|[k' v'] r IH]; simpl.
  - rewrite list_elem_of_singleton. split; [by left|].
    intros [->|H]; [done|]. by apply elem_of_nil in H.
  - destruct (decide (k' = k)) as [->|Hne]; simpl.
    + rewrite !elem_of_cons. tauto.
    + rewrite !elem_of_cons, IH. tauto.
Qed.

Lemma pair_set_NoDup k v fs : NoDup fs.*1 → NoDup (pair_set k v fs).*1.
Proof.
  induction fs as [|[k' v'] r IH]; simpl; intros Hnd.
  - apply NoDup_singleton.
  - apply NoDup_cons in Hnd as [Hk Hnd].
    destruct (decide (k' = k)) as [->|Hne]; simpl.
    + by apply NoDup_cons.
    + apply NoDup_cons. split; [|by apply IH].
      rewrite pair_set_keys. intros [->|H]; done.
Qed.

Lemma pair_set_in k v fs : (k, v) ∈ pair_set k v fs.
Proof.
  induction fs as [|[k' v'] r IH]; simpl.
  - by apply list_elem_of_singleton.
  - destruct (decide (k' = k)); [by left|by right].
Qed.

Lemma pair_set_other k v fs f x :
  f ≠ k → (f, x) ∈ pair_set k v fs ↔ (f, x) ∈ fs.
Proof.
  intros Hne. induction fs as [|[k' v'] r IH]; simpl.
  - rewrite list_elem_of_singleton. split; [by intros [= -> _]|].
    intros H. by apply elem_of_nil in H.
  - destruct (decide (k' = k)) as [->|Hk]; simpl.
    + rewrite !elem_of_cons. split; (intros [[= ? ?]|H]; [congruence|by right]).
    + rewrite !elem_of_cons, IH. tauto.
Qed.

(** ** Flat declarations on the store *)

Lemma index_fields_values vs k v : index_fields vs !! k = Some v → v ∈ vs.
Proof.
  unfold index_fields. intros Hk. apply elem_of_list_to_map_2 in Hk.
  apply elem_of_lookup_imap_1 in Hk as (i & x & [= -> ->] & Hx).
  by apply list_elem_of_lookup_2 in Hx.
Qed.

Lemma chars_values s v : v ∈ chars s → ∃ c, v = VStr c.
Proof.
  induction s as [|a r IH]; simpl; intros H.
  - by apply elem_of_nil in H.
  - apply elem_of_cons in H as [->|H]; eauto.
Qed.

Lemma record_of_inv (s : state) (mk : string) (t : objref) (key : string)
    (r : loc) (orec : object) :
  record_of s mk t key = Some (r, orec) →
  ∃ la0 oa, meta_value s mk t = VRef la0
            ∧ heap s !! la0 = Some oa
            ∧ fields oa !! key = Some (VRef r)
            ∧ heap s !! r = Some orec
            ∧ meta_fields s mk t = fields oa.
Proof.
  unfold record_of, meta_fields. intros H.
  destruct (spread_fields (heap s) (meta_value s mk t) !! key) as [v|] eqn:Ek;
    [|done].
  destruct v as [| | | | | |r']; try done.
  destruct (heap s !! r') as [o|] eqn:Er; [|done]. simpl in H.
  injection H as -> ->.
  destruct (meta_value s mk t) as [| | | |str| |la0] eqn:Em; simpl in Ek;
    try (by rewrite lookup_empty in Ek).
  - apply index_fields_values, chars_values in Ek as [c Hc]. done.
  - destruct (heap s !! la0) as [oa|] eqn:Ela; [|by rewrite lookup_empty in Ek].
    exists la0, oa. simpl. by rewrite Ela.
Qed.

Lemma record_of_intro (s : state) (mk : string) (t : objref) (key : string)
    (la : loc) (oa : object) (r : loc) (orec : object) :
  meta_value s mk t = VRef la →
  heap s !! la = Some oa →
  fields oa !! key = Some (VRef r) →
  heap s !! r = Some orec →
  record_of s mk t key = Some (r, orec) ∧ meta_fields s mk t = fields oa.
Proof.
  intros Hm Hla Hk Hr. unfold record_of, meta_fields. rewrite Hm. simpl.
  rewrite Hla, Hk, Hr. done.
Qed.

(** A flat declaration, whether the key is free or has a record: the
    record afterwards is the earlier one (an empty one for a free key) with
    the partial merged in, the type's key map changes at that key only, and
    no other existing object changes. *)
Lemma define_merge_flat (mk : string) (t : objref) (key : string)
    (P : list (string * value)) (s : state) :
  key ≠ "__proto__" →
  declarable s mk t key →
  ∃ s',
    define_merge mk t key (LObj (atoms P)) s = Return tt s'
    ∧ record_of s' mk t key
      = Some (record_loc s mk t key, assign_all (prior_record s mk t key) P)
    ∧ meta_fields s' mk t
      = <[key := VRef (record_loc s mk t key)]> (meta_fields s mk t)
    ∧ metadata s'
      = <[(oid_of t, None, mk) := VRef (fresh (dom (heap s)))]> (metadata s)
    ∧ (∀ l, l ∈ dom (heap s) → l ≠ record_loc s mk t key →
            heap s' !! l = heap s !! l)
    ∧ dom (heap s) ⊆ dom (heap s').
Proof.
  intros Hproto [Hfree|[[r orec] Hrec]].
  - destruct (define_merge_first mk t key P s Hproto Hfree)
      as (s' & la & r & Hrun & -> & Hr & Hrn & Hrla & Hmd & Hla & Hrr & Hfr).
    assert (Hnone : record_of s mk t key = None).
    { unfold record_of. by rewrite Hfree. }
    unfold record_loc, prior_record. rewrite Hnone. rewrite <- Hr.
    assert (Hm' : meta_value s' mk t = VRef (fresh (dom (heap s)))).
    { unfold meta_value. rewrite Hmd. apply OrdinaryGetMetadata_own, lookup_insert_eq. }
    destruct (record_of_intro s' mk t key _ _ r _ Hm' Hla
                (lookup_insert_eq _ _ _) Hrr) as [H1 H2].
    exists s'. split; [done|]. split; [done|]. split; [done|]. split; [done|].
    assert (Hold : ∀ l, l ∈ dom (heap s) → heap s' !! l = heap s !! l).
    { intros l Hl. apply Hfr.
      - intros ->. by apply (is_fresh (dom (heap s))).
      - by intros ->. }
    split; [by intros l Hl _; apply Hold|].
    intros l Hl. apply elem_of_dom. rewrite Hold by done. by apply elem_of_dom.
  - destruct (record_of_inv s mk t key r orec Hrec)
      as (la0 & oa & Hm & Hla0 & Hk & Hr & Hmf).
    destruct (define_merge_existing mk t key P s la0 oa r orec Hproto Hm Hla0 Hk Hr)
      as (s' & la & Hrun & -> & Hmd & Hla & Hrr & Hfr).
    unfold record_loc, prior_record. rewrite Hrec.
    assert (Hm' : meta_value s' mk t = VRef (fresh (dom (heap s)))).
    { unfold meta_value. rewrite Hmd. apply OrdinaryGetMetadata_own, lookup_insert_eq. }
    destruct (record_of_intro s' mk t key _ _ r _ Hm' Hla Hk Hrr) as [H1 H2].
    exists s'. split; [done|]. split; [done|]. split.
    { rewrite H2, Hmf. simpl. symmetry. by apply insert_id. }
    split; [done|].
    assert (Hold : ∀ l, l ∈ dom (heap s) → l ≠ r → heap s' !! l = heap s !! l).
    { intros l Hl Hne. apply Hfr; [|done].
      intros ->. by apply (is_fresh (dom (heap s))). }
    split; [done|].
    intros l Hl. apply elem_of_dom. destruct (decide (l = r)) as [->|Hne].
    + rewrite Hrr. eauto.
    + rewrite Hold by done. by apply elem_of_dom.
Qed.

Lemma declarable_after (s' : state) (mk : string) (t : objref) (key : string)
    (r : loc) (o : object) :
  record_of s' mk t key = Some (r, o) →
  declarable s' mk t key
  ∧ record_loc s' mk t key = r ∧ prior_record s' mk t key = o.
Proof.
  intros H. unfold declarable, record_loc, prior_record. rewrite H. eauto.
Qed.

Lemma flag_decorator_define_merge (f : flag) (t : objref) (key : string) :
  flag_decorator f t key
  = define_merge MODEL_ATTRS_META_KEY t key
      (LObj (atoms [(flag_field f, VBool (flag_value f))])).
Proof. by destruct f. Qed.


(** ** The decorators that take arguments *)

Lemma atoms_default (opts : option (list (string * value))) :
  default [] (atoms <$> opts) = atoms (default [] opts).
Proof. by destruct opts. Qed.


(** ** From a declaration to the resolved properties *)

Lemma meta_fields_frame (s s' : state) (mk : string) (t : objref) :
  meta_value s' mk t = meta_value s mk t →
  value_closed (dom (heap s)) (meta_value s mk t) →
  (∀ l, l ∈ dom (heap s) → heap s' !! l = heap s !! l) →
  meta_fields s' mk t = meta_fields s mk t.
Proof.
  intros Hm Hc Hfr. unfold meta_fields. rewrite Hm.
  apply spread_fields_frame. intros l El. rewrite El in Hc. by apply Hfr.
Qed.

Lemma stored_values_mono (D D' : gset loc) (m : gmap string value) :
  D ⊆ D' →
  map_Forall (λ _ v, nullish v = false ∧ value_closed D v) m →
  map_Forall (λ _ v, nullish v = false ∧ value_closed D' v) m.
Proof.
  intros Hsub H k v Hk. destruct (H k v Hk) as [Hn Hc]. split; [done|].
  destruct v; simpl in *; try done. by apply Hsub.
Qed.

(** A flat declaration for a free key creates the record, and leaves the
    type resolvable; what the type has under the other metadata keys is as
    before. *)
Lemma define_merge_free (mk : string) (t : objref) (key : string)
    (P : list (string * value)) (s : state) :
  key ≠ "__proto__" →
  meta_fields s mk t !! key = None →
  ∃ s' r,
    define_merge mk t key (LObj (atoms P)) s = Return tt s'
    ∧ metadata s'
      = <[(oid_of t, None, mk) := VRef (fresh (dom (heap s)))]> (metadata s)
    ∧ (r ∉ dom (heap s))
    ∧ heap s' !! r = Some (assign_all (plain ∅) P)
    ∧ meta_fields s' mk t = <[key := VRef r]> (meta_fields s mk t)
    ∧ value_closed (dom (heap s')) (meta_value s' mk t)
    ∧ dom (heap s) ⊆ dom (heap s')
    ∧ (∀ l, l ∈ dom (heap s) → heap s' !! l = heap s !! l)
    ∧ (∀ mk', mk' ≠ mk → meta_value s' mk' t = meta_value s mk' t).
Proof.
  intros Hproto Hfree.
  assert (Hnone : record_of s mk t key = None).
  { unfold record_of. by rewrite Hfree. }
  destruct (define_merge_flat mk t key P s Hproto (or_introl Hfree))
    as (s' & Hrun & Hrec & Hmf & Hmd & Hfr & Hsub).
  unfold record_loc, prior_record in *. rewrite Hnone in *.
  set (r := fresh (dom (<[fresh (dom (heap s)) := plain (meta_fields s mk t)]>
                         (heap s)))) in *.
  assert (Hr : r ∉ dom (heap s)).
  { intros Hin. apply (is_fresh (dom (<[fresh (dom (heap s))
                                        := plain (meta_fields s mk t)]> (heap s)))).
    by apply dom_insert_old. }
  destruct (record_of_inv s' mk t key r _ Hrec)
    as (la0 & oa & Hm' & Hla0 & _ & Hrr & _).
  exists s', r. split; [done|]. split; [done|]. split; [done|]. split; [done|].
  split; [done|]. split.
  { rewrite Hm'. simpl. apply elem_of_dom. eauto. }
  split; [done|]. split.
  { intros l Hl. apply Hfr; [done|]. by intros ->. }
  intros mk' Hne. unfold meta_value. rewrite Hmd.
  apply OrdinaryGetMetadata_insert_other. congruence.
Qed.

Lemma define_merge_free_resolvable (mk : string) (t : objref) (s s' : state)
    (key : string) (r : loc) :
  mk = MODEL_ATTRS_META_KEY ∨ mk = MODEL_ASSOCS_META_KEY →
  resolvable s t →
  is_Some (heap s' !! r) →
  meta_fields s' mk t = <[key := VRef r]> (meta_fields s mk t) →
  value_closed (dom (heap s')) (meta_value s' mk t) →
  dom (heap s) ⊆ dom (heap s') →
  (∀ l, l ∈ dom (heap s) → heap s' !! l = heap s !! l) →
  (∀ mk', mk' ≠ mk → meta_value s' mk' t = meta_value s mk' t) →
  resolvable s' t.
Proof.
  intros Hmk (Ha & Hb & HA & HB) Hr Hmf Hc Hsub Hfr Hoth.
  assert (Hnew : map_Forall (λ _ v, nullish v = false
                                    ∧ value_closed (dom (heap s')) v)
                   (<[key := VRef r]> (meta_fields s mk t))).
  { apply map_Forall_insert_2.
    - split; [done|]. simpl. by apply elem_of_dom.
    - destruct Hmk as [->| ->]; by eapply stored_values_mono. }
  assert (Hval : ∀ mk', mk' ≠ mk →
            value_closed (dom (heap s)) (meta_value s mk' t) →
            value_closed (dom (heap s')) (meta_value s' mk' t)).
  { intros mk' Hne H. rewrite (Hoth mk' Hne).
    destruct (meta_value s mk' t); simpl in *; try done. by apply Hsub. }
  assert (Hfld : ∀ mk', mk' ≠ mk →
            value_closed (dom (heap s)) (meta_value s mk' t) →
            meta_fields s' mk' t = meta_fields s mk' t).
  { intros mk' Hne H. apply meta_fields_frame; auto. }
  destruct Hmk as [->| ->]; unfold resolvable.
  - split; [done|]. split; [by apply Hval|]. split; [by rewrite Hmf|].
    rewrite Hfld by done. by eapply stored_values_mono.
  - split; [by apply Hval|]. split; [done|]. split; [|by rewrite Hmf].
    rewrite Hfld by done. by eapply stored_values_mono.
Qed.


(** ** Declarations on a class that extends a model *)

Lemma meta_value_inherited (s : state) (mk : string) (j : nat) (b : objref) :
  metadata s !! (j, None, mk) = None →
  meta_value s mk (ObjRef j (Some b)) = meta_value s mk b.
Proof. intros H. unfold meta_value. simpl. by rewrite H. Qed.






(** ** Declarations never lose a property *)









(** ** The name of a function without [name] *)

Lemma substring_whole s : substring 0 (String.length s) s = s.
Proof. induction s as [|a r IH]; simpl; [done|]. by rewrite IH. Qed.

Lemma substring_prefix a b : substring 0 (String.length a) (a +:+ b) = a.
Proof.
  induction a as [|c r IH]; simpl.
  - by destruct b.
  - by rewrite IH.
Qed.

Lemma substr_from_function x :
  substr_from (String.length "function ") ("function " +:+ x) = x.
Proof. unfold substr_from. simpl. rewrite Nat.sub_0_r. apply substring_whole. Qed.

Lemma index_0_cons c b s :
  index 0 c (String b s)
  = if String.prefix c (String b s) then Some 0%nat
    else match index 0 c s with Some n => Some (S n) | None => None end.
Proof. reflexivity. Qed.

Lemma prefix_paren a x y :
  String.prefix "(" (String a x) = String.prefix "(" (String a y).
Proof.
  change (String.prefix "(" (String a x))
    with (if ascii_dec "(" a then String.prefix "" x else false).
  change (String.prefix "(" (String a y))
    with (if ascii_dec "(" a then String.prefix "" y else false).
  by destruct (ascii_dec "(" a), x, y.
Qed.

Lemma index_paren ident rest :
  index 0 "(" ident = None →
  index 0 "(" (ident +:+ "(" +:+ rest) = Some (String.length ident).
Proof.
  induction ident as [|a r IH]; intros H.
  - by destruct rest.
  - change (String a r +:+ "(" +:+ rest) with (String a (r +:+ "(" +:+ rest)).
    rewrite index_0_cons in *.
    rewrite (prefix_paren a _ r).
    destruct (String.prefix "(" (String a r)); [done|].
    destruct (index 0 "(" r) eqn:E; [done|]. by rewrite IH.
Qed.

Section GuessModelName.

Variable camelCase : string → string.

(** X18: for a function without [name] whose source text is
    [function <ident>(...], [guessModelName] is the camelCase form of
    [<ident>]: the text between the ninth character and the first opening
    parenthesis. *)
Theorem guessModelName_from_source (ident rest : string) (proto : option objref) :
  index 0 "(" ident = None →
  guessModelName camelCase
    (Ctor "" ("function " +:+ ident +:+ "(" +:+ rest) proto)
  = camelCase ident.
Proof.
  intros H. unfold guessModelName. cbn [fn_name fn_source].
  rewrite decide_True by done. rewrite substr_from_function.
  unfold indexOf, substr_to. rewrite index_paren by done.
  rewrite Nat2Z.id. by rewrite substring_prefix.
Qed.

(** X19: for a function without [name] whose source text has no opening
    parenthesis after its ninth character (an arrow function with one bare
    parameter, an anonymous class), [guessModelName] is the camelCase form
    of the empty string: [indexOf] gives [-1] and [substr(0, -1)] is
    empty. *)
Theorem guessModelName_no_parenthesis (c : ctor) :
  fn_name c = "" →
  index 0 "(" (substr_from (String.length "function ") (fn_source c)) = None →
  guessModelName camelCase c = camelCase "".
Proof.
  intros Hn H. unfold guessModelName. rewrite decide_True by done.
  unfold indexOf, substr_to. rewrite H.
  by destruct (substr_from (String.length "function ") (fn_source c)).
Qed.

End GuessModelName.

Lemma guessModelName_from_source_witness :
  guessModelName lower_first
    (Ctor "" ("function " +:+ "UserAccount" +:+ "(" +:+ ") { }") None)
  = "userAccount".
Proof.
  rewrite (guessModelName_from_source lower_first "UserAccount" ") { }" None).
  - reflexivity.
  - reflexivity.
Defined.

Lemma guessModelName_no_parenthesis_witness :
  guessModelName lower_first (Ctor "" "x => x" None) = "".
Proof.
  rewrite (guessModelName_no_parenthesis lower_first (Ctor "" "x => x" None)).
  - reflexivity.
  - reflexivity.
  - reflexivity.
Defined.

(** ** Validation lists *)

(** X20: where a validation list is stored for a property (as an array),
    [defineAttributeValidation] followed by [getAttributeValidations]
    gives a new array with the earlier entries in their order and the new
    entry last; the array that was stored is not modified. *)
Theorem validation_appended_last (c : ctor) (t : objref) (key : string)
    (v : value) (s : state) (l : loc) (a : object) :
  prototype c = Some t →
  Reflect.OrdinaryGetMetadata ATTR_VALIDATIONS_META_KEY t (Some key) (metadata s)
    = VRef l →
  heap s !! l = Some a →
  kind a = KArray →
  ∃ s1 r s2 ar,
    defineAttributeValidation t key v s = Return tt s1
    ∧ getAttributeValidations c key s1 = Return r s2
    ∧ heap s2 !! r = Some ar
    ∧ array_elems ar = (array_elems a ++ [v])%list
    ∧ r ≠ l
    ∧ heap s2 !! l = Some a.
Proof.
  intros Hp Hm Hl Hk.
  assert (Hdom : l ∈ dom (heap s)) by (apply elem_of_dom; eauto).
  set (r1 := fresh (dom (heap s))).
  set (h1 := <[r1 := array_of (array_elems a ++ [v])]> (heap s)).
  set (md1 := <[(oid_of t, Some key, ATTR_VALIDATIONS_META_KEY) := VRef r1]>
                (metadata s)).
  assert (H1 : defineAttributeValidation t key v s = Return tt (State h1 md1)).
  { unfold defineAttributeValidation, bind, Reflect.getMetadata, spread_array,
      new_array, alloc, Reflect.defineMetadata.
    rewrite Hm. simpl. by rewrite Hl, Hk. }
  assert (Hr1 : r1 ≠ l).
  { intros E. apply (is_fresh (dom (heap s))). fold r1. by rewrite E. }
  set (r := fresh (dom h1)).
  set (ar := array_of (array_elems (array_of (array_elems a ++ [v])))).
  assert (H2 : getAttributeValidations c key (State h1 md1)
               = Return r (State (<[r := ar]> h1) md1)).
  { unfold getAttributeValidations, bind, Reflect.getMetadata, spread_array,
      new_array, alloc. rewrite Hp. cbn [metadata heap].
    rewrite (OrdinaryGetMetadata_own _ t (Some key) md1 (VRef r1));
      [|apply lookup_insert_eq].
    simpl. unfold h1 at 1. by rewrite lookup_insert_eq. }
  assert (Hr : r ≠ l).
  { intros E. apply (is_fresh (dom h1)). fold r. rewrite E.
    by apply dom_insert_old. }
  exists (State h1 md1), r, (State (<[r := ar]> h1) md1), ar.
  split; [exact H1|]. split; [exact H2|]. cbn [heap].
  split; [apply lookup_insert_eq|]. split.
  { unfold ar. by rewrite !array_elems_array_of. }
  split; [exact Hr|].
  rewrite lookup_insert_ne by done. unfold h1. by rewrite lookup_insert_ne.
Qed.

Lemma validation_appended_last_witness :
  let s := State {[0%nat := array_of [VFun 1]]}
                 {[(1%nat, Some "email", ATTR_VALIDATIONS_META_KEY) := VRef 0]} in
  ∃ s1 r s2 ar,
    defineAttributeValidation User_prototype "email" (VFun 2) s = Return tt s1
    ∧ getAttributeValidations User "email" s1 = Return r s2
    ∧ heap s2 !! r = Some ar
    ∧ array_elems ar = [VFun 1; VFun 2].
Proof.
  intros s.
  destruct (validation_appended_last User User_prototype "email" (VFun 2) s
              0%nat (array_of [VFun 1]))
    as (s1 & r & s2 & ar & H1 & H2 & H3 & H4 & _).
  - reflexivity.
  - vm_compute. reflexivity.
  - vm_compute. reflexivity.
  - reflexivity.
  - exists s1, r, s2, ar. split; [exact H1|]. split; [exact H2|].
    split; [exact H3|]. rewrite H4. vm_compute. reflexivity.
Defined.

Lemma define_merge_metadata (mk : string) (t : objref) (key : string)
    (options : lit) (s : state) :
  metadata (final_state (define_merge mk t key options s))
  = <[(oid_of t, None, mk) := VRef (fresh (dom (heap s)))]> (metadata s).
Proof. reflexivity. Qed.

Lemma no_validations_undefined (s : state) (t : objref) (pk : option string) :
  no_validations s →
  Reflect.OrdinaryGetMetadata ATTR_VALIDATIONS_META_KEY t pk (metadata s)
  = VUndefined.
Proof. intros H. apply OrdinaryGetMetadata_absent. intros i _. apply H. Qed.

Lemma no_validations_insert (s : state) (h : gmap loc object) (i : nat)
    (pk : option string) (mk : string) (v : value) :
  mk ≠ ATTR_VALIDATIONS_META_KEY →
  no_validations s →
  no_validations (State h (<[(i, pk, mk) := v]> (metadata s))).
Proof.
  intros Hne H j pk'. cbn [metadata]. rewrite lookup_insert_ne by congruence.
  apply H.
Qed.

Lemma step_no_validations (o : op) (s : state) :
  no_validations s → no_validations (step o s).
Proof.
  intros H.
  destruct (decide (is_reader o = true)) as [Hr|Hr].
  { destruct (reads_only_reader ∅ o s Hr) as (_ & Hmd & _);
      [apply empty_subseteq|].
    intros i pk. rewrite Hmd. apply H. }
  destruct o; try (by destruct Hr); unfold step.
  - unfold defineModelOptions, bind, Reflect.getMetadata, spread_object,
      new_object, alloc, Reflect.defineMetadata.
    destruct (prototype c) as [p|]; simpl; [|done].
    by apply no_validations_insert.
  - rewrite defineAssociation_define_merge. intros i pk.
    rewrite define_merge_metadata. rewrite lookup_insert_ne by done. apply H.
  - rewrite defineAttribute_define_merge. intros i pk.
    rewrite define_merge_metadata. rewrite lookup_insert_ne by done. apply H.
  - rewrite defineAttributeValidation_undeclared; [done|].
    by apply no_validations_undefined.
Qed.

Lemma exec_no_validations (ops : list op) (s : state) :
  no_validations s → no_validations (exec ops s).
Proof.
  revert s. induction ops as [|o ops IH]; intros s H; simpl; [done|].
  by apply IH, step_no_validations.
Qed.

(** X21: the registry never creates a validation list. From a store
    without one, after any sequence of its operations there is still none,
    and then [defineAttributeValidation], [getAttributeValidations] and the
    [@validate] decorator throw a TypeError, for every type and property,
    and register nothing. *)
Theorem validations_never_stored (ops : list op) (s : state) :
  no_validations s →
  no_validations (exec ops s)
  ∧ (∀ t key v,
       defineAttributeValidation t key v (exec ops s)
       = Throw TypeError (exec ops s))
  ∧ (∀ c key,
       getAttributeValidations c key (exec ops s)
       = Throw TypeError (exec ops s))
  ∧ (∀ cb options t key,
       ∃ s', validate cb options t key (exec ops s) = Throw TypeError s'
             ∧ metadata s' = metadata (exec ops s)).
Proof.
  intros H0. pose proof (exec_no_validations ops s H0) as H.
  split; [exact H|]. split; [|split].
  - intros t key v. apply defineAttributeValidation_undeclared.
    by apply no_validations_undefined.
  - intros c key. destruct (prototype c) as [o|] eqn:Hp.
    + apply (getAttributeValidations_undeclared c o); [done|].
      by apply no_validations_undefined.
    + unfold getAttributeValidations, bind, Reflect.getMetadata. by rewrite Hp.
  - intros cb options t key. unfold validate, bind, new_object, alloc.
    cbn [alloc_in].
    match goal with |- ∃ s', defineAttributeValidation t key ?v ?s1 = _ ∧ _ =>
      exists s1; split; [|reflexivity];
      apply defineAttributeValidation_undeclared
    end.
    cbn [metadata]. by apply no_validations_undefined.
Qed.

Lemma validations_never_stored_witness :
  let ops := [OpDefineAttribute User_prototype "email"
                (LObj [("type", LAtom (VStr "STRING"))]);
              OpDefineAttributeValidation User_prototype "email" (VFun 1);
              OpGetProperties User] in
  defineAttributeValidation User_prototype "email" (VFun 2) (exec ops empty_state)
  = Throw TypeError (exec ops empty_state)
  ∧ getAttributeValidations User "email" (exec ops empty_state)
    = Throw TypeError (exec ops empty_state).
Proof.
  intros ops.
  destruct (validations_never_stored ops empty_state) as (_ & H1 & H2 & _).
  - intros i pk. apply lookup_empty.
  - split; [apply H1|apply H2].
Defined.

(** ** What [getAttributes] hands out *)

(** X22: the object [getAttributes] returns is a new one, but the records
    in it are the stored ones: a write to a record reached through it is a
    write to the registry's record, while a write to the returned object
    itself leaves the registry as it was. *)
Theorem getAttributes_shares_records (c : ctor) (t : objref) (key : string)
    (r : loc) (orec : object) (f : string) (v : value) (s : state) :
  prototype c = Some t →
  record_of s MODEL_ATTRS_META_KEY t key = Some (r, orec) →
  meta_value s MODEL_ATTRS_META_KEY t ≠ VRef r →
  ∃ p s1,
    getAttributes c s = Return p s1
    ∧ (p ∉ dom (heap s))
    ∧ heap_get (heap s1) p key = VRef r
    ∧ record_of (final_state (set_prop r f v s1)) MODEL_ATTRS_META_KEY t key
      = Some (r, obj_set f v orec)
    ∧ meta_fields (final_state (set_prop p f v s1)) MODEL_ATTRS_META_KEY t
      = meta_fields s MODEL_ATTRS_META_KEY t.
Proof.
  intros Hp Hrec Hne.
  destruct (record_of_inv s _ t key r orec Hrec)
    as (la0 & oa & Hm & Hla0 & Hk & Hr & Hmf).
  set (p := fresh (dom (heap s))).
  assert (Hfresh : p ∉ dom (heap s)) by apply is_fresh.
  assert (Hpl : p ≠ la0).
  { intros E. apply Hfresh. rewrite E. apply elem_of_dom. eauto. }
  assert (Hpr : p ≠ r).
  { intros E. apply Hfresh. rewrite E. apply elem_of_dom. eauto. }
  assert (Hlr : la0 ≠ r).
  { intros E. apply Hne. by rewrite Hm, E. }
  exists p, (State (<[p := plain (meta_fields s MODEL_ATTRS_META_KEY t)]> (heap s))
               (metadata s)).
  split.
  { unfold getAttributes, bind, Reflect.getMetadata, spread_object, new_object,
      alloc. by rewrite Hp. }
  split; [exact Hfresh|]. split.
  { cbn [heap]. unfold heap_get, obj_get. rewrite lookup_insert_eq.
    cbn [fields plain]. by rewrite Hmf, Hk. }
  split.
  - apply (record_of_intro _ _ t key la0 oa r).
    + exact Hm.
    + cbn. unfold heap_set. rewrite lookup_alter_ne by done.
      by rewrite lookup_insert_ne.
    + exact Hk.
    + cbn. unfold heap_set. rewrite lookup_alter_eq.
      rewrite lookup_insert_ne by done. by rewrite Hr.
  - unfold meta_fields.
    change (meta_value (final_state (set_prop p f v _)) MODEL_ATTRS_META_KEY t)
      with (meta_value s MODEL_ATTRS_META_KEY t).
    apply spread_fields_frame. intros l El. rewrite Hm in El.
    injection El as <-. cbn. unfold heap_set.
    rewrite lookup_alter_ne by done. by rewrite lookup_insert_ne.
Qed.

Lemma getAttributes_shares_records_witness :
  ∃ p s1,
    getAttributes User email_declared = Return p s1
    ∧ heap_get (heap s1) p "email" = VRef 1
    ∧ record_of (final_state (set_prop 1 "type" (VStr "TEXT") s1))
        MODEL_ATTRS_META_KEY User_prototype "email"
      = Some (1%nat, plain (<["type" := VStr "TEXT"]> ∅)).
Proof.
  destruct (getAttributes_shares_records User User_prototype "email" 1%nat
              (plain (<["type" := VStr "STRING"]> ∅)) "type" (VStr "TEXT")
              email_declared)
    as (p & s1 & H1 & _ & H2 & H3 & _).
  - reflexivity.
  - vm_compute. reflexivity.
  - vm_compute. discriminate.
  - exists p, s1. split; [exact H1|]. split; [exact H2|].
    rewrite H3. vm_compute. reflexivity.
Defined.

(** ** Functions without a prototype object *)

Section NoPrototype.

Variable camelCase : string → string.

(** X23: on a function whose [prototype] is not an object (an arrow
    function), [hasModelOptions] answers [false], and every other function
    of the registry that takes a constructor throws the TypeError of
    reflect-metadata and writes no metadata. *)
Theorem no_prototype_throws (c : ctor) (s : state) :
  prototype c = None →
  hasModelOptions c s = Return false s
  ∧ (∀ options, defineModelOptions c options s = Throw TypeError s)
  ∧ (∀ options, model camelCase options c s = Throw TypeError s)
  ∧ getModelOptions c s = Throw TypeError s
  ∧ getAssociations c s = Throw TypeError s
  ∧ getAttributes c s = Throw TypeError s
  ∧ (∀ key, getAttributeValidations c key s = Throw TypeError s)
  ∧ (∃ s', getProperties c s = Throw TypeError s' ∧ metadata s' = metadata s).
Proof.
  intros Hp.
  unfold hasModelOptions, model, defineModelOptions, getModelOptions,
    getAssociations, getAttributeValidations, getProperties, getAttributes,
    try_catch, bind, Reflect.hasMetadata, Reflect.getMetadata, new_object, alloc.
  rewrite Hp. cbn [alloc_in]. repeat split. eexists. split; reflexivity.
Qed.

End NoPrototype.

Lemma no_prototype_throws_witness :
  hasModelOptions arrow empty_state = Return false empty_state
  ∧ getModelOptions arrow empty_state = Throw TypeError empty_state.
Proof.
  destruct (no_prototype_throws lower_first arrow empty_state eq_refl)
    as (H1 & _ & _ & H2 & _).
  split; [exact H1|exact H2].
Defined.

(** * Declarations with object literals *)

(** ** Trees in the heap *)

(** Membership and disjointness of footprints. *)
Ltac sets := set_unfold; intuition (subst; eauto).

Lemma merged_obj fs old :
  merged (LObj fs) old = LObj (merge_fields fs (fields_of old)).
Proof. reflexivity. Qed.

Lemma repr_frame_both (h h' : gmap loc object) :
  (∀ v t F, repr h v t F → (∀ l, l ∈ F → h' !! l = h !! l) → repr h' v t F)
  ∧ (∀ m ts F, repr_fields h m ts F → (∀ l, l ∈ F → h' !! l = h !! l) →
               repr_fields h' m ts F).
Proof.
  apply repr_mutind.
  - intros v Hv _. by constructor.
  - intros l o ts F F' Hl Hk _ IH HlF -> Hfr.
    eapply repr_obj; [|done| |done|done].
    + rewrite Hfr; [done|]. apply elem_of_union_l, elem_of_singleton. done.
    + apply IH. intros x Hx. apply Hfr. by apply elem_of_union_r.
  - intros m -> _. by constructor.
  - intros m k v t ts F1 F2 F Hk _ IH1 _ IH2 Hd -> Hfr.
    eapply repr_cons; [done| | |done|done].
    + apply IH1. intros x Hx. apply Hfr. by apply elem_of_union_l.
    + apply IH2. intros x Hx. apply Hfr. by apply elem_of_union_r.
Qed.

Lemma repr_frame h h' v t F :
  repr h v t F → (∀ l, l ∈ F → h' !! l = h !! l) → repr h' v t F.
Proof. apply repr_frame_both. Qed.

Lemma repr_fields_frame h h' m ts F :
  repr_fields h m ts F → (∀ l, l ∈ F → h' !! l = h !! l) → repr_fields h' m ts F.
Proof. apply repr_frame_both. Qed.

Lemma repr_dom_both (h : gmap loc object) :
  (∀ v t F, repr h v t F → F ⊆ dom h)
  ∧ (∀ m ts F, repr_fields h m ts F → F ⊆ dom h).
Proof.
  apply repr_mutind.
  - intros. apply empty_subseteq.
  - intros l o ts F F' Hl _ _ IH _ ->.
    apply union_subseteq. split; [|done].
    apply singleton_subseteq_l, elem_of_dom. eauto.
  - intros. apply empty_subseteq.
  - intros m k v t ts F1 F2 F _ _ IH1 _ IH2 _ ->.
    apply union_subseteq. done.
Qed.

Lemma repr_dom h v t F : repr h v t F → F ⊆ dom h.
Proof. apply repr_dom_both. Qed.

Lemma repr_fields_dom h m ts F : repr_fields h m ts F → F ⊆ dom h.
Proof. apply repr_dom_both. Qed.

Lemma field_lit_set k v fs f :
  field f (lit_set k v fs) = if decide (f = k) then Some v else field f fs.
Proof.
  induction fs as [|[k' v'] r IH]; simpl.
  - destruct (decide (k = f)), (decide (f = k)); congruence.
  - destruct (decide (k' = k)) as [->|Hne]; simpl.
    + destruct (decide (k = f)), (decide (f = k)); congruence.
    + destruct (decide (k' = f)) as [->|Hne2].
      * by rewrite decide_False by congruence.
      * apply IH.
Qed.

Lemma repr_fields_keys h m ts F :
  repr_fields h m ts F → ∀ k, field k ts = None ↔ m !! k = None.
Proof.
  induction 1 as [m ->|m k v t ts F1 F2 F Hk Hv Hr IH Hd HF]; intros k'; simpl.
  - by rewrite lookup_empty.
  - destruct (decide (k = k')) as [->|Hne].
    + rewrite Hk. split; intros [=].
    + rewrite IH. by rewrite lookup_delete_ne.
Qed.

Lemma repr_fields_update h m ts F k v :
  repr_fields h m ts F → m !! k = Some v →
  ∃ t Fk Fr,
    field k ts = Some t ∧ repr h v t Fk ∧ Fk ## Fr ∧ F = Fk ∪ Fr
    ∧ ∀ h' nv t' Fk',
        (∀ l, l ∈ Fr → h' !! l = h !! l) → repr h' nv t' Fk' → Fk' ## Fr →
        repr_fields h' (<[k := nv]> m) (lit_set k t' ts) (Fk' ∪ Fr).
Proof.
  induction 1 as [m ->|m k0 v0 t0 ts F1 F2 F Hk0 Hv0 Hr IH Hd ->]; intros Hk.
  - by rewrite lookup_empty in Hk.
  - destruct (decide (k0 = k)) as [->|Hne].
    + rewrite Hk0 in Hk. injection Hk as <-.
      exists t0, F1, F2. simpl. rewrite decide_True by done.
      split; [done|]. split; [done|]. split; [done|]. split; [done|].
      intros h' nv t' Fk' Hfr Hnv Hdis. simpl. rewrite decide_True by done.
      eapply repr_cons; [apply lookup_insert_eq|exact Hnv| |done|done].
      rewrite delete_insert_eq. by eapply repr_fields_frame.
    + rewrite <- (lookup_delete_ne m k0 k) in Hk by done.
      destruct (IH Hk) as (t & Fk & Fr & Hf & Hrep & Hdis & -> & Hupd).
      exists t, Fk, (F1 ∪ Fr). simpl. rewrite decide_False by done.
      split; [done|]. split; [done|].
      split; [sets|]. split; [sets|].
      intros h' nv t' Fk' Hfr Hnv Hdis'. simpl. rewrite decide_False by done.
      eapply (repr_cons h' _ k0 v0 t0 _ F1 (Fk' ∪ Fr)).
      * by rewrite lookup_insert_ne.
      * eapply repr_frame; [exact Hv0|]. intros l Hl. apply Hfr. sets.
      * rewrite delete_insert_ne by done. apply Hupd; [|done|sets].
        intros l Hl. apply Hfr. sets.
      * sets.
      * sets.
Qed.

Lemma lit_set_absent k t' ts :
  field k ts = None → lit_set k t' ts = (ts ++ [(k, t')])%list.
Proof.
  induction ts as [|[k0 t0] r IH]; simpl; [done|].
  destruct (decide (k0 = k)); [done|]. intros H. by rewrite IH.
Qed.

Lemma repr_fields_append h h' m ts F k nv t' Fk' :
  repr_fields h m ts F → m !! k = None →
  (∀ l, l ∈ F → h' !! l = h !! l) → repr h' nv t' Fk' → Fk' ## F →
  repr_fields h' (<[k := nv]> m) (lit_set k t' ts) (F ∪ Fk').
Proof.
  induction 1 as [m ->|m k0 v0 t0 ts F1 F2 F Hk0 Hv0 Hr IH Hd ->];
    intros Hk Hfr Hnv Hdis; simpl.
  - eapply (repr_cons h' _ k nv t' [] Fk' ∅);
      [apply lookup_insert_eq|done| |sets|sets].
    constructor. by rewrite delete_insert_eq, delete_empty.
  - assert (Hne : k0 ≠ k) by (intros ->; congruence).
    rewrite decide_False by done.
    eapply (repr_cons h' _ k0 v0 t0 _ F1 (F2 ∪ Fk')).
    + by rewrite lookup_insert_ne.
    + eapply repr_frame; [exact Hv0|]. intros l Hl. apply Hfr. sets.
    + rewrite delete_insert_ne by done. apply IH.
      * by rewrite lookup_delete_ne.
      * intros l Hl. apply Hfr. sets.
      * done.
      * sets.
    + sets.
    + sets.
Qed.

Lemma repr_fields_field h m ts F k t :
  repr_fields h m ts F → field k ts = Some t →
  ∃ v Fk, m !! k = Some v ∧ repr h v t Fk ∧ Fk ⊆ F.
Proof.
  induction 1 as [m ->|m k0 v0 t0 ts F1 F2 F Hk0 Hv0 Hr IH Hd ->]; simpl; [done|].
  destruct (decide (k0 = k)) as [->|Hne].
  - intros [= <-]. exists v0, F1. split; [done|]. split; [done|]. sets.
  - intros Hf. destruct (IH Hf) as (v & Fk & Hv & Hrep & Hsub).
    rewrite lookup_delete_ne in Hv by done.
    exists v, Fk. split; [done|]. split; [done|]. sets.
Qed.

(** ** [_.merge] of a literal, read on trees *)

Lemma literal_obj fs :
  literal (LObj fs) = true →
  Forall (λ kv, literal kv.2 = true) fs ∧ NoDup fs.*1 ∧ Forall ordinary fs.*1.
Proof.
  simpl. intros H. apply andb_prop in H as [H H3]. apply andb_prop in H as [H1 H2].
  split; [|split].
  - apply Forall_forall. intros kv Hkv. rewrite forallb_forall in H1.
    apply H1. by apply list_elem_of_In.
  - by apply bool_decide_eq_true in H2.
  - by apply bool_decide_eq_true in H3.
Qed.

Lemma obj_in_ordinary o k :
  ordinary k → kind o = KPlain → fields o !! k = None → obj_in o k = false.
Proof.
  intros Hk Hp Hf. unfold obj_in. rewrite Hf, Hp.
  rewrite (bool_decide_eq_false_2 (is_Some None)) by (by intros [? ?]).
  by rewrite (bool_decide_eq_false_2 (k ∈ Object_prototype_names)).
Qed.

Lemma assign_obj_fields_absent k v o :
  ordinary k → kind o = KPlain → fields o !! k = None →
  fields (assign_obj k v o) = <[k := v]> (fields o).
Proof.
  intros Hk Hp Hf. destruct (decide (v = VUndefined)) as [->|Hv].
  - unfold assign_obj. rewrite decide_True by done.
    by rewrite obj_in_ordinary.
  - by apply assign_obj_fields_defined.
Qed.

Lemma assign_field_absent k t' os :
  field k os = None → assign_field k t' os = lit_set k t' os.
Proof.
  intros H. unfold assign_field. rewrite H. by repeat case_match.
Qed.

Lemma assign_field_defined k t' os :
  t' ≠ LAtom VUndefined → assign_field k t' os = lit_set k t' os.
Proof. intros H. unfold assign_field. by repeat case_match. Qed.

Lemma assign_step l k s h o os Fc :
  merge_spec s → literal s = true → ordinary k →
  h !! l = Some o → kind o = KPlain → repr_fields h (fields o) os Fc → l ∉ Fc →
  ∃ o' Fc',
    assignMergeValue l k (baseMergeDeep s (heap_get h l k) h).1
      (baseMergeDeep s (heap_get h l k) h).2 !! l = Some o'
    ∧ kind o' = KPlain
    ∧ repr_fields
        (assignMergeValue l k (baseMergeDeep s (heap_get h l k) h).1
           (baseMergeDeep s (heap_get h l k) h).2)
        (fields o') (assign_field k (merged s (field k os)) os) Fc'
    ∧ (l ∉ Fc')
    ∧ (∀ x, x ∈ Fc' → x ∈ Fc ∨ x ∉ dom h)
    ∧ (∀ x, x ∈ dom h → x ∉ Fc → x ≠ l →
            assignMergeValue l k (baseMergeDeep s (heap_get h l k) h).1
              (baseMergeDeep s (heap_get h l k) h).2 !! x = h !! x)
    ∧ dom h ⊆ dom (assignMergeValue l k (baseMergeDeep s (heap_get h l k) h).1
                     (baseMergeDeep s (heap_get h l k) h).2).
Proof.
  intros Hspec Hlit Hk Hl Hp Hrep HlF.
  assert (Hld : l ∈ dom h) by (apply elem_of_dom; eauto).
  pose proof (repr_fields_dom _ _ _ _ Hrep) as HFc.
  assert (Hget : heap_get h l k = default VUndefined (fields o !! k)).
  { unfold heap_get, obj_get. by rewrite Hl. }
  rewrite Hget.
  destruct (fields o !! k) as [v|] eqn:Ek; simpl.
  - destruct (repr_fields_update _ _ _ _ _ _ Hrep Ek)
      as (t & Fk & Fr & Hf & Hv & Hdis & -> & Hupd).
    rewrite Hf.
    assert (Hcase : s = LAtom VUndefined ∨ s ≠ LAtom VUndefined).
    { destruct s as [w| |]; [|by right|by right].
      destruct (decide (w = VUndefined)) as [->|]; [by left|right; congruence]. }
    destruct Hcase as [->|Hs].
    { rewrite baseMergeDeep_atom. simpl.
      rewrite (assignMergeValue_lookup l k VUndefined h o Hl).
      assert (Ho : assign_obj k VUndefined o = o).
      { apply assign_obj_undefined_in, obj_in_own. rewrite Ek. eauto. }
      rewrite Ho, insert_id by done.
      unfold assign_field. simpl. rewrite Hf.
      exists o, (Fk ∪ Fr). split; [done|]. split; [done|]. split; [done|].
      split; [done|]. split; [by left|]. split; done. }
    destruct (Hspec h v (Some t) Fk Hlit Hv) as (F' & Hnew & Horig & Hframe & Hdom).
    set (nv := (baseMergeDeep s v h).1) in *.
    set (h2 := (baseMergeDeep s v h).2) in *.
    assert (Hl2 : h2 !! l = Some o).
    { rewrite Hframe; [done|done|]. intros Hc. apply HlF. sets. }
    assert (Hnv : nv ≠ VUndefined ∧ merged s (Some t) ≠ LAtom VUndefined).
    { destruct s as [w|gs|es]; [| |done].
      - unfold nv. rewrite baseMergeDeep_atom. simpl. split; congruence.
      - unfold nv. rewrite baseMergeDeep_obj. split; [|by rewrite merged_obj].
        by destruct v; simpl. }
    destruct Hnv as [Hnv Ht'].
    rewrite (assignMergeValue_lookup l k nv h2 o Hl2).
    rewrite assign_field_defined by done.
    exists (assign_obj k nv o), (F' ∪ Fr).
    split; [apply lookup_insert_eq|]. split; [by rewrite assign_obj_kind|].
    assert (HlF' : l ∉ F').
    { intros Hc. destruct (Horig l Hc) as [H|H]; [|done]. apply HlF. sets. }
    split.
    { rewrite assign_obj_fields_defined by done. apply Hupd.
      - intros x Hx. rewrite lookup_insert_ne by (intros <-; apply HlF; sets).
        apply Hframe; [apply HFc; sets|]. intros Hc. sets.
      - eapply repr_frame; [exact Hnew|]. intros x Hx.
        apply lookup_insert_ne. by intros <-.
      - intros x Hx1 Hx2. destruct (Horig x Hx1) as [H|H]; [sets|].
        apply H, HFc. sets. }
    split; [intros Hc; apply elem_of_union in Hc as [Hc|Hc]; [done|apply HlF; sets]|].
    split.
    { intros x Hx. apply elem_of_union in Hx as [Hx|Hx].
      - destruct (Horig x Hx); [left; sets|by right].
      - left. sets. }
    split.
    { intros x Hx HxF Hxl. rewrite lookup_insert_ne by done.
      apply Hframe; [done|]. intros Hc. apply HxF. sets. }
    intros x Hx. apply dom_insert, elem_of_union_r, Hdom, Hx.
  - assert (Hf : field k os = None) by by apply (repr_fields_keys _ _ _ _ Hrep).
    rewrite Hf.
    destruct (Hspec h VUndefined None ∅ Hlit (conj eq_refl eq_refl))
      as (F' & Hnew & Horig & Hframe & Hdom).
    set (nv := (baseMergeDeep s VUndefined h).1) in *.
    set (h2 := (baseMergeDeep s VUndefined h).2) in *.
    assert (Hl2 : h2 !! l = Some o) by (rewrite Hframe; done).
    rewrite (assignMergeValue_lookup l k nv h2 o Hl2).
    rewrite assign_field_absent by done.
    assert (HlF' : l ∉ F').
    { intros Hc. destruct (Horig l Hc) as [H|H]; [by apply elem_of_empty in H|done]. }
    exists (assign_obj k nv o), (Fc ∪ F').
    split; [apply lookup_insert_eq|]. split; [by rewrite assign_obj_kind|].
    split.
    { rewrite assign_obj_fields_absent by done.
      apply (repr_fields_append h); [done|done| | |].
      - intros x Hx. rewrite lookup_insert_ne by (by intros <-).
        apply Hframe; [by apply HFc|]. apply not_elem_of_empty.
      - eapply repr_frame; [exact Hnew|]. intros x Hx.
        apply lookup_insert_ne. by intros <-.
      - intros x Hx1 Hx2. destruct (Horig x Hx1) as [H|H];
          [by apply elem_of_empty in H|]. by apply H, HFc. }
    split; [intros Hc; apply elem_of_union in Hc as [Hc|Hc]; done|].
    split.
    { intros x Hx. apply elem_of_union in Hx as [Hx|Hx]; [by left|].
      destruct (Horig x Hx) as [H|H]; [by apply elem_of_empty in H|by right]. }
    split.
    { intros x Hx HxF Hxl. rewrite lookup_insert_ne by done.
      apply Hframe; [done|]. apply not_elem_of_empty. }
    intros x Hx. apply dom_insert, elem_of_union_r, Hdom, Hx.
Qed.

Lemma baseMerge_repr l fs :
  Forall (λ kv, merge_spec kv.2) fs →
  Forall (λ kv, literal kv.2 = true) fs →
  Forall ordinary fs.*1 →
  ∀ h o os Fc,
    h !! l = Some o → kind o = KPlain → repr_fields h (fields o) os Fc →
    l ∉ Fc →
    ∃ o' Fc',
      baseMerge l fs h !! l = Some o' ∧ kind o' = KPlain
      ∧ repr_fields (baseMerge l fs h) (fields o') (merge_fields fs os) Fc'
      ∧ (l ∉ Fc')
      ∧ (∀ x, x ∈ Fc' → x ∈ Fc ∨ x ∉ dom h)
      ∧ (∀ x, x ∈ dom h → x ∉ Fc → x ≠ l → baseMerge l fs h !! x = h !! x)
      ∧ dom h ⊆ dom (baseMerge l fs h).
Proof.
  induction fs as [|[k s] r IH]; intros Hs Hlit Hord h o os Fc Hl Hp Hrep HlF.
  - exists o, Fc. split; [done|]. split; [done|]. split; [done|].
    split; [done|]. split; [by left|]. split; done.
  - apply Forall_cons in Hs as [Hs Hs']. apply Forall_cons in Hlit as [Hlit Hlit'].
    simpl in Hord. apply Forall_cons in Hord as [Hk Hord].
    rewrite baseMerge_cons.
    destruct (assign_step l k s h o os Fc Hs Hlit Hk Hl Hp Hrep HlF)
      as (o1 & F1 & Hl1 & Hp1 & Hrep1 & HlF1 & Horig1 & Hframe1 & Hdom1).
    destruct (IH Hs' Hlit' Hord _ o1 _ F1 Hl1 Hp1 Hrep1 HlF1)
      as (o2 & F2 & Hl2 & Hp2 & Hrep2 & HlF2 & Horig2 & Hframe2 & Hdom2).
    exists o2, F2. split; [done|]. split; [done|]. split; [done|].
    split; [done|]. split.
    { intros x Hx. destruct (Horig2 x Hx) as [H|H]; [by apply Horig1|].
      right. intros Hc. by apply H, Hdom1. }
    split.
    { intros x Hx HxF Hxl. rewrite Hframe2; [by apply Hframe1|by apply Hdom1| |done].
      intros Hc. destruct (Horig1 x Hc); done. }
    intros x Hx. by apply Hdom2, Hdom1.
Qed.

Lemma merge_spec_all src : merge_spec src.
Proof.
  induction src as [v|fs IH|es IH] using lit_nested_ind;
    intros h ov told F Hlit Hold.
  - rewrite baseMergeDeep_atom. simpl. exists ∅.
    split; [constructor; simpl in Hlit; by destruct (is_ref v)|].
    split; [intros l Hl; by apply elem_of_empty in Hl|]. split; done.
  - destruct (literal_obj fs Hlit) as (Hl1 & _ & Hl3).
    rewrite baseMergeDeep_obj, merged_obj.
    assert (Hnew : ∀ v, is_ref v = false → fields_of told = [] →
      ∃ F', repr (let '(l, h1) := match v with
                                   | VRef l' => (l', h)
                                   | _ => alloc_in (plain ∅) h
                                   end in (VRef l, baseMerge l fs h1)).2
              (let '(l, h1) := match v with
                                 | VRef l' => (l', h)
                                 | _ => alloc_in (plain ∅) h
                                 end in (VRef l, baseMerge l fs h1)).1
              (LObj (merge_fields fs (fields_of told))) F'
        ∧ (∀ l, l ∈ F' → l ∈ F ∨ l ∉ dom h)
        ∧ (∀ l, l ∈ dom h → l ∉ F →
             (let '(l, h1) := match v with
                              | VRef l' => (l', h)
                              | _ => alloc_in (plain ∅) h
                              end in (VRef l, baseMerge l fs h1)).2 !! l = h !! l)
        ∧ dom h ⊆ dom (let '(l, h1) := match v with
                                        | VRef l' => (l', h)
                                        | _ => alloc_in (plain ∅) h
                                        end in (VRef l, baseMerge l fs h1)).2).
    { intros v Hv ->.
      assert (E : match v with
                  | VRef l' => (l', h)
                  | _ => alloc_in (plain ∅) h
                  end = alloc_in (plain ∅) h) by by destruct v.
      rewrite E. unfold alloc_in. simpl.
      set (l := fresh (dom h)).
      assert (Hfresh : l ∉ dom h) by apply is_fresh.
      destruct (baseMerge_repr l fs IH Hl1 Hl3 (<[l := plain ∅]> h) (plain ∅) [] ∅)
        as (o' & Fc' & Hl' & Hp' & Hrep' & HlF' & Horig' & Hframe' & Hdom').
      { apply lookup_insert_eq. }
      { done. }
      { by constructor. }
      { apply not_elem_of_empty. }
      exists ({[l]} ∪ Fc'). split; [by eapply repr_obj|].
      assert (Hsub : dom h ⊆ dom (<[l := plain ∅]> h)).
      { intros x Hx. by apply dom_insert, elem_of_union_r. }
      split.
      { intros x Hx. right. apply elem_of_union in Hx as [Hx|Hx].
        - apply elem_of_singleton in Hx as ->. done.
        - destruct (Horig' x Hx) as [H|H]; [by apply elem_of_empty in H|].
          intros Hc. by apply H, Hsub. }
      split.
      { intros x Hx _. rewrite Hframe'.
        - apply lookup_insert_ne. by intros <-.
        - by apply Hsub.
        - apply not_elem_of_empty.
        - by intros ->. }
      intros x Hx. by apply Hdom', Hsub. }
    destruct told as [t|]; simpl in Hold.
    + inversion Hold as [v Hv|l o ts Fc F' Hl Hp Hrep HlF HF]; subst.
      * by apply Hnew.
      * simpl.
        destruct (baseMerge_repr l fs IH Hl1 Hl3 h o ts Fc Hl Hp Hrep HlF)
          as (o' & Fc' & Hl' & Hp' & Hrep' & HlF' & Horig' & Hframe' & Hdom').
        exists ({[l]} ∪ Fc'). split; [by eapply repr_obj|]. split.
        { intros x Hx. apply elem_of_union in Hx as [Hx|Hx].
          - left. by apply elem_of_union_l.
          - destruct (Horig' x Hx); [left; by apply elem_of_union_r|by right]. }
        split; [|done].
        intros x Hx HxF. apply Hframe'; [done| |].
        -- intros Hc. apply HxF. by apply elem_of_union_r.
        -- intros ->. apply HxF. by apply elem_of_union_l, elem_of_singleton.
    + destruct Hold as [-> ->]. apply (Hnew VUndefined); done.
  - done.
Qed.

(** ** Declaring an object literal *)

Lemma meta_fields_own (s : state) (mk : string) (t : objref) (la : loc)
    (o : object) :
  metadata s !! (oid_of t, None, mk) = Some (VRef la) →
  heap s !! la = Some o →
  meta_fields s mk t = fields o.
Proof.
  intros Hm Hl. unfold meta_fields, meta_value.
  rewrite (OrdinaryGetMetadata_own mk t None _ (VRef la) Hm). simpl. by rewrite Hl.
Qed.

Lemma define_merge_existing_literal (mk : string) (t : objref) (key : string)
    (P : list (string * lit)) (s : state) (r : loc) (T : lit) (F : gset loc) :
  key ≠ "__proto__" →
  literal (LObj P) = true →
  meta_fields s mk t !! key = Some (VRef r) →
  repr (heap s) (VRef r) T F →
  ∃ s' F',
    define_merge mk t key (LObj P) s = Return tt s'
    ∧ meta_fields s' mk t = meta_fields s mk t
    ∧ repr (heap s') (VRef r) (merged (LObj P) (Some T)) F'
    ∧ metadata s'
      = <[(oid_of t, None, mk) := VRef (fresh (dom (heap s)))]> (metadata s)
    ∧ (∀ x, x ∈ F' → x ∈ F ∨ x ∉ dom (heap s))
    ∧ (∀ x, x ∈ dom (heap s) → x ∉ F → heap s' !! x = heap s !! x)
    ∧ dom (heap s) ⊆ dom (heap s')
    ∧ is_Some (heap s' !! fresh (dom (heap s))).
Proof.
  intros Hproto Hlit Hkey Hrep.
  rewrite define_merge_ordinary by done.
  set (la := fresh (dom (heap s))).
  set (mf := meta_fields s mk t) in *.
  set (h1 := <[la := plain mf]> (heap s)).
  assert (Hla : la ∉ dom (heap s)) by apply is_fresh.
  pose proof (repr_dom _ _ _ _ Hrep) as HF.
  assert (HlaF : la ∉ F) by (intros Hc; by apply Hla, HF).
  assert (Hsub : dom (heap s) ⊆ dom h1).
  { intros x Hx. by apply dom_insert, elem_of_union_r. }
  assert (Hrep1 : repr h1 (VRef r) T F).
  { eapply repr_frame; [exact Hrep|]. intros x Hx.
    apply lookup_insert_ne. by intros <-. }
  assert (Hget : heap_get h1 la key = VRef r).
  { unfold heap_get, h1, obj_get. rewrite lookup_insert_eq. simpl. by rewrite Hkey. }
  rewrite baseMerge_single, Hget.
  destruct (merge_spec_all (LObj P) h1 (VRef r) (Some T) F Hlit Hrep1)
    as (F' & Hnew & Horig & Hframe & Hdom).
  rewrite baseMergeDeep_obj in *. simpl in *.
  set (h2 := baseMerge r P h1) in *.
  assert (Hla2 : h2 !! la = Some (plain mf)).
  { rewrite Hframe; [apply lookup_insert_eq|apply dom_insert, elem_of_union_l;
      by apply elem_of_singleton|done]. }
  rewrite (assignMergeValue_lookup la key (VRef r) h2 (plain mf) Hla2).
  rewrite assign_obj_same by done. rewrite insert_id by done.
  eexists _, F'. split; [reflexivity|]. cbn [heap metadata].
  split.
  { apply (meta_fields_own _ mk t la (plain mf)); [apply lookup_insert_eq|done]. }
  split; [done|]. split; [done|]. split.
  { intros x Hx. destruct (Horig x Hx) as [H|H]; [by left|].
    right. intros Hc. by apply H, Hsub. }
  split.
  { intros x Hx HxF. rewrite Hframe; [|by apply Hsub|done].
    apply lookup_insert_ne. by intros <-. }
  split; [|by eauto].
  intros x Hx. by apply Hdom, Hsub.
Qed.

Lemma repr_obj_inv (h : gmap loc object) (v : value) (ts : list (string * lit))
    (F : gset loc) :
  repr h v (LObj ts) F →
  ∃ l o Fc, v = VRef l ∧ h !! l = Some o ∧ kind o = KPlain
            ∧ repr_fields h (fields o) ts Fc ∧ (l ∉ Fc) ∧ F = {[l]} ∪ Fc.
Proof. inversion 1; subst; eauto 10. Qed.

Lemma define_merge_first_literal (mk : string) (t : objref) (key : string)
    (P : list (string * lit)) (s : state) :
  key ≠ "__proto__" →
  literal (LObj P) = true →
  meta_fields s mk t !! key = None →
  ∃ s' r F',
    define_merge mk t key (LObj P) s = Return tt s'
    ∧ meta_fields s' mk t = <[key := VRef r]> (meta_fields s mk t)
    ∧ repr (heap s') (VRef r) (merged (LObj P) None) F'
    ∧ metadata s'
      = <[(oid_of t, None, mk) := VRef (fresh (dom (heap s)))]> (metadata s)
    ∧ (∀ x, x ∈ F' → x ∉ dom (heap s))
    ∧ (∀ x, x ∈ dom (heap s) → heap s' !! x = heap s !! x)
    ∧ dom (heap s) ⊆ dom (heap s')
    ∧ is_Some (heap s' !! fresh (dom (heap s))).
Proof.
  intros Hproto Hlit Hkey.
  rewrite define_merge_ordinary by done.
  set (la := fresh (dom (heap s))).
  set (mf := meta_fields s mk t) in *.
  set (h1 := <[la := plain mf]> (heap s)).
  assert (Hla : la ∉ dom (heap s)) by apply is_fresh.
  assert (Hla1 : la ∈ dom h1).
  { apply dom_insert, elem_of_union_l. by apply elem_of_singleton. }
  assert (Hsub : dom (heap s) ⊆ dom h1).
  { intros x Hx. by apply dom_insert, elem_of_union_r. }
  assert (Hget : heap_get h1 la key = VUndefined).
  { unfold heap_get, h1, obj_get. rewrite lookup_insert_eq. simpl. by rewrite Hkey. }
  rewrite baseMerge_single, Hget.
  destruct (merge_spec_all (LObj P) h1 VUndefined None ∅ Hlit (conj eq_refl eq_refl))
    as (F' & Hnew & Horig & Hframe & Hdom).
  set (nv := (baseMergeDeep (LObj P) VUndefined h1).1) in *.
  set (h2 := (baseMergeDeep (LObj P) VUndefined h1).2) in *.
  rewrite merged_obj in Hnew.
  assert (Hfresh : ∀ x, x ∈ F' → x ∉ dom h1).
  { intros x Hx. destruct (Horig x Hx) as [H|H]; [by apply elem_of_empty in H|done]. }
  destruct (repr_obj_inv _ _ _ _ Hnew) as (r & o & Fc & Hnv & _).
  rewrite Hnv in *.
  assert (Hla2 : h2 !! la = Some (plain mf)).
  { rewrite Hframe; [apply lookup_insert_eq|done|apply not_elem_of_empty]. }
  rewrite (assignMergeValue_lookup la key (VRef r) h2 (plain mf) Hla2).
  eexists _, r, F'. split; [reflexivity|]. cbn [heap metadata].
  split.
  { rewrite (meta_fields_own _ mk t la (assign_obj key (VRef r) (plain mf)));
      [|apply lookup_insert_eq|apply lookup_insert_eq].
    by rewrite assign_obj_fields_defined. }
  split.
  { rewrite merged_obj. eapply repr_frame; [exact Hnew|].
    intros x Hx. apply lookup_insert_ne. intros <-. by apply (Hfresh la). }
  split; [done|]. split.
  { intros x Hx Hc. by apply (Hfresh x Hx), Hsub. }
  split.
  { intros x Hx. rewrite lookup_insert_ne by (by intros <-).
    rewrite Hframe; [|by apply Hsub|apply not_elem_of_empty].
    apply lookup_insert_ne. by intros <-. }
  split; [|rewrite lookup_insert_eq; by eauto].
  intros x Hx. apply dom_insert, elem_of_union_r, Hdom, Hsub, Hx.
Qed.

(** ** The properties of a merged tree *)

Lemma field_assign_field k nv os f :
  field f (assign_field k nv os)
  = if decide (f = k)
    then match nv with
         | LAtom VUndefined => Some (default nv (field k os))
         | _ => Some nv
         end
    else field f os.
Proof.
  unfold assign_field.
  destruct nv as [[| | | | | |]| |]; try apply field_lit_set.
  destruct (field k os) as [x|] eqn:E.
  - destruct (decide (f = k)) as [->|]; [by rewrite E|done].
  - rewrite field_lit_set. by destruct (decide (f = k)).
Qed.

Lemma field_absent f (fs : list (string * lit)) : f ∉ fs.*1 → field f fs = None.
Proof.
  induction fs as [|[k v] r IH]; simpl; [done|].
  intros H. apply not_elem_of_cons in H as [H1 H2].
  rewrite decide_False by done. by apply IH.
Qed.

Lemma field_present f (fs : list (string * lit)) x :
  field f fs = Some x → f ∈ fs.*1.
Proof.
  induction fs as [|[k v] r IH]; simpl; [done|].
  destruct (decide (k = f)) as [->|]; [by left|]. intros H. right. by apply IH.
Qed.

Lemma merged_defined s o : s ≠ LAtom VUndefined → merged s o ≠ LAtom VUndefined.
Proof. destruct s as [v| |]; simpl; congruence. Qed.

Lemma merge_fields_field P :
  ∀ os f, NoDup P.*1 →
          field f (merge_fields P os) = merged_field (field f P) (field f os).
Proof.
  induction P as [|[k s] r IH]; intros os f Hnd; simpl; [done|].
  simpl in Hnd. apply NoDup_cons in Hnd as [Hk Hnd].
  rewrite IH by done. rewrite field_assign_field.
  destruct (decide (k = f)) as [->|Hne].
  - rewrite decide_True by done. rewrite (field_absent f r Hk). simpl.
    destruct s as [[| | | | | |]| |]; done.
  - rewrite decide_False by done. done.
Qed.

Lemma lit_set_keys k v fs f :
  f ∈ (lit_set k v fs).*1 ↔ f = k ∨ f ∈ fs.*1.
Proof.
  induction fs as [|[k' v'] r IH]; simpl.
  - rewrite list_elem_of_singleton. split; [by left|].
    intros [->|H]; [done|]. by apply elem_of_nil in H.
  - destruct (decide (k' = k)) as [->|Hne]; simpl.
    + rewrite !elem_of_cons. tauto.
    + rewrite !elem_of_cons, IH. tauto.
Qed.

Lemma lit_set_NoDup k v fs : NoDup fs.*1 → NoDup (lit_set k v fs).*1.
Proof.
  induction fs as [|[k' v'] r IH]; simpl; intros Hnd.
  - apply NoDup_singleton.
  - apply NoDup_cons in Hnd as [Hk Hnd].
    destruct (decide (k' = k)) as [->|Hne]; simpl.
    + by apply NoDup_cons.
    + apply NoDup_cons. split; [|by apply IH].
      rewrite lit_set_keys. intros [->|H]; done.
Qed.

Lemma lit_set_values (Q : lit → Prop) k v fs :
  Q v → Forall (λ kv, Q kv.2) fs → Forall (λ kv, Q kv.2) (lit_set k v fs).
Proof.
  intros Hv. induction fs as [|[k' v'] r IH]; simpl; intros H.
  - by constructor.
  - apply Forall_cons in H as [Ha Hb].
    destruct (decide (k' = k)); constructor; auto.
Qed.

Lemma literal_obj_intro fs :
  Forall (λ kv, literal kv.2 = true) fs → NoDup fs.*1 → Forall ordinary fs.*1 →
  literal (LObj fs) = true.
Proof.
  intros H1 H2 H3. simpl.
  rewrite (bool_decide_eq_true_2 _ H2), (bool_decide_eq_true_2 _ H3).
  rewrite !andb_true_r. apply forallb_forall. intros kv Hkv.
  rewrite Forall_forall in H1. apply H1. by apply list_elem_of_In.
Qed.

Lemma literal_lit_set k v fs :
  literal (LObj fs) = true → literal v = true → ordinary k →
  literal (LObj (lit_set k v fs)) = true.
Proof.
  intros Hfs Hv Hk. destruct (literal_obj fs Hfs) as (H1 & H2 & H3).
  apply literal_obj_intro.
  - by apply (lit_set_values (λ x, literal x = true)).
  - by apply lit_set_NoDup.
  - apply Forall_forall. intros f Hf.
    apply lit_set_keys in Hf as [->|Hf]; [done|].
    rewrite Forall_forall in H3. by apply H3.
Qed.

Lemma field_app f (os fs : list (string * lit)) :
  field f (os ++ fs) = match field f os with Some x => Some x | None => field f fs end.
Proof.
  induction os as [|[k v] r IH]; simpl; [done|].
  by destruct (decide (k = f)).
Qed.

Lemma merge_fields_fresh fs :
  ∀ os, NoDup fs.*1 → (∀ k, k ∈ fs.*1 → field k os = None) →
        Forall (λ kv, merged kv.2 None = kv.2) fs →
        merge_fields fs os = (os ++ fs)%list.
Proof.
  induction fs as [|[k s] r IH]; intros os Hnd Hfree Hm; simpl.
  - by rewrite app_nil_r.
  - simpl in Hnd. apply NoDup_cons in Hnd as [Hk Hnd].
    apply Forall_cons in Hm as [Hs Hm]. simpl in Hs.
    rewrite (Hfree k) by (by left). rewrite Hs.
    rewrite assign_field_absent by (apply Hfree; by left).
    rewrite lit_set_absent by (apply Hfree; by left).
    rewrite IH; [by rewrite <- app_assoc|done| |done].
    intros k' Hk'. rewrite field_app, (Hfree k') by (by right). simpl.
    rewrite decide_False; [done|]. by intros ->.
Qed.

Lemma merged_none src : literal src = true → merged src None = src.
Proof.
  induction src as [v|fs IH|es IH] using lit_nested_ind; intros Hlit; try done.
  destruct (literal_obj fs Hlit) as (H1 & H2 & _).
  rewrite merged_obj. simpl. f_equal.
  rewrite merge_fields_fresh; [done|done|done|].
  apply Forall_forall. intros kv Hkv.
  rewrite Forall_forall in IH, H1. by apply IH, H1.
Qed.

Lemma literal_atoms (P : list (string * value)) :
  literal (LObj (atoms P)) = true →
  NoDup P.*1 ∧ Forall (λ kv, is_ref kv.2 = false ∧ ordinary kv.1) P.
Proof.
  intros H. destruct (literal_obj _ H) as (H1 & H2 & H3).
  assert (Hk : (atoms P).*1 = P.*1).
  { unfold atoms. clear. induction P as [|[k v] r IH]; simpl; [done|].
    f_equal. exact IH. }
  rewrite Hk in H2, H3. split; [done|].
  apply Forall_forall. intros kv Hkv. split.
  - rewrite Forall_forall in H1.
    specialize (H1 (kv.1, LAtom kv.2)). simpl in H1.
    destruct (is_ref kv.2); [|done]. discriminate H1.
    unfold atoms. apply list_elem_of_fmap. by exists kv.
  - rewrite Forall_forall in H3. apply H3. apply list_elem_of_fmap. by exists kv.
Qed.

(** A declaration whose options are a literal, whether the key is free or
    has a record. *)
Lemma define_merge_declared (mk : string) (t : objref) (key : string)
    (P : list (string * lit)) (old : option lit) (F : gset loc) (s : state) :
  key ≠ "__proto__" →
  literal (LObj P) = true →
  declared s mk t key old F →
  ∃ s' F',
    define_merge mk t key (LObj P) s = Return tt s'
    ∧ declared s' mk t key (Some (merged (LObj P) old)) F'
    ∧ (∀ k, k ≠ key → meta_fields s' mk t !! k = meta_fields s mk t !! k)
    ∧ metadata s'
      = <[(oid_of t, None, mk) := VRef (fresh (dom (heap s)))]> (metadata s)
    ∧ (∀ x, x ∈ F' → x ∈ F ∨ x ∉ dom (heap s))
    ∧ (∀ x, x ∈ dom (heap s) → x ∉ F → heap s' !! x = heap s !! x)
    ∧ dom (heap s) ⊆ dom (heap s')
    ∧ is_Some (heap s' !! fresh (dom (heap s))).
Proof.
  intros Hproto Hlit Hd. destruct old as [T|]; simpl in Hd.
  - destruct Hd as (r & Hkey & Hrep).
    destruct (define_merge_existing_literal mk t key P s r T F Hproto Hlit Hkey Hrep)
      as (s' & F' & Hrun & Hmf & Hrep' & Hmd & Horig & Hfr & Hsub & Hla).
    exists s', F'. split; [done|]. split.
    { exists r. split; [by rewrite Hmf|done]. }
    split; [intros k _; by rewrite Hmf|]. done.
  - destruct Hd as [Hkey ->].
    destruct (define_merge_first_literal mk t key P s Hproto Hlit Hkey)
      as (s' & r & F' & Hrun & Hmf & Hrep' & Hmd & Horig & Hfr & Hsub & Hla).
    exists s', F'. split; [done|]. split.
    { exists r. split; [rewrite Hmf; apply lookup_insert_eq|done]. }
    split; [intros k Hk; rewrite Hmf; by apply lookup_insert_ne|].
    split; [done|]. split; [intros x Hx; right; by apply Horig|].
    split; [intros x Hx _; by apply Hfr|]. done.
Qed.

(** ** Merging attribute options, per field *)




Lemma literal_atoms_NoDup (P : list (string * value)) :
  literal (LObj (atoms P)) = true → NoDup P.*1.
Proof. intros H. by destruct (literal_atoms P H). Qed.

(** ** The flag decorators *)

(** X7: each of [@readOnly], [@required], [@optional], [@primary] and
    [@unique], applied under a key other than [__proto__] to a property
    that is free or has a plain object as its record, sets its one flag in
    the property's record ([optional: false] for [@required]) and keeps
    every other field of the record and every other key of the type. *)
Theorem flag_decorator_sets_flag (f : flag) (t : objref) (key : string) (s : state) :
  key ≠ "__proto__" →
  declarable s MODEL_ATTRS_META_KEY t key →
  kind (prior_record s MODEL_ATTRS_META_KEY t key) = KPlain →
  ∃ s' r orec',
    flag_decorator f t key s = Return tt s'
    ∧ record_of s' MODEL_ATTRS_META_KEY t key = Some (r, orec')
    ∧ fields orec'
      = <[flag_field f := VBool (flag_value f)]>
          (fields (prior_record s MODEL_ATTRS_META_KEY t key))
    ∧ (∀ key', key' ≠ key →
               meta_fields s' MODEL_ATTRS_META_KEY t !! key'
               = meta_fields s MODEL_ATTRS_META_KEY t !! key').
Proof.
  intros Hproto Hd _. rewrite flag_decorator_define_merge.
  destruct (define_merge_flat MODEL_ATTRS_META_KEY t key
              [(flag_field f, VBool (flag_value f))] s Hproto Hd)
    as (s' & Hrun & Hrec & Hmf & _).
  eexists s', _, _. split; [done|]. split; [done|]. split.
  - by apply assign_obj_fields_defined.
  - intros key' Hne. rewrite Hmf. by apply lookup_insert_ne.
Qed.

Lemma flag_decorator_sets_flag_witness :
  ∃ s' r orec',
    required User_prototype "email" email_declared = Return tt s'
    ∧ record_of s' MODEL_ATTRS_META_KEY User_prototype "email" = Some (r, orec')
    ∧ fields orec'
      = <["optional" := VBool false]> {["type" := VStr "STRING"]}.
Proof.
  destruct (flag_decorator_sets_flag Required User_prototype "email" email_declared)
    as (s' & r & orec' & H1 & H2 & H3 & _).
  - discriminate.
  - apply (bool_decide_unpack _). vm_compute. exact I.
  - vm_compute. reflexivity.
  - exists s', r, orec'. split; [exact H1|]. split; [exact H2|].
    rewrite H3. vm_compute. reflexivity.
Defined.

(** ** Reordered and repeated declarations *)

(** X8: two flat declarations for the same property (a key other than
    [__proto__], free or with a plain object as its record) whose options
    are literals of primitives and functions with no field in common give
    the same record fields in either order, so the order in which such
    decorators are applied does not matter. *)
Theorem declaration_order_irrelevant (t : objref) (key : string)
    (P Q : list (string * value)) (s : state) :
  key ≠ "__proto__" →
  declarable s MODEL_ATTRS_META_KEY t key →
  kind (prior_record s MODEL_ATTRS_META_KEY t key) = KPlain →
  literal (LObj (atoms P)) = true →
  literal (LObj (atoms Q)) = true →
  (∀ f, f ∈ P.*1 → f ∉ Q.*1) →
  ∃ s12 s21 r o12 o21,
    (run defineAttribute t key (LObj (atoms P)) in
     defineAttribute t key (LObj (atoms Q))) s = Return tt s12
    ∧ (run defineAttribute t key (LObj (atoms Q)) in
       defineAttribute t key (LObj (atoms P))) s = Return tt s21
    ∧ record_of s12 MODEL_ATTRS_META_KEY t key = Some (r, o12)
    ∧ record_of s21 MODEL_ATTRS_META_KEY t key = Some (r, o21)
    ∧ fields o12 = fields o21
    ∧ kind o12 = kind o21
    ∧ meta_fields s12 MODEL_ATTRS_META_KEY t = meta_fields s21 MODEL_ATTRS_META_KEY t.
Proof.
  intros Hproto Hd _ HlP HlQ Hdisj. rewrite defineAttribute_define_merge.
  pose proof (literal_atoms_NoDup P HlP) as HP.
  pose proof (literal_atoms_NoDup Q HlQ) as HQ.
  set (mk := MODEL_ATTRS_META_KEY).
  destruct (define_merge_flat mk t key P s Hproto Hd) as (sp & Hp1 & Hp2 & Hp3 & _).
  destruct (define_merge_flat mk t key Q s Hproto Hd) as (sq & Hq1 & Hq2 & Hq3 & _).
  destruct (declarable_after sp mk t key _ _ Hp2) as (Dp & Lp & Rp).
  destruct (declarable_after sq mk t key _ _ Hq2) as (Dq & Lq & Rq).
  destruct (define_merge_flat mk t key Q sp Hproto Dp)
    as (spq & Hpq1 & Hpq2 & Hpq3 & _).
  destruct (define_merge_flat mk t key P sq Hproto Dq)
    as (sqp & Hqp1 & Hqp2 & Hqp3 & _).
  rewrite Lp, Rp in Hpq2. rewrite Lp in Hpq3.
  rewrite Lq, Rq in Hqp2. rewrite Lq in Hqp3.
  destruct (assign_all_comm (prior_record s mk t key) P Q HP HQ Hdisj) as [Hf Hk].
  eexists spq, sqp, _, _, _.
  split; [unfold bind; by rewrite Hp1|].
  split; [unfold bind; by rewrite Hq1|].
  split; [done|]. split; [done|]. split; [done|]. split; [done|].
  rewrite Hpq3, Hqp3, Hp3, Hq3. by rewrite !insert_insert_eq.
Qed.

Lemma declaration_order_irrelevant_witness :
  ∃ s12 s21 r o12 o21,
    (run primary User_prototype "id" in unique User_prototype "id") empty_state
      = Return tt s12
    ∧ (run unique User_prototype "id" in primary User_prototype "id") empty_state
      = Return tt s21
    ∧ record_of s12 MODEL_ATTRS_META_KEY User_prototype "id" = Some (r, o12)
    ∧ record_of s21 MODEL_ATTRS_META_KEY User_prototype "id" = Some (r, o21)
    ∧ fields o12 = fields o21.
Proof.
  destruct (declaration_order_irrelevant User_prototype "id"
              [("primary", VBool true)] [("unique", VBool true)] empty_state)
    as (s12 & s21 & r & o12 & o21 & H1 & H2 & H3 & H4 & H5 & _).
  - discriminate.
  - left. reflexivity.
  - reflexivity.
  - vm_compute. reflexivity.
  - vm_compute. reflexivity.
  - simpl. intros f Hf Hg. apply list_elem_of_singleton in Hf, Hg. congruence.
  - exists s12, s21, r, o12, o21. done.
Defined.

(** X9: declaring the same flat literal of primitives and functions a
    second time for a property (a key other than [__proto__], free or with
    a plain object as its record) leaves the property's record exactly as
    the first declaration left it. *)
Theorem redeclaration_idempotent (t : objref) (key : string)
    (P : list (string * value)) (s : state) :
  key ≠ "__proto__" →
  declarable s MODEL_ATTRS_META_KEY t key →
  kind (prior_record s MODEL_ATTRS_META_KEY t key) = KPlain →
  literal (LObj (atoms P)) = true →
  ∃ s1 s2 r o,
    defineAttribute t key (LObj (atoms P)) s = Return tt s1
    ∧ defineAttribute t key (LObj (atoms P)) s1 = Return tt s2
    ∧ record_of s1 MODEL_ATTRS_META_KEY t key = Some (r, o)
    ∧ record_of s2 MODEL_ATTRS_META_KEY t key = Some (r, o)
    ∧ meta_fields s2 MODEL_ATTRS_META_KEY t = meta_fields s1 MODEL_ATTRS_META_KEY t.
Proof.
  intros Hproto Hd _ HlP. rewrite defineAttribute_define_merge.
  pose proof (literal_atoms_NoDup P HlP) as HP.
  set (mk := MODEL_ATTRS_META_KEY).
  destruct (define_merge_flat mk t key P s Hproto Hd) as (s1 & H1 & H2 & H3 & _).
  destruct (declarable_after s1 mk t key _ _ H2) as (D1 & L1 & R1).
  destruct (define_merge_flat mk t key P s1 Hproto D1) as (s2 & K1 & K2 & K3 & _).
  rewrite L1, R1 in K2. rewrite L1 in K3. rewrite assign_all_idem in K2 by done.
  eexists s1, s2, _, _. split; [done|]. split; [done|]. split; [done|].
  split; [done|]. rewrite K3, H3. by rewrite insert_insert_eq.
Qed.

Lemma redeclaration_idempotent_witness :
  ∃ s1 s2 r o,
    defineAttribute User_prototype "email"
      (LObj (atoms [("optional", VBool true); ("unique", VBool true)])) email_declared
      = Return tt s1
    ∧ defineAttribute User_prototype "email"
        (LObj (atoms [("optional", VBool true); ("unique", VBool true)])) s1
      = Return tt s2
    ∧ record_of s1 MODEL_ATTRS_META_KEY User_prototype "email" = Some (r, o)
    ∧ record_of s2 MODEL_ATTRS_META_KEY User_prototype "email" = Some (r, o).
Proof.
  destruct (redeclaration_idempotent User_prototype "email"
              [("optional", VBool true); ("unique", VBool true)] email_declared)
    as (s1 & s2 & r & o & H1 & H2 & H3 & H4 & _).
  - discriminate.
  - apply (bool_decide_unpack _). vm_compute. exact I.
  - vm_compute. reflexivity.
  - vm_compute. reflexivity.
  - exists s1, s2, r, o. done.
Defined.

(** ** Decorators with arguments, on literals *)

(** X10: [@defaultValue(v)] with a primitive or a function [v], under a
    key other than [__proto__] that is free or has a plain object as its
    record, sets the default of the property and keeps every other field
    of its record; with [undefined] it does not clear a default that is
    already there. *)
Theorem defaultValue_sets_default (v : value) (t : objref) (key : string)
    (s : state) :
  key ≠ "__proto__" →
  is_ref v = false →
  declarable s MODEL_ATTRS_META_KEY t key →
  kind (prior_record s MODEL_ATTRS_META_KEY t key) = KPlain →
  ∃ s' r orec',
    defaultValue (LAtom v) t key s = Return tt s'
    ∧ record_of s' MODEL_ATTRS_META_KEY t key = Some (r, orec')
    ∧ (v ≠ VUndefined → fields orec' !! "defaultValue" = Some v)
    ∧ (∀ d, v = VUndefined →
            fields (prior_record s MODEL_ATTRS_META_KEY t key) !! "defaultValue"
              = Some d →
            fields orec' !! "defaultValue" = Some d)
    ∧ (∀ f, f ≠ "defaultValue" →
            fields orec' !! f
            = fields (prior_record s MODEL_ATTRS_META_KEY t key) !! f).
Proof.
  intros Hproto _ Hd _. unfold defaultValue. rewrite defineAttribute_define_merge.
  destruct (define_merge_flat MODEL_ATTRS_META_KEY t key [("defaultValue", v)] s
              Hproto Hd)
    as (s' & Hrun & Hrec & _).
  eexists s', _, _. split; [exact Hrun|]. split; [exact Hrec|].
  change (assign_all (prior_record s MODEL_ATTRS_META_KEY t key)
            [("defaultValue", v)])
    with (assign_obj "defaultValue" v (prior_record s MODEL_ATTRS_META_KEY t key)).
  split; [by apply assign_obj_defined|]. split.
  - intros d -> Hdef. by apply assign_obj_undefined.
  - intros f Hf. by apply assign_obj_other.
Qed.

Lemma defaultValue_sets_default_witness :
  ∃ s' r orec',
    defaultValue (LAtom (VNum 5)) User_prototype "email" email_declared
      = Return tt s'
    ∧ record_of s' MODEL_ATTRS_META_KEY User_prototype "email" = Some (r, orec')
    ∧ fields orec' !! "defaultValue" = Some (VNum 5)
    ∧ fields orec' !! "type" = Some (VStr "STRING").
Proof.
  destruct (defaultValue_sets_default (VNum 5) User_prototype "email" email_declared)
    as (s' & r & orec' & H1 & H2 & H3 & _ & H4).
  - discriminate.
  - reflexivity.
  - apply (bool_decide_unpack _). vm_compute. exact I.
  - vm_compute. reflexivity.
  - exists s', r, orec'. split; [exact H1|]. split; [exact H2|]. split.
    + by apply H3.
    + rewrite H4 by done. vm_compute. reflexivity.
Defined.

Lemma ordinary_type : ordinary "type".
Proof. apply (bool_decide_unpack _). vm_compute. exact I. Qed.

(** X11: [@attr(type, options)] merges [{ ... options, type }]. For a
    type and options that are literals of plain data, under a key other
    than [__proto__] that is free or has a tree of plain objects as its
    record: the [type] field of the record afterwards comes from the type
    given to the decorator (merged into the earlier type when that is an
    object, and kept as it was when the decorator's type is [undefined]),
    whatever [type] the options carry; every other field comes from the
    options and the earlier record as in any merge. *)
Theorem attr_type_wins (ty : lit) (opts : option (list (string * lit)))
    (t : objref) (key : string) (old : option lit) (F : gset loc) (s : state) :
  key ≠ "__proto__" →
  literal ty = true →
  literal (LObj (default [] opts)) = true →
  declared s MODEL_ATTRS_META_KEY t key old F →
  ∃ s' F' R,
    attr ty opts t key s = Return tt s'
    ∧ declared s' MODEL_ATTRS_META_KEY t key (Some (LObj R)) F'
    ∧ field "type" R = merged_field (Some ty) (field "type" (fields_of old))
    ∧ (∀ f, f ≠ "type" →
            field f R
            = merged_field (field f (default [] opts)) (field f (fields_of old))).
Proof.
  intros Hproto Hty Hopts Hd. unfold attr. rewrite defineAttribute_define_merge.
  set (P := lit_set "type" ty (default [] opts)).
  assert (Hlit : literal (LObj P) = true)
    by (apply literal_lit_set; [done|done|apply ordinary_type]).
  destruct (define_merge_declared MODEL_ATTRS_META_KEY t key P old F s Hproto Hlit Hd)
    as (s' & F' & Hrun & Hd' & _).
  destruct (literal_obj P Hlit) as (_ & Hnd & _).
  exists s', F', (merge_fields P (fields_of old)).
  split; [done|]. split; [by rewrite <- merged_obj|]. split.
  - rewrite merge_fields_field by done. unfold P. rewrite field_lit_set.
    by rewrite decide_True.
  - intros f Hf. rewrite merge_fields_field by done. unfold P.
    rewrite field_lit_set. by rewrite decide_False.
Qed.

Lemma attr_type_wins_witness :
  ∃ s' F' R,
    attr (LObj [("name", LAtom (VStr "STRING"))])
      (Some [("type", LAtom (VStr "INTEGER")); ("unique", LAtom (VBool true))])
      User_prototype "email" empty_state = Return tt s'
    ∧ declared s' MODEL_ATTRS_META_KEY User_prototype "email" (Some (LObj R)) F'
    ∧ field "type" R = Some (LObj [("name", LAtom (VStr "STRING"))])
    ∧ field "unique" R = Some (LAtom (VBool true)).
Proof.
  destruct (attr_type_wins (LObj [("name", LAtom (VStr "STRING"))])
              (Some [("type", LAtom (VStr "INTEGER")); ("unique", LAtom (VBool true))])
              User_prototype "email" None ∅ empty_state)
    as (s' & F' & R & H1 & H2 & H3 & H4).
  - discriminate.
  - vm_compute. reflexivity.
  - vm_compute. reflexivity.
  - split; [vm_compute; reflexivity|reflexivity].
  - exists s', F', R. split; [exact H1|]. split; [exact H2|]. split.
    + rewrite H3. reflexivity.
    + rewrite (H4 "unique") by discriminate. reflexivity.
Defined.

(** X12: [@assoc(type, target, options)] merges
    [{ ... options, type, target }]. For a target that is a primitive or a
    function and flat options that are a literal of primitives and
    functions, under a key other than [__proto__] that is free or has a
    plain object as its record: the record gets the link type; it gets the
    target when one is given, and an omitted ([undefined]) target leaves
    the target declared earlier in place. *)
Theorem assoc_keeps_earlier_target (ty : AssociationType) (tgt : value)
    (opts : option (list (string * value))) (c : objref) (key : string)
    (s : state) :
  key ≠ "__proto__" →
  is_ref tgt = false →
  literal (LObj (atoms (default [] opts))) = true →
  declarable s MODEL_ASSOCS_META_KEY c key →
  kind (prior_record s MODEL_ASSOCS_META_KEY c key) = KPlain →
  ∃ s' r orec',
    assoc ty tgt (atoms <$> opts) c key s = Return tt s'
    ∧ record_of s' MODEL_ASSOCS_META_KEY c key = Some (r, orec')
    ∧ fields orec' !! "type" = Some (AssociationType_value ty)
    ∧ (tgt ≠ VUndefined → fields orec' !! "target" = Some tgt)
    ∧ (∀ earlier, tgt = VUndefined →
                  fields (prior_record s MODEL_ASSOCS_META_KEY c key) !! "target"
                    = Some earlier →
                  fields orec' !! "target" = Some earlier)
    ∧ (∀ f, f ≠ "type" → f ≠ "target" → f ∉ (default [] opts).*1 →
            fields orec' !! f
            = fields (prior_record s MODEL_ASSOCS_META_KEY c key) !! f).
Proof.
  intros Hproto _ Hlit Hd _. pose proof (literal_atoms_NoDup _ Hlit) as Hnd.
  unfold assoc. rewrite atoms_default, !lit_set_atoms.
  rewrite defineAssociation_define_merge.
  set (P := pair_set "target" tgt
              (pair_set "type" (AssociationType_value ty) (default [] opts))).
  destruct (define_merge_flat MODEL_ASSOCS_META_KEY c key P s Hproto Hd)
    as (s' & Hrun & Hrec & _).
  assert (HP : NoDup P.*1) by by apply pair_set_NoDup, pair_set_NoDup.
  assert (Htgt : fields (assign_all (prior_record s MODEL_ASSOCS_META_KEY c key) P)
                   !! "target"
                 = assigned (prior_record s MODEL_ASSOCS_META_KEY c key) "target" tgt).
  { apply assign_all_present; [done|]. apply pair_set_in. }
  eexists s', _, _. split; [exact Hrun|]. split; [exact Hrec|]. split.
  { rewrite (assign_all_present P "type" (AssociationType_value ty)); [|done|].
    - apply assigned_defined. by destruct ty.
    - apply pair_set_other; [done|]. apply pair_set_in. }
  split.
  { intros Hv. rewrite Htgt. by apply assigned_defined. }
  split.
  { intros earlier -> He. rewrite Htgt. by apply assigned_kept. }
  intros f H1 H2 H3. apply assign_all_absent. unfold P.
  rewrite !pair_set_keys. by intros [->|[->|H]].
Qed.

Lemma assoc_keeps_earlier_target_witness :
  ∃ s' r orec',
    assoc BELONGS_TO VUndefined None User_prototype "owner" collided = Return tt s'
    ∧ record_of s' MODEL_ASSOCS_META_KEY User_prototype "owner" = Some (r, orec')
    ∧ fields orec' !! "type" = Some (VNum 2)
    ∧ fields orec' !! "target" = Some (VFun 7).
Proof.
  destruct (assoc_keeps_earlier_target BELONGS_TO VUndefined None User_prototype
              "owner" collided)
    as (s' & r & orec' & H1 & H2 & H3 & _ & H4 & _).
  - discriminate.
  - reflexivity.
  - vm_compute. reflexivity.
  - apply (bool_decide_unpack _). vm_compute. exact I.
  - vm_compute. reflexivity.
  - exists s', r, orec'. split; [exact H1|]. split; [exact H2|].
    split; [exact H3|]. apply H4; [reflexivity|]. vm_compute. reflexivity.
Defined.

(** ** The resolved property of a declaration *)

(** X13: after [@attr(type, options)], with a type and options that are
    literals of plain data, on a property (other than [__proto__]) that has
    no attribute and no association yet, on a type whose earlier
    declarations can be resolved, [getProperties] returns a mapping that
    holds at that key an [Attribute] built from the key and from a type
    value that is the declared type: the atom itself, or a copy of the
    object literal made by the declaration. *)
Theorem attr_then_getProperties (c : ctor) (t : objref) (ty : lit)
    (opts : option (list (string * lit))) (key : string) (s : state) :
  key ≠ "__proto__" →
  literal ty = true →
  literal (LObj (default [] opts)) = true →
  prototype c = Some t →
  resolvable s t →
  meta_fields s MODEL_ATTRS_META_KEY t !! key = None →
  meta_fields s MODEL_ASSOCS_META_KEY t !! key = None →
  ∃ s1 p s2 q tv Ft,
    attr ty opts t key s = Return tt s1
    ∧ getProperties c s1 = Return p s2
    ∧ heap_get (heap s2) p key = VRef q
    ∧ heap s2 !! q = Some (instance Attribute_class tv key)
    ∧ repr (heap s2) tv ty Ft
    ∧ (∀ x, x ∈ Ft → x ∉ dom (heap s)).
Proof.
  intros Hproto Hty Hopts Hp Hres Hfa Hfb.
  unfold attr. rewrite defineAttribute_define_merge.
  set (P := lit_set "type" ty (default [] opts)).
  set (mk := MODEL_ATTRS_META_KEY).
  assert (Hlit : literal (LObj P) = true)
    by (apply literal_lit_set; [done|done|apply ordinary_type]).
  destruct (literal_obj P Hlit) as (_ & Hnd & _).
  destruct (define_merge_first_literal mk t key P s Hproto Hlit Hfa)
    as (s1 & r & F' & Hrun & Hmf & Hrep & Hmd & Hfresh & Hfr & Hsub & Hla).
  rewrite merged_obj in Hrep.
  destruct (repr_obj_inv _ _ _ _ Hrep) as (r' & o & Fc & Er & Hr & _ & Hflds & _ & HF').
  injection Er as <-.
  assert (Hfty : field "type" (merge_fields P (fields_of None)) = Some ty).
  { rewrite merge_fields_field by done. unfold P. rewrite field_lit_set.
    rewrite decide_True by done. simpl.
    destruct ty as [[| | | | | |]| |]; try done;
      by rewrite (merged_none _ Hty). }
  destruct (repr_fields_field _ _ _ _ _ _ Hflds Hfty) as (tv & Ft & Htv & Hreptv & HFt).
  assert (Hm1 : meta_value s1 mk t = VRef (fresh (dom (heap s)))).
  { unfold meta_value. rewrite Hmd. apply OrdinaryGetMetadata_own, lookup_insert_eq. }
  assert (Hres1 : resolvable s1 t).
  { apply (define_merge_free_resolvable mk t s s1 key r (or_introl eq_refl) Hres);
      [by eauto|done| |done|done|].
    - rewrite Hm1. simpl. by apply elem_of_dom.
    - intros mk' Hne. unfold meta_value. rewrite Hmd.
      apply OrdinaryGetMetadata_insert_other. congruence. }
  unfold mk in *.
  destruct (getProperties_resolvable c t s1 Hp Hres1) as
    (p & s2 & op & Hget & _ & _ & Hfr2 & Hop & _ & _ & _ & _ & Hattr).
  destruct (Hattr key (VRef r)) as (q & Hq1 & _ & Hq2).
  { rewrite Hmf. apply lookup_insert_eq. }
  { destruct Hres as (_ & Hb & _).
    rewrite (meta_fields_frame s s1 MODEL_ASSOCS_META_KEY t); auto.
    unfold meta_value. rewrite Hmd. apply OrdinaryGetMetadata_insert_other.
    discriminate. }
  exists s1, p, s2, q, tv, Ft. split; [done|]. split; [done|]. split.
  { unfold heap_get, obj_get. by rewrite Hop, Hq1. }
  split.
  { rewrite Hq2. do 2 f_equal. unfold type_of, heap_get, obj_get.
    by rewrite Hr, Htv. }
  split.
  { eapply repr_frame; [exact Hreptv|]. intros x Hx. apply Hfr2.
    by apply (repr_dom _ _ _ _ Hreptv). }
  intros x Hx. apply Hfresh. rewrite HF'. apply elem_of_union_r. by apply HFt.
Qed.

Lemma attr_then_getProperties_witness :
  ∃ s1 p s2 q tv Ft,
    attr (LObj [("name", LAtom (VStr "STRING"))]) None User_prototype "nickname"
      email_declared = Return tt s1
    ∧ getProperties User s1 = Return p s2
    ∧ heap_get (heap s2) p "nickname" = VRef q
    ∧ heap s2 !! q = Some (instance Attribute_class tv "nickname")
    ∧ repr (heap s2) tv (LObj [("name", LAtom (VStr "STRING"))]) Ft.
Proof.
  destruct (attr_then_getProperties User User_prototype
              (LObj [("name", LAtom (VStr "STRING"))]) None
              "nickname" email_declared)
    as (s1 & p & s2 & q & tv & Ft & H1 & H2 & H3 & H4 & H5 & _).
  - discriminate.
  - vm_compute. reflexivity.
  - vm_compute. reflexivity.
  - reflexivity.
  - apply (bool_decide_unpack _). vm_compute. exact I.
  - vm_compute. reflexivity.
  - vm_compute. reflexivity.
  - exists s1, p, s2, q, tv, Ft. done.
Defined.

(** X14: after [@assoc(type, target, options)], with a target that is a
    primitive or a function and flat options of primitives and functions,
    on a property (other than [__proto__]) that has no association yet, on
    a type whose earlier declarations can be resolved, [getProperties]
    returns a mapping that holds at that key an [Association] built from
    the link type and the key, also when an attribute was declared under
    the key. *)
Theorem assoc_then_getProperties (c : ctor) (t : objref) (ty : AssociationType)
    (tgt : value) (opts : option (list (string * value))) (key : string)
    (s : state) :
  key ≠ "__proto__" →
  is_ref tgt = false →
  literal (LObj (atoms (default [] opts))) = true →
  prototype c = Some t →
  resolvable s t →
  meta_fields s MODEL_ASSOCS_META_KEY t !! key = None →
  ∃ s1 p s2 q,
    assoc ty tgt (atoms <$> opts) t key s = Return tt s1
    ∧ getProperties c s1 = Return p s2
    ∧ heap_get (heap s2) p key = VRef q
    ∧ heap s2 !! q
      = Some (instance Association_class (AssociationType_value ty) key).
Proof.
  intros Hproto _ Hlit Hp Hres Hfb. pose proof (literal_atoms_NoDup _ Hlit) as Hnd.
  unfold assoc. rewrite atoms_default, !lit_set_atoms, defineAssociation_define_merge.
  set (P := pair_set "target" tgt
              (pair_set "type" (AssociationType_value ty) (default [] opts))).
  destruct (define_merge_free MODEL_ASSOCS_META_KEY t key P s Hproto Hfb)
    as (s1 & r & Hrun & _ & Hr & Hrr & Hmf & Hc & Hsub & Hfr & Hoth).
  assert (Hres1 : resolvable s1 t).
  { eapply (define_merge_free_resolvable MODEL_ASSOCS_META_KEY t s s1 key r); eauto. }
  destruct (getProperties_resolvable c t s1 Hp Hres1) as
    (p & s2 & op & Hget & _ & _ & _ & Hop & _ & _ & _ & Hassoc & _).
  destruct (Hassoc key (VRef r)) as (q & Hq1 & _ & Hq2).
  { rewrite Hmf. apply lookup_insert_eq. }
  exists s1, p, s2, q. split; [done|]. split; [done|]. split.
  { unfold heap_get, obj_get. by rewrite Hop, Hq1. }
  rewrite Hq2. do 2 f_equal. unfold type_of, heap_get, obj_get. rewrite Hrr.
  rewrite (assign_all_present P "type" (AssociationType_value ty));
    [|by apply pair_set_NoDup, pair_set_NoDup
     |apply pair_set_other; [done|]; apply pair_set_in].
  rewrite assigned_defined by (by destruct ty). done.
Qed.

Lemma assoc_then_getProperties_witness :
  ∃ s1 p s2 q,
    assoc HAS_MANY (VFun 7) None User_prototype "email" email_declared
      = Return tt s1
    ∧ getProperties User s1 = Return p s2
    ∧ heap_get (heap s2) p "email" = VRef q
    ∧ heap s2 !! q = Some (instance Association_class (VNum 1) "email").
Proof.
  apply (assoc_then_getProperties User User_prototype HAS_MANY (VFun 7) None
           "email" email_declared).
  - discriminate.
  - reflexivity.
  - vm_compute. reflexivity.
  - reflexivity.
  - apply (bool_decide_unpack _). vm_compute. exact I.
  - vm_compute. reflexivity.
Defined.

(** ** A subclass redeclares an attribute *)

(** X15: a class that extends a model and has no attributes of its own
    shares the records of the model: when it redeclares an attribute of
    the model (a key other than [__proto__], whose record is a plain
    object) with a flat literal of primitives and functions, the partial is
    merged into the model's own record, so the model sees the change as
    well. *)
Theorem subclass_redeclaration_reaches_base (b : objref) (j : nat) (key : string)
    (P : list (string * value)) (s : state) (r : loc) (orec : object) :
  key ≠ "__proto__" →
  literal (LObj (atoms P)) = true →
  metadata s !! (j, None, MODEL_ATTRS_META_KEY) = None →
  j ∉ chain b →
  record_of s MODEL_ATTRS_META_KEY b key = Some (r, orec) →
  kind orec = KPlain →
  meta_value s MODEL_ATTRS_META_KEY b ≠ VRef r →
  ∃ s',
    defineAttribute (ObjRef j (Some b)) key (LObj (atoms P)) s = Return tt s'
    ∧ record_of s' MODEL_ATTRS_META_KEY b key = Some (r, assign_all orec P)
    ∧ record_of s' MODEL_ATTRS_META_KEY (ObjRef j (Some b)) key
      = Some (r, assign_all orec P).
Proof.
  intros Hproto _ Hown Hj Hrec _ Hne.
  set (d := ObjRef j (Some b)).
  pose proof (meta_value_inherited s MODEL_ATTRS_META_KEY j b Hown) as Hmv.
  assert (Hrecd : record_of s MODEL_ATTRS_META_KEY d key = Some (r, orec)).
  { unfold record_of, meta_fields, d. rewrite Hmv. exact Hrec. }
  rewrite defineAttribute_define_merge.
  destruct (define_merge_flat MODEL_ATTRS_META_KEY d key P s Hproto)
    as (s' & Hrun & Hrec' & _ & Hmd & Hfr & _).
  { right. rewrite Hrecd. eauto. }
  unfold record_loc, prior_record in Hrec', Hfr. rewrite Hrecd in Hrec', Hfr.
  exists s'. split; [exact Hrun|]. split; [|exact Hrec'].
  destruct (record_of_inv s _ b key r orec Hrec)
    as (la0 & oa & Hm & Hla0 & Hk & Hr & _).
  destruct (record_of_inv s' _ d key r _ Hrec') as (_ & _ & _ & _ & _ & Hr' & _).
  apply (record_of_intro s' _ b key la0 oa r).
  - unfold meta_value. rewrite Hmd.
    rewrite OrdinaryGetMetadata_insert_off_chain by done. exact Hm.
  - rewrite Hfr; [done| |].
    + apply elem_of_dom. eauto.
    + intros ->. by rewrite Hm in Hne.
  - exact Hk.
  - exact Hr'.
Qed.

Lemma subclass_redeclaration_reaches_base_witness :
  ∃ s',
    defineAttribute (ObjRef 2 (Some Base_prototype)) "email"
      (LObj (atoms [("unique", VBool true)])) email_declared = Return tt s'
    ∧ record_of s' MODEL_ATTRS_META_KEY Base_prototype "email"
      = Some (1%nat, plain (<["unique" := VBool true]>
                              (<["type" := VStr "STRING"]> ∅))).
Proof.
  destruct (subclass_redeclaration_reaches_base Base_prototype 2 "email"
              [("unique", VBool true)] email_declared 1%nat
              (plain (<["type" := VStr "STRING"]> ∅)))
    as (s' & H1 & H2 & _).
  - discriminate.
  - vm_compute. reflexivity.
  - vm_compute. reflexivity.
  - apply (bool_decide_unpack _). vm_compute. exact I.
  - vm_compute. reflexivity.
  - reflexivity.
  - vm_compute. discriminate.
  - exists s'. split; [exact H1|]. rewrite H2. vm_compute. reflexivity.
Defined.





(** ** Declarations never lose a key *)



